(** * ExitBox: workspace hashing, image freshness, egress proxy rendering,
      secret vault, [.env] parsing and session selectors.

    A shallow embedding of the Go sources of ExitBox
    ([internal/image/project.go], [internal/vault/vault.go], the session
    package) together with the properties stated about them; further on,
    the other operations of the vault and its [edit] command, the listing
    and removal of sessions, shell completion, the migration of the user
    tools, the packages of the project image and the word wrapping of the
    setup wizard.

    Go strings are byte sequences; they are modelled as [list ascii]
    ([bytes]).  Go maps are modelled as [gmap bytes bytes]. *)

From Stdlib Require Import ZArith Ascii String List Lia Bool Sorting.Sorted.
From stdpp Require Import base option list gmap strings sorting.
Import ListNotations.

Local Open Scope list_scope.

(* ===================================================================== *)
(** * Go strings *)
(* ===================================================================== *)

Abbreviation bytes := (list ascii).

(** A Go string literal. *)
Definition bs (s : string) : bytes := list_ascii_of_string s.

Definition byte_val (c : ascii) : Z := Z.of_N (N_of_ascii c).
Definition byte_of (z : Z) : ascii := ascii_of_N (Z.to_N z).

Definition bytes_eqb (a b : bytes) : bool := bool_decide (a = b).

(** Go's [<] and [<=] on strings: lexicographic on bytes. *)
Fixpoint bytes_compare (a b : bytes) : comparison :=
  match a, b with
  | [], [] => Eq
  | [], _ :: _ => Lt
  | _ :: _, [] => Gt
  | x :: a', y :: b' =>
      match Z.compare (byte_val x) (byte_val y) with
      | Eq => bytes_compare a' b'
      | c => c
      end
  end.

Definition bytes_leb (a b : bytes) : bool :=
  match bytes_compare a b with Gt => false | _ => true end.

Definition bytes_ltb (a b : bytes) : bool :=
  match bytes_compare a b with Lt => true | _ => false end.

(** [strings.HasPrefix(s, prefix)]. *)
Fixpoint HasPrefix (s prefix : bytes) : bool :=
  match prefix, s with
  | [], _ => true
  | _ :: _, [] => false
  | p :: prefix', c :: s' => if Ascii.eqb p c then HasPrefix s' prefix' else false
  end.

(** [strings.HasSuffix(s, suffix)]. *)
Definition HasSuffix (s suffix : bytes) : bool :=
  HasPrefix (reverse s) (reverse suffix).

(** [strings.IndexByte(s, c)]: [None] stands for [-1]. *)
Fixpoint IndexByte (s : bytes) (c : ascii) : option nat :=
  match s with
  | [] => None
  | x :: s' => if Ascii.eqb x c then Some 0%nat else S <$> IndexByte s' c
  end.

(** [strings.Count(s, substr)] for a non-empty [substr]: the number of
    non-overlapping instances. *)
Fixpoint Count_from (fuel : nat) (s substr : bytes) : nat :=
  match fuel, s with
  | S fuel', _ :: rest =>
      if HasPrefix s substr
      then S (Count_from fuel' (skipn (length substr) s) substr)
      else Count_from fuel' rest substr
  | _, _ => O
  end.

Definition Count (s substr : bytes) : nat := Count_from (length s) s substr.

(** [strings.Join(parts, sep)]. *)
Fixpoint Join (parts : list bytes) (sep : bytes) : bytes :=
  match parts with
  | [] => []
  | [p] => p
  | p :: rest => p ++ sep ++ Join rest sep
  end.

(** ** [strings.TrimSpace]

    Go trims every leading and trailing rune with [unicode.IsSpace]: the
    ASCII characters tab, newline, vertical tab, form feed, carriage return
    and space, and the runes U+0085, U+00A0, U+1680, U+2000..U+200A, U+2028,
    U+2029, U+202F, U+205F and U+3000, recognised through their UTF-8
    encodings.  An invalid encoding decodes to U+FFFD of width one, which is
    not a space, so trimming stops there. *)

Definition is_space1 (c : ascii) : bool :=
  let n := byte_val c in
  ((9 <=? n) && (n <=? 13) || (n =? 32))%Z.

Definition is_space2 (c1 c2 : ascii) : bool :=
  ((byte_val c1 =? 0xC2) && ((byte_val c2 =? 0x85) || (byte_val c2 =? 0xA0)))%Z.

Definition is_space3 (c1 c2 c3 : ascii) : bool :=
  let a := byte_val c1 in
  let b := byte_val c2 in
  let c := byte_val c3 in
  ((a =? 0xE1) && (b =? 0x9A) && (c =? 0x80)
   || (a =? 0xE2) && (b =? 0x80)
      && ((0x80 <=? c) && (c <=? 0x8A) || (c =? 0xA8) || (c =? 0xA9) || (c =? 0xAF))
   || (a =? 0xE2) && (b =? 0x81) && (c =? 0x9F)
   || (a =? 0xE3) && (b =? 0x80) && (c =? 0x80))%Z.

(** [strings.TrimLeftFunc(s, unicode.IsSpace)]. *)
Fixpoint TrimLeftSpace (s : bytes) : bytes :=
  match s with
  | [] => []
  | c1 :: r1 =>
      if is_space1 c1 then TrimLeftSpace r1
      else match r1 with
           | [] => s
           | c2 :: r2 =>
               if is_space2 c1 c2 then TrimLeftSpace r2
               else match r2 with
                    | [] => s
                    | c3 :: r3 =>
                        if is_space3 c1 c2 c3 then TrimLeftSpace r3 else s
                    end
           end
  end.

(** The same scan from the end of the string, on the reversed bytes: the
    head of the list is the last byte of the string. *)
Fixpoint trim_rev_space (r : bytes) : bytes :=
  match r with
  | [] => []
  | c1 :: r1 =>
      if is_space1 c1 then trim_rev_space r1
      else match r1 with
           | [] => r
           | c2 :: r2 =>
               if is_space2 c2 c1 then trim_rev_space r2
               else match r2 with
                    | [] => r
                    | c3 :: r3 =>
                        if is_space3 c3 c2 c1 then trim_rev_space r3 else r
                    end
           end
  end.

(** [strings.TrimRightFunc(s, unicode.IsSpace)]. *)
Definition TrimRightSpace (s : bytes) : bytes :=
  reverse (trim_rev_space (reverse s)).

Definition TrimSpace (s : bytes) : bytes := TrimRightSpace (TrimLeftSpace s).

(* ===================================================================== *)
(** * SHA-256 and hexadecimal formatting *)
(* ===================================================================== *)

Module SHA256.
Local Open Scope Z_scope.

Definition w32 (x : Z) : Z := x mod 2 ^ 32.
Definition add32 (x y : Z) : Z := w32 (x + y).
Definition rotr (n x : Z) : Z :=
  Z.lor (Z.shiftr x n) (w32 (Z.shiftl x (32 - n))).
Definition not32 (x : Z) : Z := Z.lxor x 0xffffffff.

Definition Ch (x y z : Z) : Z := Z.lxor (Z.land x y) (Z.land (not32 x) z).
Definition Maj (x y z : Z) : Z :=
  Z.lxor (Z.lxor (Z.land x y) (Z.land x z)) (Z.land y z).
Definition bsig0 (x : Z) : Z := Z.lxor (Z.lxor (rotr 2 x) (rotr 13 x)) (rotr 22 x).
Definition bsig1 (x : Z) : Z := Z.lxor (Z.lxor (rotr 6 x) (rotr 11 x)) (rotr 25 x).
Definition ssig0 (x : Z) : Z := Z.lxor (Z.lxor (rotr 7 x) (rotr 18 x)) (Z.shiftr x 3).
Definition ssig1 (x : Z) : Z := Z.lxor (Z.lxor (rotr 17 x) (rotr 19 x)) (Z.shiftr x 10).

(** FIPS 180-4 takes its constants from the first 64 primes: the round
    constants are the first 32 bits of the fractional parts of their cube
    roots, the initial hash value those of the square roots of the first
    eight. *)
Definition is_prime (n : Z) : bool :=
  forallb (fun d => negb (n mod Z.of_nat d =? 0)) (seq 2 (Z.to_nat n - 2)).

Definition first_primes : list Z :=
  Eval vm_compute in List.filter is_prime (map Z.of_nat (seq 2 310)).

(** The largest [r] below [2 ^ bits] with [r ^ k <= n], bit by bit. *)
Fixpoint iroot (k : Z) (bits : nat) (n r : Z) : Z :=
  match bits with
  | O => r
  | S b =>
      let c := r + 2 ^ Z.of_nat b in
      iroot k b n (if c ^ k <=? n then c else r)
  end.

Definition frac_root32 (k p : Z) : Z :=
  iroot k 40 (p * 2 ^ (32 * k)) 0 mod 2 ^ 32.

Definition K : list Z :=
  Eval vm_compute in map (frac_root32 3) first_primes.

Definition H0_words : list Z :=
  Eval vm_compute in map (frac_root32 2) (firstn 8 first_primes).

(** The eight working variables / chaining values. *)
Record state := State {
  sa : Z; sb : Z; sc : Z; sd : Z; se : Z; sf : Z; sg : Z; sh : Z }.

Definition H0 : state :=
  let w i := nth i H0_words 0 in
  State (w 0%nat) (w 1%nat) (w 2%nat) (w 3%nat) (w 4%nat) (w 5%nat) (w 6%nat) (w 7%nat).

(** Message padding: a [0x80] byte, zeros up to 56 mod 64, then the bit
    length as a 64-bit big-endian integer. *)
Definition be_bytes (n : nat) (x : Z) : list Z :=
  map (fun i => Z.land (Z.shiftr x (8 * Z.of_nat i)) 0xff) (rev (seq 0 n)).

Definition pad (msg : list Z) : list Z :=
  let len := Z.of_nat (length msg) in
  let zeros := Z.to_nat ((55 - len) mod 64) in
  msg ++ [0x80] ++ repeat 0 zeros ++ be_bytes 8 (8 * len).

Fixpoint be_words (fuel : nat) (l : list Z) : list Z :=
  match fuel, l with
  | S fuel', b0 :: b1 :: b2 :: b3 :: rest =>
      (Z.shiftl b0 24 + Z.shiftl b1 16 + Z.shiftl b2 8 + b3) :: be_words fuel' rest
  | _, _ => []
  end.

(** The message schedule, most recent word first: [ws] holds
    [W(t-1), W(t-2), ...]. *)
Fixpoint extend (n : nat) (ws : list Z) : list Z :=
  match n with
  | O => ws
  | S n' =>
      let w := add32 (add32 (ssig1 (nth 1 ws 0)) (nth 6 ws 0))
                     (add32 (ssig0 (nth 14 ws 0)) (nth 15 ws 0)) in
      extend n' (w :: ws)
  end.

Definition schedule (block : list Z) : list Z :=
  rev (extend 48 (rev (be_words 16 block))).

Definition round (s : state) (kw : Z * Z) : state :=
  let t1 := add32 (add32 (add32 (sh s) (bsig1 (se s))) (Ch (se s) (sf s) (sg s)))
                  (add32 (fst kw) (snd kw)) in
  let t2 := add32 (bsig0 (sa s)) (Maj (sa s) (sb s) (sc s)) in
  State (add32 t1 t2) (sa s) (sb s) (sc s) (add32 (sd s) t1) (se s) (sf s) (sg s).

Definition compress (h : state) (block : list Z) : state :=
  let s := fold_left round (combine K (schedule block)) h in
  State (add32 (sa h) (sa s)) (add32 (sb h) (sb s)) (add32 (sc h) (sc s))
        (add32 (sd h) (sd s)) (add32 (se h) (se s)) (add32 (sf h) (sf s))
        (add32 (sg h) (sg s)) (add32 (sh h) (sh s)).

Fixpoint blocks (fuel : nat) (h : state) (l : list Z) : state :=
  match fuel, l with
  | S fuel', _ :: _ => blocks fuel' (compress h (firstn 64 l)) (skipn 64 l)
  | _, _ => h
  end.

Definition digest_bytes (s : state) : list Z :=
  be_bytes 4 (sa s) ++ be_bytes 4 (sb s) ++ be_bytes 4 (sc s) ++ be_bytes 4 (sd s)
  ++ be_bytes 4 (se s) ++ be_bytes 4 (sf s) ++ be_bytes 4 (sg s) ++ be_bytes 4 (sh s).

(** [sha256.Sum256(data)]: the 32-byte digest. *)
Definition Sum256 (data : bytes) : bytes :=
  let m := pad (map byte_val data) in
  map byte_of (digest_bytes (blocks (length m) H0 m)).
End SHA256.

(** [fmt.Sprintf("%x", b)]: two lower-case hexadecimal digits per byte. *)
Definition hex_digit (n : Z) : ascii :=
  nth (Z.to_nat n) (bs "0123456789abcdef") "0"%char.

Definition hex_byte (c : ascii) : bytes :=
  [hex_digit (byte_val c / 16); hex_digit (byte_val c mod 16)].

Definition hex (b : bytes) : bytes := flat_map hex_byte b.


(* ===================================================================== *)
(** * Configuration and the workspace resolver *)
(* ===================================================================== *)

(** Modelled from the spec: the declaration of [config.Workspace] is not
    part of the sources at hand.  Section 3 of the specification gives
    [{ name, scope, directory?, development, packages, vault: {enabled} }]
    with [scope] one of global and directory. *)
Inductive WorkspaceScope := ScopeGlobal | ScopeDirectory.

Definition scope_string (s : WorkspaceScope) : bytes :=
  match s with
  | ScopeGlobal => bs "global"
  | ScopeDirectory => bs "directory"
  end.

Record Workspace := {
  Name : bytes;
  WScope : WorkspaceScope;
  Directory : option bytes;
  Development : list bytes;
  Packages : list bytes;
  VaultEnabled : bool }.

(** The fields of [config.Config] that the modelled functions read:
    [cfg.Workspaces.Active], [cfg.Workspaces.Items],
    [cfg.Settings.DefaultWorkspace] and [cfg.Tools.User]. *)
Record Config := {
  WorkspacesActive : bytes;
  WorkspacesItems : list Workspace;
  DefaultWorkspace : bytes;
  ToolsUser : list bytes }.

Definition with_tools (cfg : Config) (tools : list bytes) : Config :=
  {| WorkspacesActive := WorkspacesActive cfg;
     WorkspacesItems := WorkspacesItems cfg;
     DefaultWorkspace := DefaultWorkspace cfg;
     ToolsUser := tools |}.

(** [profile.ActiveWorkspace]: the callers read [active.Scope] (a string)
    and [active.Workspace]. *)
Record ActiveWorkspace := {
  Scope : bytes;
  AWorkspace : Workspace }.

Inductive ResolveError := UnknownWorkspace (name : bytes).

Definition activate (w : Workspace) : ActiveWorkspace :=
  {| Scope := scope_string (WScope w); AWorkspace := w |}.

(** [profile.FindWorkspace(cfg, name)]: the first item of that name. *)
Definition FindWorkspace (cfg : Config) (name : bytes) : option Workspace :=
  find (fun w => bytes_eqb (Name w) name) (WorkspacesItems cfg).

(** Does the directory-scoped workspace [w] cover [projectDir]?  Gives the
    length of the matching directory. *)
Definition directory_match (projectDir : bytes) (w : Workspace) : option nat :=
  match WScope w, Directory w with
  | ScopeDirectory, Some d =>
      if HasPrefix projectDir d then Some (length d) else None
  | _, _ => None
  end.

(** Longest directory prefix wins; on equal length the earlier item stays. *)
Fixpoint best_directory (projectDir : bytes) (items : list Workspace)
    (best : option (nat * Workspace)) : option (nat * Workspace) :=
  match items with
  | [] => best
  | w :: rest =>
      let best' :=
        match directory_match projectDir w, best with
        | Some n, None => Some (n, w)
        | Some n, Some (m, b) => if (m <? n)%nat then Some (n, w) else best
        | None, _ => best
        end in
      best_directory projectDir rest best'
  end.

(** Modelled from the spec: [profile.ResolveActiveWorkspace] is called by the
    sources at hand but its body is not among them.  Section 4.1 of the
    specification gives the resolution chain, first match wins:
    override, directory scope (longest prefix, insertion order on ties),
    [workspaces.active], [settings.default_workspace], first item, nil. *)
Definition ResolveActiveWorkspace (cfg : Config) (projectDir overrideName : bytes)
    : ResolveError + option ActiveWorkspace :=
  match overrideName with
  | _ :: _ =>
      match FindWorkspace cfg overrideName with
      | Some w => inr (Some (activate w))
      | None => inl (UnknownWorkspace overrideName)
      end
  | [] =>
      match best_directory projectDir (WorkspacesItems cfg) None with
      | Some (_, w) => inr (Some (activate w))
      | None =>
          match FindWorkspace cfg (WorkspacesActive cfg) with
          | Some w => inr (Some (activate w))
          | None =>
              match FindWorkspace cfg (DefaultWorkspace cfg) with
              | Some w => inr (Some (activate w))
              | None => inr (activate <$> head (WorkspacesItems cfg))
              end
          end
      end
  end.

(** What a Go caller holds after [active, _ := ResolveActiveWorkspace(...)]:
    the error is dropped and a failed resolution leaves [active] nil. *)
Definition resolved_or_nil (r : ResolveError + option ActiveWorkspace)
    : option ActiveWorkspace :=
  match r with
  | inr a => a
  | inl _ => None
  end.

(* ===================================================================== *)
(** * The project image: workspace hash and freshness check *)
(* ===================================================================== *)

(** The container runtime, as far as [BuildProject] consults it before it
    decides to build.  [ImageInspect] gives the output string; the Go code
    drops the error, and a failed inspection leaves the string empty. *)
Record Runtime := {
  ImageExists : bytes -> bool;
  ImageInspect : bytes -> bytes -> bytes }.

Inductive BuildDecision :=
| ParentBuildFailed   (* the parent layer could not be ensured *)
| SkipBuild           (* [return nil] before any build step *)
| RunBuild.           (* falls through to rendering and building *)

Definition created_format : bytes := bs "{{.Created}}".

(** The guard shared by both revisions of [BuildProject]:
    [if !force && rt.ImageExists(imageName) { ... return nil ... }]. *)
Definition freshness_decision (rt : Runtime) (parentImage imageName : bytes)
    (force : bool) : BuildDecision :=
  if negb force && ImageExists rt imageName then
    let parentCreated := ImageInspect rt parentImage created_format in
    let projectCreated := ImageInspect rt imageName created_format in
    if bytes_eqb parentCreated [] || bytes_eqb projectCreated []
       || bytes_leb parentCreated projectCreated
    then SkipBuild
    else RunBuild
  else RunBuild.

(** The revision of [image/project.go] that builds on the tools layer (the
    Go text that follows the shell script in
    [static/build/docker-entrypoint_test.sh]). *)
Module ToolsLayer.
Section WithSessionTools.
(** [image.SessionTools]: a package list declared outside the sources at
    hand. *)
Variable SessionTools : list bytes.

Definition hash_parts (cfg : Config) (active : option ActiveWorkspace) : list bytes :=
  let parts :=
    match active with
    | Some a =>
        ([Scope a; Name (AWorkspace a)] ++ Development (AWorkspace a))
        ++ Packages (AWorkspace a)
    | None => []
    end in
  parts ++ SessionTools.

Definition WorkspaceHash (cfg : Config) (projectDir overrideName : bytes) : bytes :=
  let active := resolved_or_nil (ResolveActiveWorkspace cfg projectDir overrideName) in
  let h := SHA256.Sum256 (Join (hash_parts cfg active) (bs ",")) in
  hex (firstn 8 h).
End WithSessionTools.

Definition parent_image (agentName : bytes) : bytes :=
  bs "exitbox-" ++ agentName ++ bs "-tools".

(** [BuildProject] up to the point where it starts rendering the build
    specification.  [ImageName] stands for [proj.ImageName] and
    [parent_ok] for the outcome of [BuildTools]. *)
Definition BuildProject (SessionTools : list bytes)
    (ImageName : bytes -> bytes -> bytes -> bytes)
    (cfg : Config) (rt : Runtime) (parent_ok : bool)
    (agentName projectDir workspaceOverride : bytes) (force : bool)
    : BuildDecision :=
  let wh := WorkspaceHash SessionTools cfg projectDir workspaceOverride in
  let imageName := ImageName agentName projectDir wh in
  if negb parent_ok then ParentBuildFailed
  else freshness_decision rt (parent_image agentName) imageName force.
End ToolsLayer.

(** The earlier revision kept in [internal/image/project.go], which builds
    directly on the core image and installs the user tools itself. *)
Module CoreLayer.
Definition hash_parts (cfg : Config) (active : option ActiveWorkspace) : list bytes :=
  let parts :=
    match active with
    | Some a => [Scope a; Name (AWorkspace a)] ++ Development (AWorkspace a)
    | None => []
    end in
  parts ++ ToolsUser cfg.

Definition WorkspaceHash (cfg : Config) (projectDir overrideName : bytes) : bytes :=
  let active := resolved_or_nil (ResolveActiveWorkspace cfg projectDir overrideName) in
  let h := SHA256.Sum256 (Join (hash_parts cfg active) (bs ",")) in
  hex (firstn 8 h).

Definition parent_image (agentName : bytes) : bytes :=
  bs "exitbox-" ++ agentName ++ bs "-core".

Definition BuildProject
    (ImageName : bytes -> bytes -> bytes -> bytes)
    (cfg : Config) (rt : Runtime) (parent_ok : bool)
    (agentName projectDir workspaceOverride : bytes) (force : bool)
    : BuildDecision :=
  let wh := WorkspaceHash cfg projectDir workspaceOverride in
  let imageName := ImageName agentName projectDir wh in
  if negb parent_ok then ParentBuildFailed
  else freshness_decision rt (parent_image agentName) imageName force.
End CoreLayer.

(** The hashed fields in the words of the specification:
    [scope ‖ name ‖ development[] ‖ packages[] ‖ session_tools[]] of the
    resolved workspace, and the session tools alone when none is resolved. *)
Definition spec_hash_fields (session_tools : list bytes)
    (active : option ActiveWorkspace) : list bytes :=
  match active with
  | Some a =>
      Scope a :: Name (AWorkspace a)
      :: Development (AWorkspace a) ++ Packages (AWorkspace a) ++ session_tools
  | None => session_tools
  end.

(** The freshness rule in the words of the specification: "a missing
    timestamp is treated as newer (rebuild)". *)
Definition rebuilds_when_timestamp_missing
    (rt : Runtime) (parentImage imageName : bytes) : Prop :=
  ImageExists rt imageName = true ->
  ImageInspect rt parentImage created_format = []
  \/ ImageInspect rt imageName created_format = [] ->
  freshness_decision rt parentImage imageName false = RunBuild.

(** [dedup] of [image/project.go]: duplicates removed, order preserved;
    [seen] is the Go map of strings met so far. *)
Fixpoint dedup_from (seen : gset bytes) (in_ : list bytes) : list bytes :=
  match in_ with
  | [] => []
  | s :: rest =>
      if bool_decide (s ∈ seen) then dedup_from seen rest
      else s :: dedup_from ({[s]} ∪ seen) rest
  end.

Definition dedup (in_ : list bytes) : list bytes := dedup_from ∅ in_.

(* ===================================================================== *)
(** * The egress proxy configuration *)
(* ===================================================================== *)

Definition bytes_eq_dec : forall a b : bytes, {a = b} + {a <> b} :=
  List.list_eq_dec ascii_dec.

(** Empty or whitespace-only. *)
Definition blank (s : bytes) : bool := bytes_eqb (TrimSpace s) [].

(** The sentinel that [TestGenerateSquidConfig_EmptyAllowlist] looks for. *)
Definition block_all_domain : bytes := bs "__agentbox_block_all__".

Definition dstdomain_prefix : bytes := bs "acl allowed_domains dstdomain ".

Definition dstdomain_line (entry : bytes) : bytes := dstdomain_prefix ++ entry.

(** Modelled from the spec: the entries of the destination-domain ACL.
    [GenerateSquidConfig] is exercised by the tests at hand but its body is
    not among the sources.  Section 4.4: the ACL is populated from
    [dedup(workspace_allowlist ∪ session_extras)], each entry prefixed with
    a dot, empty and whitespace-only entries skipped; when both input lists
    are empty a single sentinel domain is inserted. *)
Definition allowed_domains (domains extraURLs : list bytes) : list bytes :=
  List.filter (fun d => negb (blank d)) (dedup (domains ++ extraURLs)).

Definition dstdomain_entries (domains extraURLs : list bytes) : list bytes :=
  match domains, extraURLs with
  | [], [] => [block_all_domain]
  | _, _ => map (fun d => bs "." ++ d) (allowed_domains domains extraURLs)
  end.

(** Modelled from the spec: the rendered configuration, line by line, with
    the directives that section 4.4 and the tests name.  [dns] is the list
    of servers that [getSquidDNSServers] yields. *)
Definition squid_lines (dns : list bytes) (subnet : bytes)
    (domains extraURLs : list bytes) : list bytes :=
  [ bs "http_port 3128";
    bs "acl agent_sources src " ++ subnet;
    bs "acl SSL_ports port 443";
    bs "acl CONNECT method CONNECT" ]
  ++ map dstdomain_line (dstdomain_entries domains extraURLs)
  ++ [ bs "http_access deny !Safe_ports";
       bs "http_access deny CONNECT !SSL_ports";
       bs "http_access allow localhost";
       bs "http_access allow agent_sources allowed_domains";
       bs "http_access deny all";
       bs "forwarded_for off";
       bs "via off";
       bs "dns_nameservers " ++ Join dns (bs " ") ].

(** Modelled from the spec: [GenerateSquidConfig(subnet, domains,
    extraURLs)], a single text document. *)
Definition GenerateSquidConfig (dns : list bytes) (subnet : bytes)
    (domains extraURLs : list bytes) : bytes :=
  flat_map (fun l => l ++ bs (String "010"%char EmptyString))
           (squid_lines dns subnet domains extraURLs).

(** The destination-domain ACL lines of a configuration. *)
Definition dstdomain_lines (lines : list bytes) : list bytes :=
  List.filter (fun l => HasPrefix l dstdomain_prefix) lines.

(* ===================================================================== *)
(** * Session selectors *)
(* ===================================================================== *)

(** What [ResolveSelector] reads from the sessions directory: for each
    entry its name, whether it is a directory, and the content of its
    [.name] file when that can be read. *)
Record DirEntry := {
  EntryName : bytes;
  IsDir : bool;
  NameFile : option bytes }.

(** The outcome of [os.ReadDir(sessionsDir)]. *)
Inductive ReadDirResult :=
| DirNotExist
| DirReadError
| DirEntries (entries : list DirEntry).

Inductive SelectorError :=
| ReadSessionsDirError
| AmbiguousSelector (selector : bytes).

(** The loop of [ResolveSelector]: [inl name] is the early return on an
    exact match, [inr prefixMatches] the list collected otherwise. *)
Fixpoint resolve_loop (selector : bytes) (entries : list DirEntry)
    (prefixMatches : list bytes) : bytes + list bytes :=
  match entries with
  | [] => inr prefixMatches
  | e :: rest =>
      if negb (IsDir e) then resolve_loop selector rest prefixMatches
      else
        let dirName := EntryName e in
        match NameFile e with
        | None => resolve_loop selector rest prefixMatches
        | Some raw =>
            let name := TrimSpace raw in
            if bytes_eqb name [] then resolve_loop selector rest prefixMatches
            else if bytes_eqb name selector || bytes_eqb dirName selector
            then inl name
            else if HasPrefix dirName selector
            then resolve_loop selector rest (prefixMatches ++ [name])
            else resolve_loop selector rest prefixMatches
        end
  end.

(** [ResolveSelector(workspaceName, agentName, projectDir, selector)], with
    the sessions directory of that workspace, agent and project given by
    its [ReadDir] outcome.  The result is Go's [(string, bool, error)]. *)
Definition ResolveSelector (dir : ReadDirResult) (selector : bytes)
    : bytes * bool * option SelectorError :=
  let selector := TrimSpace selector in
  if bytes_eqb selector [] then ([], false, None)
  else
    match dir with
    | DirNotExist => ([], false, None)
    | DirReadError => ([], false, Some ReadSessionsDirError)
    | DirEntries entries =>
        match resolve_loop selector entries [] with
        | inl name => (name, true, None)
        | inr [m] => (m, true, None)
        | inr (_ :: _ :: _) => ([], false, Some (AmbiguousSelector selector))
        | inr [] => ([], false, None)
        end
    end.

(** A stored session: its directory id and its name. *)
Record Session := { SessionId : bytes; SessionName : bytes }.

(** The sessions of a directory listing: the sub-directories whose [.name]
    is readable and not blank. *)
Definition session_of (e : DirEntry) : option Session :=
  if IsDir e then
    match NameFile e with
    | Some raw =>
        if bytes_eqb (TrimSpace raw) [] then None
        else Some {| SessionId := EntryName e; SessionName := TrimSpace raw |}
    | None => None
    end
  else None.

Definition sessions_of (entries : list DirEntry) : list Session :=
  omap session_of entries.

Definition exact_match (selector : bytes) (s : Session) : bool :=
  bytes_eqb (SessionName s) selector || bytes_eqb (SessionId s) selector.

Definition prefix_match (selector : bytes) (s : Session) : bool :=
  HasPrefix (SessionId s) selector.

(** The unique-prefix rule as worded in the specification, for every
    selector: a selector that is a prefix of exactly one session directory
    id resolves to that session. *)
Definition unique_prefix_resolves (entries : list DirEntry) (selector : bytes) : Prop :=
  forall s, List.filter (prefix_match selector) (sessions_of entries) = [s] ->
    ResolveSelector (DirEntries entries) selector = (SessionName s, true, None).

(* ===================================================================== *)
(** * The [.env] parser and serializer of the vault *)
(* ===================================================================== *)

Definition LF : ascii := "010"%char.
Definition CR : ascii := "013"%char.
Definition DQUOTE : ascii := "034"%char.
Definition SQUOTE : ascii := "039"%char.

(** [bufio.MaxScanTokenSize]: the buffer limit of a [bufio.Scanner]. *)
Definition MaxScanTokenSize : Z := 64 * 1024.

(** [dropCR] of package [bufio]: drops one terminal carriage return. *)
Definition dropCR (data : bytes) : bytes :=
  match reverse data with
  | c :: r => if Ascii.eqb c CR then reverse r else data
  | [] => data
  end.

(** The tokens that [scanner.Scan()] yields with the split function
    [bufio.ScanLines] over [bytes.NewReader(data)]: the text up to each
    newline, without a terminal carriage return, and the text after the
    last newline when it is not empty.  A line fits the scanner's buffer
    only together with its newline: when the first [MaxScanTokenSize]
    bytes of the remaining data hold no newline, [Scan] fails with
    [ErrTooLong] and returns [false] for good. *)
Fixpoint scan_tokens (fuel : nat) (data : bytes) : list bytes :=
  match fuel with
  | O => []
  | S fuel' =>
      match data with
      | [] => []
      | _ :: _ =>
          match IndexByte data LF with
          | Some i =>
              if (Z.of_nat i <? MaxScanTokenSize)%Z
              then dropCR (firstn i data) :: scan_tokens fuel' (skipn (S i) data)
              else []
          | None =>
              if (Z.of_nat (length data) <? MaxScanTokenSize)%Z
              then [dropCR data]
              else []
          end
      end
  end.

Definition scanner_lines (data : bytes) : list bytes :=
  scan_tokens (S (length data)) data.

(** [unquoteEnvValue]: strips matching single or double quotes. *)
Definition unquoteEnvValue (s : bytes) : bytes :=
  if (2 <=? length s)%nat then
    match head s, last s with
    | Some a, Some b =>
        if Ascii.eqb a DQUOTE && Ascii.eqb b DQUOTE
           || Ascii.eqb a SQUOTE && Ascii.eqb b SQUOTE
        then firstn (length s - 2) (skipn 1 s)
        else s
    | _, _ => s
    end
  else s.

(** The body of the loop of [ParseEnvFile] for one scanned line. *)
Definition parse_env_line (env : gmap bytes bytes) (text : bytes) : gmap bytes bytes :=
  let line := TrimSpace text in
  if bytes_eqb line [] || HasPrefix line (bs "#") then env
  else
    match IndexByte line "="%char with
    | None => env
    | Some idx =>
        let key := TrimSpace (firstn idx line) in
        if bytes_eqb key [] then env
        else
          let val := TrimSpace (skipn (S idx) line) in
          let val := unquoteEnvValue val in
          <[key := val]> env
    end.

(** [ParseEnvFile(data)]. *)
Definition ParseEnvFile (data : bytes) : gmap bytes bytes :=
  fold_left parse_env_line (scanner_lines data) ∅.

(** Go's [store[k]]: the empty string for an absent key. *)
Definition map_index (store : gmap bytes bytes) (k : bytes) : bytes :=
  default [] (store !! k).

Definition bytes_le (a b : bytes) : Prop := bytes_leb a b = true.

Global Instance bytes_le_dec : RelDecision bytes_le.
Proof. intros a b. unfold bytes_le. apply _. Defined.

(** [sort.Strings(keys)]. *)
Definition sort_Strings (keys : list bytes) : list bytes :=
  merge_sort bytes_le keys.

Definition env_line (store : gmap bytes bytes) (k : bytes) : bytes :=
  k ++ bs "=" ++ map_index store k ++ [LF].

(** [ExportEnvFormat(store)], with the keys collected in the order
    [range_order] in which Go happens to range over the map. *)
Definition ExportEnvFormat_in (range_order : list bytes)
    (store : gmap bytes bytes) : bytes :=
  let keys := sort_Strings range_order in
  flat_map (env_line store) keys.

Definition ExportEnvFormat (store : gmap bytes bytes) : bytes :=
  ExportEnvFormat_in ((map_to_list store).*1) store.

(** ** The parser in the words of the specification *)

(** All the lines of a text: the pieces between newlines, with no line
    after a final newline; then each without a terminal carriage return. *)
Fixpoint raw_lines_from (cur : bytes) (data : bytes) : list bytes :=
  match data with
  | [] => match cur with [] => [] | _ => [reverse cur] end
  | c :: rest =>
      if Ascii.eqb c LF then reverse cur :: raw_lines_from [] rest
      else raw_lines_from (c :: cur) rest
  end.

Definition raw_lines (data : bytes) : list bytes := raw_lines_from [] data.

Definition text_lines (data : bytes) : list bytes := map dropCR (raw_lines data).

(** Split on the first ['=']. *)
Fixpoint split_first_eq (s : bytes) : option (bytes * bytes) :=
  match s with
  | [] => None
  | c :: rest =>
      if Ascii.eqb c "="%char then Some ([], rest)
      else match split_first_eq rest with
           | Some (k, v) => Some (c :: k, v)
           | None => None
           end
  end.

Definition is_quote (c : ascii) : bool :=
  Ascii.eqb c DQUOTE || Ascii.eqb c SQUOTE.

(** One pair of matched outer quotes removed. *)
Definition strip_quotes (v : bytes) : bytes :=
  match v with
  | q :: inner =>
      match reverse inner with
      | q' :: middle => if is_quote q && Ascii.eqb q q' then reverse middle else v
      | [] => v
      end
  | [] => v
  end.

(** The pair that a line contributes: none for blank and ['#']-prefixed
    lines, lines without ['='] and lines with an empty key. *)
Definition spec_env_entry (text : bytes) : option (bytes * bytes) :=
  let line := TrimSpace text in
  match line with
  | [] => None
  | c :: _ =>
      if Ascii.eqb c "#"%char then None
      else match split_first_eq line with
           | None => None
           | Some (k, v) =>
               match TrimSpace k with
               | [] => None
               | key => Some (key, strip_quotes (TrimSpace v))
               end
           end
  end.

Definition spec_env_add (env : gmap bytes bytes) (text : bytes) : gmap bytes bytes :=
  match spec_env_entry text with
  | Some (k, v) => <[k := v]> env
  | None => env
  end.

(** The parser over every line of the input. *)
Definition spec_parse_env (data : bytes) : gmap bytes bytes :=
  fold_left spec_env_add (text_lines data) ∅.

(** White space at the start of a string, at its end, and anywhere. *)
Definition leading_space (s : bytes) : bool :=
  match s with
  | [] => false
  | c1 :: r1 =>
      is_space1 c1
      || match r1 with
         | [] => false
         | c2 :: r2 =>
             is_space2 c1 c2
             || match r2 with
                | [] => false
                | c3 :: _ => is_space3 c1 c2 c3
                end
         end
  end.

Definition rev_trailing_space (r : bytes) : bool :=
  match r with
  | [] => false
  | c1 :: r1 =>
      is_space1 c1
      || match r1 with
         | [] => false
         | c2 :: r2 =>
             is_space2 c2 c1
             || match r2 with
                | [] => false
                | c3 :: _ => is_space3 c3 c2 c1
                end
         end
  end.

Definition trailing_space (s : bytes) : bool := rev_trailing_space (reverse s).

Fixpoint has_space (s : bytes) : bool :=
  match s with
  | [] => false
  | _ :: r => leading_space s || has_space r
  end.

(** Keys and values that the round trip of [ExportEnvFormat] and
    [ParseEnvFile] is stated for. *)
Definition roundtrip_key (k : bytes) : Prop :=
  k <> [] /\ HasPrefix k (bs "#") = false /\ ~ In "="%char k
  /\ ~ In LF k /\ has_space k = false.

Definition roundtrip_value (v : bytes) : Prop :=
  ~ In LF v /\ leading_space v = false /\ trailing_space v = false
  /\ unquoteEnvValue v = v.

Definition roundtrip_map (m : gmap bytes bytes) : Prop :=
  forall k v, m !! k = Some v -> roundtrip_key k /\ roundtrip_value v.

(** Every line [k=v] fits the scanner's buffer together with its newline. *)
Definition lines_fit (m : gmap bytes bytes) : Prop :=
  forall k v, m !! k = Some v ->
    (Z.of_nat (length k + 1 + length v) < MaxScanTokenSize)%Z.

(** Every line, up to its newline, is shorter than the scanner's buffer. *)
Definition short_lines (data : bytes) : Prop :=
  Forall (fun l => (Z.of_nat (length l) < MaxScanTokenSize)%Z) (raw_lines data).

Definition short_linesb (data : bytes) : bool :=
  forallb (fun l => (Z.of_nat (length l) <? MaxScanTokenSize)%Z) (raw_lines data).

(** The parser as worded in the specification, for every input: each
    [KEY=VALUE] line of the input is accepted. *)
Definition parses_every_line (data : bytes) : Prop :=
  ParseEnvFile data = spec_parse_env data.

(** A serialized line without its newline. *)
Definition env_line_text (store : gmap bytes bytes) (k : bytes) : bytes :=
  k ++ "="%char :: map_index store k.

(** The round trip without a bound on the length of the lines. *)
Definition env_roundtrip_holds (m : gmap bytes bytes) : Prop :=
  roundtrip_map m -> ParseEnvFile (ExportEnvFormat m) = m.

(* ===================================================================== *)
(** * The secret vault *)
(* ===================================================================== *)

Definition saltLen : nat := 32.
Definition verifyKey : bytes := bs "__vault_verify__".
Definition verifyValue : bytes := bs "exitbox-vault-v1".

(** The files of a Badger database: the encryption key it was created
    with and the pairs written to it. *)
Record BadgerDB := {
  db_key : bytes;
  db_entries : gmap bytes bytes }.

(** The [db] directory of a vault: complete database files, or a directory
    that a failed [badger.Open] left behind. *)
Inductive DbDir :=
| DbPartial
| DbFiles (db : BadgerDB).

(** The vault directory of a workspace: the [salt] file and the [db]
    directory, each present or not. *)
Record VaultDir := {
  salt_file : option bytes;
  db_dir : option DbDir }.

Definition empty_dir : VaultDir := {| salt_file := None; db_dir := None |}.

(** The vault directories by workspace name; a workspace without a vault
    directory has no entry. *)
Abbreviation Disk := (gmap bytes VaultDir).

(** The checks that Badger ([github.com/dgraph-io/badger/v4], [txn.go])
    makes on a key and a value before it reads or writes them:
    [txn.Get] refuses the empty key, and [txn.Set] and
    [txn.Delete] refuse the empty key, a key with Badger's own prefix, a
    key of more than [maxKeySize] bytes and a value of more than
    [ValueLogFileSize] bytes. *)
Inductive BadgerError :=
| ErrEmptyKey            (* Key cannot be empty *)
| ErrInvalidKey          (* Key is using a reserved !badger! prefix *)
| ErrKeyTooLarge         (* Key with size n exceeded 65000 limit *)
| ErrValueTooLarge.      (* Value with size n exceeded 1073741823 limit *)

Definition maxKeySize : Z := 65000.
Definition badgerPrefix : bytes := bs "!badger!".
(** [DefaultOptions]: [ValueLogFileSize: 1<<30 - 1]. *)
Definition ValueLogFileSize : Z := Z.shiftl 1 30 - 1.

(** The error of [txn.Set(key, value)] before anything is written. *)
Definition modify_error (key value : bytes) : option BadgerError :=
  if bytes_eqb key [] then Some ErrEmptyKey
  else if HasPrefix key badgerPrefix then Some ErrInvalidKey
  else if (maxKeySize <? Z.of_nat (length key))%Z then Some ErrKeyTooLarge
  else if (ValueLogFileSize <? Z.of_nat (length value))%Z then Some ErrValueTooLarge
  else None.

Inductive VaultError :=
| ErrCreateDir           (* creating vault directory *)
| ErrVaultExists         (* vault already exists for workspace *)
| ErrGenerateSalt        (* generating salt *)
| ErrWriteSalt           (* writing salt *)
| ErrCreateDB            (* creating database *)
| ErrWriteVerify         (* writing verification entry *)
| ErrClose               (* closing the database *)
| ErrReadSalt            (* reading salt (vault not initialized?) *)
| ErrCorruptSalt         (* corrupted salt file *)
| ErrOpenDB              (* opening database *)
| ErrWrongPasswordOrCorrupt
| ErrKeyNotFound (key : bytes)
| ErrBadger (e : BadgerError)  (* an error of Badger, passed on as it is *)
| ErrTxn.                (* a Badger transaction failed *)

(** What [badger.Open] does with a directory that holds no database. *)
Inductive CreateOutcome :=
| CreateOk
| CreateFail (leaves_dir : bool).

(** The outcomes of the system calls of [Init]. *)
Record InitEnv := {
  mkdir_ok : bool;                (* os.MkdirAll *)
  random_salt : option bytes;     (* rand.Read into saltLen bytes *)
  write_salt_ok : bool;           (* os.WriteFile *)
  create_db : CreateOutcome;      (* badger.Open on a new directory *)
  verify_write_ok : bool;         (* db.Update *)
  close_ok : bool }.              (* db.Close *)

(** An open store: the workspace whose database it holds and the key the
    database was opened with. *)
Record Store := {
  st_workspace : bytes;
  st_key : bytes }.

Section Vault.
(** [argon2.IDKey(password, salt, 3, 64*1024, 4, 32)]. *)
Variable deriveKey : bytes -> bytes -> bytes.

(** What a database shows when opened with a key: nothing when
    [badger.Open] fails, else the pairs that can be read. *)
Variable badger_view : bytes -> BadgerDB -> option (gmap bytes bytes).

Definition vault_of (disk : Disk) (workspace : bytes) : VaultDir :=
  default empty_dir (disk !! workspace).

(** [IsInitialized(workspace)]: the salt file exists. *)
Definition IsInitialized (disk : Disk) (workspace : bytes) : bool :=
  bool_decide (is_Some (salt_file (vault_of disk workspace))).

(** [openDB(dir, key)]: the state of the directory afterwards and, on
    success, the view of the opened database. *)
Definition openDB (create : CreateOutcome) (key : bytes) (dir : option DbDir)
    : option DbDir * option (gmap bytes bytes) :=
  match dir with
  | Some (DbFiles d) => (dir, badger_view key d)
  | _ =>
      match create with
      | CreateOk => (Some (DbFiles {| db_key := key; db_entries := ∅ |}), Some ∅)
      | CreateFail leaves => ((if leaves then Some DbPartial else dir), None)
      end
  end.

(** A transaction that sets [k] to [v] in the database files. *)
Definition db_set (k v : bytes) (dir : option DbDir) : option DbDir :=
  match dir with
  | Some (DbFiles d) =>
      Some (DbFiles {| db_key := db_key d; db_entries := <[k := v]> (db_entries d) |})
  | _ => dir
  end.

(** [Init(workspace, password)]. *)
Definition Init (disk : Disk) (env : InitEnv) (workspace password : bytes)
    : Disk * option VaultError :=
  if negb (mkdir_ok env) then (disk, Some ErrCreateDir)
  else
    let dir := vault_of disk workspace in
    let disk := <[workspace := dir]> disk in
    match salt_file dir with
    | Some _ => (disk, Some ErrVaultExists)
    | None =>
        match random_salt env with
        | None => (disk, Some ErrGenerateSalt)
        | Some salt =>
            if negb (write_salt_ok env) then (disk, Some ErrWriteSalt)
            else
              let key := deriveKey password salt in
              match openDB (create_db env) key (db_dir dir) with
              | (db, None) =>
                  (* os.Remove(saltPath) *)
                  (<[workspace := {| salt_file := None; db_dir := db |}]> disk,
                   Some ErrCreateDB)
              | (db, Some _) =>
                  if verify_write_ok env then
                    (<[workspace := {| salt_file := Some salt;
                                       db_dir := db_set verifyKey verifyValue db |}]> disk,
                     if close_ok env then None else Some ErrClose)
                  else
                    (* db.Close(); os.RemoveAll(db); os.Remove(saltPath) *)
                    (<[workspace := {| salt_file := None; db_dir := None |}]> disk,
                     Some ErrWriteVerify)
              end
        end
    end.

(** [Open(workspace, password)]. *)
Definition Open (disk : Disk) (create : CreateOutcome) (workspace password : bytes)
    : Disk * (VaultError + Store) :=
  match disk !! workspace ≫= salt_file with
  | None => (disk, inl ErrReadSalt)
  | Some salt =>
      if negb (length salt =? saltLen)%nat then (disk, inl ErrCorruptSalt)
      else
        let dir := vault_of disk workspace in
        let key := deriveKey password salt in
        match openDB create key (db_dir dir) with
        | (db, None) =>
            (<[workspace := {| salt_file := Some salt; db_dir := db |}]> disk,
             inl ErrOpenDB)
        | (db, Some view) =>
            let disk := <[workspace := {| salt_file := Some salt; db_dir := db |}]> disk in
            let verified := bool_decide (view !! verifyKey = Some verifyValue) in
            if verified
            then (disk, inr {| st_workspace := workspace; st_key := key |})
            else (disk, inl ErrWrongPasswordOrCorrupt)
        end
  end.

(** The view that an open store has of its database. *)
Definition store_view (disk : Disk) (s : Store) : option (gmap bytes bytes) :=
  match db_dir (vault_of disk (st_workspace s)) with
  | Some (DbFiles d) => badger_view (st_key s) d
  | _ => None
  end.

(** [Store.Get(key)]: [txn.Get] refuses the empty key with
    [ErrEmptyKey], which [Get] passes on; a key that is not there is
    [ErrKeyNotFound], which [Get] words anew. *)
Definition Get (disk : Disk) (s : Store) (key : bytes) : VaultError + bytes :=
  if bytes_eqb key [] then inl (ErrBadger ErrEmptyKey)
  else
    match store_view disk s with
    | None => inl ErrTxn
    | Some view =>
        match view !! key with
        | Some v => inr v
        | None => inl (ErrKeyNotFound key)
        end
    end.

(** [Store.Set(key, value)]: [txn.Set] refuses the pair with the error
    of [modify_error], which [db.Update] and [Set] pass on and nothing is
    written; [txn_ok] is the outcome of the transaction of a pair that
    is not refused. *)
Definition Set_ (disk : Disk) (s : Store) (txn_ok : bool) (key value : bytes)
    : Disk * option VaultError :=
  match modify_error key value with
  | Some e => (disk, Some (ErrBadger e))
  | None =>
      if txn_ok then
        let dir := vault_of disk (st_workspace s) in
        (<[st_workspace s := {| salt_file := salt_file dir;
                                db_dir := db_set key value (db_dir dir) |}]> disk, None)
      else (disk, Some ErrTxn)
  end.

(** [Store.Close()]: the files stay as they are. *)
Definition Close (disk : Disk) (s : Store) : Disk := disk.
End Vault.



(** The vault directory after a successful [Init]: the salt and a
    database created with [key] holding [entries]. *)
Definition vault_files (salt key : bytes) (entries : gmap bytes bytes) : VaultDir :=
  {| salt_file := Some salt;
     db_dir := Some (DbFiles {| db_key := key; db_entries := entries |}) |}.

(* ===================================================================== *)
(** * The vault: the other operations of a store *)
(* ===================================================================== *)

(** The keys that [List] and [All] skip:
    [strings.HasPrefix(k, "__") && strings.HasSuffix(k, "__")]. *)
Definition internal_key (k : bytes) : bool :=
  HasPrefix k (bs "__") && HasSuffix k (bs "__").

(** A transaction that deletes [k] from the database files. *)
Definition db_delete (k : bytes) (dir : option DbDir) : option DbDir :=
  match dir with
  | Some (DbFiles d) =>
      Some (DbFiles {| db_key := db_key d; db_entries := delete k (db_entries d) |})
  | _ => dir
  end.

(** A transaction that sets every pair of [entries]. *)
Definition db_import (entries : gmap bytes bytes) (dir : option DbDir) : option DbDir :=
  match dir with
  | Some (DbFiles d) =>
      Some (DbFiles {| db_key := db_key d; db_entries := entries ∪ db_entries d |})
  | _ => dir
  end.

Definition with_db (disk : Disk) (workspace : bytes) (db : option DbDir) : Disk :=
  <[workspace := {| salt_file := salt_file (vault_of disk workspace); db_dir := db |}]> disk.

(** What [os.RemoveAll] does to the tree below a path: all of it is
    removed, or the call fails and leaves the vault directories [after]. *)
Inductive RemoveOutcome :=
| Removed
| RemoveFailed (after : Disk).

(** The elements of a path between its separators. *)
Fixpoint path_elements_from (cur : bytes) (path : bytes) : list bytes :=
  match path with
  | [] => [reverse cur]
  | c :: rest =>
      if Ascii.eqb c "/" then reverse cur :: path_elements_from [] rest
      else path_elements_from (c :: cur) rest
  end.

Definition path_elements (path : bytes) : list bytes := path_elements_from [] path.

(** One element in [filepath.Clean] of a rooted path, the elements so
    far in reverse: an empty element and [.] are dropped, [..] drops
    the element before it and is itself dropped at the root. *)
Definition clean_step (seen : list bytes) (elem : bytes) : list bytes :=
  if bytes_eqb elem [] || bytes_eqb elem (bs ".") then seen
  else if bytes_eqb elem (bs "..") then tail seen
  else elem :: seen.

(** [vaultDir(workspace)], that is
    [filepath.Join(dataDir(), "vaults", workspace)], as the elements of
    the path; [vaults] are the elements of [dataDir()/vaults], a rooted
    path as [XDG_DATA_HOME] and [HOME] are. *)
Definition vaultDir (vaults : list bytes) (workspace : bytes) : list bytes :=
  reverse (foldl clean_step (reverse vaults) (path_elements workspace)).

(** [p] is [q] or lies below it. *)
Fixpoint path_below (q p : list bytes) : bool :=
  match q, p with
  | [], _ => true
  | _ :: _, [] => false
  | a :: q', b :: p' => bytes_eqb a b && path_below q' p'
  end.

(** A name with a NUL byte names no file. *)
Definition names_no_file (path : list bytes) : bool :=
  existsb (existsb (Ascii.eqb "000"%char)) path.

(** A name of one directory entry: not empty, neither [.] nor [..],
    without a separator and without a NUL byte. *)
Definition entry_name (name : bytes) : bool :=
  negb (bytes_eqb name []) && negb (bytes_eqb name (bs "."))
  && negb (bytes_eqb name (bs ".."))
  && forallb (fun c => negb (Ascii.eqb c "/") && negb (Ascii.eqb c "000"%char)) name.

Section VaultStore.
Variable deriveKey : bytes -> bytes -> bytes.
Variable badger_view : bytes -> BadgerDB -> option (gmap bytes bytes).

(** [Store.Delete(key)]: the key is looked up first, inside the
    transaction, with [txn.Get], whose [ErrEmptyKey] for the empty key is
    passed on; a key that is found is one that [txn.Set] accepted, so
    that the checks of [txn.Delete] pass, and [txn_ok] is the outcome of
    the commit. *)
Definition Delete (disk : Disk) (s : Store) (txn_ok : bool) (key : bytes)
    : Disk * option VaultError :=
  if bytes_eqb key [] then (disk, Some (ErrBadger ErrEmptyKey))
  else
    match store_view badger_view disk s with
    | None => (disk, Some ErrTxn)
    | Some view =>
        match view !! key with
        | None => (disk, Some (ErrKeyNotFound key))
        | Some _ =>
            if txn_ok then
              (with_db disk (st_workspace s)
                 (db_delete key (db_dir (vault_of disk (st_workspace s)))), None)
            else (disk, Some ErrTxn)
        end
    end.

(** [Store.List()]. *)
Definition List_ (disk : Disk) (s : Store) : VaultError + list bytes :=
  match store_view badger_view disk s with
  | None => inl ErrTxn
  | Some view =>
      let keys := List.filter (fun k => negb (internal_key k)) ((map_to_list view).*1) in
      inr (sort_Strings keys)
  end.

(** [Store.All()]. *)
Definition All (disk : Disk) (s : Store) : VaultError + gmap bytes bytes :=
  match store_view badger_view disk s with
  | None => inl ErrTxn
  | Some view => inr (filter (fun kv => internal_key kv.1 = false) view)
  end.

(** [Store.ImportEnvEntries(entries)]: one transaction for all pairs;
    [txn_ok] is its outcome, a failure being also that of a pair that
    [txn.Set] refuses. *)
Definition ImportEnvEntries (disk : Disk) (s : Store) (txn_ok : bool)
    (entries : gmap bytes bytes) : Disk * option VaultError :=
  if txn_ok then
    (with_db disk (st_workspace s)
       (db_import entries (db_dir (vault_of disk (st_workspace s)))), None)
  else (disk, Some ErrTxn).

(** The loop [for k := range existing { s.Delete(k) }] of [ReplaceAll],
    over the keys in the order in which the map is ranged over. *)
Fixpoint delete_each (disk : Disk) (s : Store) (del_ok : bytes -> bool)
    (keys : list bytes) : Disk * option VaultError :=
  match keys with
  | [] => (disk, None)
  | k :: rest =>
      match Delete disk s (del_ok k) k with
      | (disk', None) => delete_each disk' s del_ok rest
      | (disk', Some e) => (disk', Some e)
      end
  end.

(** [ReplaceAll(workspace, password, store)].  [range] gives the order in
    which Go ranges over a map, [del_ok] and [import_ok] the outcomes of
    the transactions. *)
Definition ReplaceAll (range : gmap bytes bytes -> list bytes)
    (disk : Disk) (create : CreateOutcome)
    (del_ok : bytes -> bool) (import_ok : bool)
    (workspace password : bytes) (store : gmap bytes bytes)
    : Disk * option VaultError :=
  match Open deriveKey badger_view disk create workspace password with
  | (disk, inl e) => (disk, Some e)
  | (disk, inr s) =>
      match All disk s with
      | inl e => (disk, Some e)
      | inr existing =>
          match delete_each disk s del_ok (range existing) with
          | (disk, Some e) => (disk, Some e)
          | (disk, None) => ImportEnvEntries disk s import_ok store
          end
      end
  end.

(** [QuickGet], [QuickSet], [QuickDelete], [QuickList]: open, operate,
    close. *)
Definition QuickGet (disk : Disk) (create : CreateOutcome)
    (workspace password key : bytes) : Disk * (VaultError + bytes) :=
  match Open deriveKey badger_view disk create workspace password with
  | (disk, inl e) => (disk, inl e)
  | (disk, inr s) => (Close disk s, Get badger_view disk s key)
  end.

Definition QuickSet (disk : Disk) (create : CreateOutcome) (txn_ok : bool)
    (workspace password key value : bytes) : Disk * option VaultError :=
  match Open deriveKey badger_view disk create workspace password with
  | (disk, inl e) => (disk, Some e)
  | (disk, inr s) => Set_ disk s txn_ok key value
  end.

Definition QuickDelete (disk : Disk) (create : CreateOutcome) (txn_ok : bool)
    (workspace password key : bytes) : Disk * option VaultError :=
  match Open deriveKey badger_view disk create workspace password with
  | (disk, inl e) => (disk, Some e)
  | (disk, inr s) => Delete disk s txn_ok key
  end.

Definition QuickList (disk : Disk) (create : CreateOutcome)
    (workspace password : bytes) : Disk * (VaultError + list bytes) :=
  match Open deriveKey badger_view disk create workspace password with
  | (disk, inl e) => (disk, inl e)
  | (disk, inr s) => (Close disk s, List_ disk s)
  end.

Inductive ImportError :=
| ErrReadSource                 (* reading source file *)
| ErrNoPairs                    (* no key-value pairs found *)
| ErrVault (e : VaultError).

(** [ImportEnvFile(workspace, password, path)]; [file] is the content of
    the file at [path] when it can be read. *)
Definition ImportEnvFile (disk : Disk) (create : CreateOutcome) (txn_ok : bool)
    (workspace password : bytes) (file : option bytes)
    : Disk * option ImportError :=
  match file with
  | None => (disk, Some ErrReadSource)
  | Some data =>
      let parsed := ParseEnvFile data in
      if (size parsed =? 0)%nat then (disk, Some ErrNoPairs)
      else
        match Open deriveKey badger_view disk create workspace password with
        | (disk, inl e) => (disk, Some (ErrVault e))
        | (disk, inr s) =>
            match ImportEnvEntries disk s txn_ok parsed with
            | (disk, None) => (disk, None)
            | (disk, Some e) => (disk, Some (ErrVault e))
            end
        end
  end.

(** The head of the file that [vault edit] opens in the editor. *)
Definition edit_header : bytes :=
  bs "# Edit secrets below (KEY=VALUE format)" ++ [LF]
  ++ bs "# Lines starting with # are ignored" ++ [LF].

Inductive EditError :=
| ErrUnlock (e : VaultError)    (* Failed to unlock vault *)
| ErrReadVault (e : VaultError) (* Failed to read vault *)
| ErrEdited                     (* the editor failed or its file cannot be read *)
| ErrSave (e : VaultError).     (* Failed to save vault *)

(** The command [vault edit] from the password on: the pairs of [All] are
    written below the header, [edited] gives the content of the file after
    the editor ran, and what is parsed from it replaces the pairs of the
    vault.  Every [ui.Errorf] ends the command. *)
Definition vault_edit (range : gmap bytes bytes -> list bytes)
    (disk : Disk) (create : CreateOutcome)
    (del_ok : bytes -> bool) (import_ok : bool)
    (workspace password : bytes) (edited : bytes -> option bytes)
    : Disk * option EditError :=
  match Open deriveKey badger_view disk create workspace password with
  | (disk, inl e) => (disk, Some (ErrUnlock e))
  | (disk, inr s) =>
      let store := All disk s in
      let disk := Close disk s in
      match store with
      | inl e => (disk, Some (ErrReadVault e))
      | inr store =>
          match edited (edit_header ++ ExportEnvFormat store) with
          | None => (disk, Some ErrEdited)
          | Some data =>
              match ReplaceAll range disk create del_ok import_ok workspace password
                      (ParseEnvFile data) with
              | (disk, Some e) => (disk, Some (ErrSave e))
              | (disk, None) => (disk, None)
              end
          end
      end
  end.
End VaultStore.

(** [Destroy(workspace)]: [os.RemoveAll(vaultDir(workspace))], with
    whether it returns [nil].  The path need not be the directory of one
    vault: every vault directory at or below it goes.  A path with a NUL
    byte is refused by the system calls and nothing is removed.  A path
    inside a vault directory, such as its [salt] file, is not covered:
    the result is [None]. *)
Definition Destroy (vaults : list bytes) (disk : Disk) (outcome : RemoveOutcome)
    (workspace : bytes) : option (Disk * bool) :=
  let target := vaultDir vaults workspace in
  let inside (w : bytes) :=
    path_below (vaultDir vaults w) target
    && negb (path_below target (vaultDir vaults w)) in
  if names_no_file target then
    Some (disk, match outcome with Removed => true | RemoveFailed _ => false end)
  else if existsb inside ((map_to_list disk).*1) then None
  else
    match outcome with
    | Removed =>
        Some (filter (fun wd : bytes * VaultDir =>
                        path_below target (vaultDir vaults wd.1) = false) disk,
              true)
    | RemoveFailed after => Some (after, false)
    end.

(** The open store [s] reads and writes the database of its workspace,
    which was created with the store's key and holds [entries], beside
    the salt file [salt]. *)
Definition store_holds (disk : Disk) (s : Store) (salt : bytes)
    (entries : gmap bytes bytes) : Prop :=
  disk !! st_workspace s = Some (vault_files salt (st_key s) entries).

(** The pairs of a database that [List] and [All] show. *)
Definition user_pairs (entries : gmap bytes bytes) : gmap bytes bytes :=
  filter (fun kv : bytes * bytes => internal_key kv.1 = false) entries.

(** [Get] on a database that holds [entries]. *)
Definition get_result (entries : gmap bytes bytes) (k : bytes) : VaultError + bytes :=
  if bytes_eqb k [] then inl (ErrBadger ErrEmptyKey)
  else
    match entries !! k with
    | Some v => inr v
    | None => inl (ErrKeyNotFound k)
    end.


(* ===================================================================== *)
(** * Sessions: listing and removal *)
(* ===================================================================== *)

Inductive SessionsError :=
| ErrReadSessionsDir            (* read sessions dir *)
| ErrEmptySessionName           (* session name cannot be empty *)
| ErrRemoveSession (name : bytes).

(** The loop of [ListNames]: [seen] is the Go map of the names met so far,
    [out] the slice of names. *)
Fixpoint list_names_loop (entries : list DirEntry) (seen : gset bytes)
    (out : list bytes) : list bytes :=
  match entries with
  | [] => out
  | e :: rest =>
      if negb (IsDir e) then list_names_loop rest seen out
      else
        match NameFile e with
        | None => list_names_loop rest seen out
        | Some raw =>
            let name := TrimSpace raw in
            if bytes_eqb name [] then list_names_loop rest seen out
            else if bool_decide (name ∈ seen) then list_names_loop rest seen out
            else list_names_loop rest ({[name]} ∪ seen) (out ++ [name])
        end
  end.

(** [ListNames(workspaceName, agentName, projectDir)], with the sessions
    directory given by its [ReadDir] outcome. *)
Definition ListNames (dir : ReadDirResult) : list bytes * option SessionsError :=
  match dir with
  | DirNotExist => ([], None)
  | DirReadError => ([], Some ErrReadSessionsDir)
  | DirEntries entries => (sort_Strings (list_names_loop entries ∅ []), None)
  end.

(** The files that [RemoveByName] works on: the sessions directory and the
    content of [.active-session] when it can be read. *)
Record SessionFiles := {
  sessions_dir : ReadDirResult;
  active_session : option bytes }.

(** The loop of [RemoveByName] over the entries read at its start:
    [rm_ok] tells for a directory whether [os.RemoveAll] succeeds.  The
    result is the directory afterwards, [removed] and the error.  A failed
    [os.RemoveAll] is taken to leave its directory in place. *)
Fixpoint remove_loop (sessionName : bytes) (rm_ok : bytes -> bool)
    (entries : list DirEntry) (removed : bool)
    : list DirEntry * (bool * option SessionsError) :=
  match entries with
  | [] => ([], (removed, None))
  | e :: rest =>
      let skip :=
        let '(kept, r) := remove_loop sessionName rm_ok rest removed in
        (e :: kept, r) in
      if negb (IsDir e) then skip
      else
        match NameFile e with
        | None => skip
        | Some raw =>
            if negb (bytes_eqb (TrimSpace raw) sessionName) then skip
            else if rm_ok (EntryName e)
            then remove_loop sessionName rm_ok rest true
            else (e :: rest, (false, Some (ErrRemoveSession sessionName)))
        end
  end.

(** [RemoveByName(workspaceName, agentName, projectDir, sessionName)];
    [rm_active_ok] is the outcome of [os.Remove(activeFile)], whose error
    the code drops. *)
Definition RemoveByName (files : SessionFiles) (rm_ok : bytes -> bool)
    (rm_active_ok : bool) (sessionName : bytes)
    : SessionFiles * (bool * option SessionsError) :=
  let sessionName := TrimSpace sessionName in
  if bytes_eqb sessionName [] then (files, (false, Some ErrEmptySessionName))
  else
    match sessions_dir files with
    | DirNotExist => (files, (false, None))
    | DirReadError => (files, (false, Some ErrReadSessionsDir))
    | DirEntries entries =>
        match remove_loop sessionName rm_ok entries false with
        | (kept, (_, Some e)) =>
            ({| sessions_dir := DirEntries kept;
                active_session := active_session files |}, (false, Some e))
        | (kept, (removed, None)) =>
            let active :=
              if removed then
                match active_session files with
                | Some raw =>
                    if bytes_eqb (TrimSpace raw) sessionName && rm_active_ok
                    then None else Some raw
                | None => None
                end
              else active_session files in
            ({| sessions_dir := DirEntries kept; active_session := active |},
             (removed, None))
        end
    end.

(** ** Shell completion and the arguments of a run *)

(** The loops of [completeSessionNamesForProject] once the working
    directory is known and the workspace is resolved (the function gives
    no candidate otherwise): [dirs] are the sessions directories of the
    agents, in order. *)
Fixpoint complete_names_loop (toComplete : bytes) (names : list bytes)
    (seen : gset bytes) (out : list bytes) : gset bytes * list bytes :=
  match names with
  | [] => (seen, out)
  | name :: rest =>
      if negb (HasPrefix name toComplete) then complete_names_loop toComplete rest seen out
      else if bool_decide (name ∈ seen) then complete_names_loop toComplete rest seen out
      else complete_names_loop toComplete rest ({[name]} ∪ seen) (out ++ [name])
  end.

Fixpoint complete_agents_loop (toComplete : bytes) (dirs : list ReadDirResult)
    (seen : gset bytes) (out : list bytes) : list bytes :=
  match dirs with
  | [] => out
  | dir :: rest =>
      match ListNames dir with
      | (_, Some _) => complete_agents_loop toComplete rest seen out
      | (names, None) =>
          let '(seen', out') := complete_names_loop toComplete names seen out in
          complete_agents_loop toComplete rest seen' out'
      end
  end.

Definition completeSessionNames (dirs : list ReadDirResult) (toComplete : bytes)
    : list bytes :=
  sort_Strings (complete_agents_loop toComplete dirs ∅ []).

(** [parseWorkspaceOverrideFromRunArgs(args)]: the loop with its variable
    [workspace].  After [-w] or [--workspace] the next argument, if there
    is one, is taken as the value and skipped. *)
Definition workspace_flag (arg : bytes) : bool :=
  bytes_eqb arg (bs "-w") || bytes_eqb arg (bs "--workspace").

Fixpoint parse_workspace_loop (args : list bytes) (workspace : bytes) : bytes :=
  match args with
  | [] => workspace
  | arg :: rest =>
      if workspace_flag arg then
        match rest with
        | value :: rest' => parse_workspace_loop rest' value
        | [] => workspace
        end
      else if HasPrefix arg (bs "--workspace=")
      then parse_workspace_loop rest (skipn (length (bs "--workspace=")) arg)
      else parse_workspace_loop rest workspace
  end.

Definition parseWorkspaceOverrideFromRunArgs (args : list bytes) : bytes :=
  parse_workspace_loop args [].

(** An argument that does not touch the workspace. *)
Definition plain_arg (arg : bytes) : bool :=
  negb (workspace_flag arg) && negb (HasPrefix arg (bs "--workspace=")).

(** The arguments end in a [-w] or [--workspace] that still waits for its
    value. *)
Fixpoint dangling_flag (args : list bytes) : bool :=
  match args with
  | [] => false
  | arg :: rest =>
      if workspace_flag arg then
        match rest with
        | _ :: rest' => dangling_flag rest'
        | [] => true
        end
      else dangling_flag rest
  end.

(** The directory entry is a session directory whose trimmed [.name] is
    [name]. *)
Definition entry_named (name : bytes) (e : DirEntry) : bool :=
  IsDir e &&
  match NameFile e with
  | Some raw => bytes_eqb (TrimSpace raw) name
  | None => false
  end.

(** The first component of the result of [ListNames]. *)
Definition listed_names (dir : ReadDirResult) : list bytes := (ListNames dir).1.

(* ===================================================================== *)
(** * Configuration: migration of the user tools *)
(* ===================================================================== *)

(** [packageReplacements]: deprecated Alpine packages and what replaces
    them; the empty string means that the package is dropped. *)
Definition packageReplacements : gmap bytes bytes :=
  list_to_map [ (bs "terraform", bs "opentofu");
                (bs "ansible", []);
                (bs "docker", bs "docker-cli");
                (bs "node", bs "nodejs") ].

(** The loop of [migrateTools]; [seen] is the Go map [seen]. *)
Fixpoint migrate_loop (pkgs : list bytes) (seen : gset bytes) (migrated : list bytes)
    : list bytes :=
  match pkgs with
  | [] => migrated
  | pkg :: rest =>
      match packageReplacements !! pkg with
      | Some replacement =>
          if negb (bytes_eqb replacement []) && negb (bool_decide (replacement ∈ seen))
          then migrate_loop rest ({[replacement]} ∪ seen) (migrated ++ [replacement])
          else migrate_loop rest seen migrated
      | None =>
          if negb (bool_decide (pkg ∈ seen))
          then migrate_loop rest ({[pkg]} ∪ seen) (migrated ++ [pkg])
          else migrate_loop rest seen migrated
      end
  end.

(** [migrateTools(cfg)]: [cfg.Tools.User] is replaced by the migrated
    list. *)
Definition migrateTools (cfg : Config) : Config :=
  with_tools cfg (migrate_loop (ToolsUser cfg) ∅ []).

(** What one entry of the user tools turns into. *)
Definition migrated_package (pkg : bytes) : list bytes :=
  match packageReplacements !! pkg with
  | Some replacement => if bytes_eqb replacement [] then [] else [replacement]
  | None => [pkg]
  end.

(** What every pair of a parsed [.env] file satisfies. *)
Definition parsed_pair (k v : bytes) : Prop :=
  k <> [] /\ TrimSpace k = k /\ ~ In "="%char k /\ ~ In LF k
  /\ head k <> Some "#"%char /\ ~ In LF v.

(* ===================================================================== *)
(** * Development profiles: the Alpine packages of the project image *)
(* ===================================================================== *)

(** [strings.Fields(s)]: the maximal runs of bytes between white space
    runes ([unicode.IsSpace], recognised as in [TrimSpace]).  [cur] holds
    the bytes of the field under way, last byte first.  A byte that starts
    no white space rune goes to the field; the bytes that follow the first
    byte of a longer rune are continuation bytes, which start no white
    space rune either, so going byte by byte here gives Go's fields. *)
Definition flush_field (cur : bytes) (fields : list bytes) : list bytes :=
  match cur with
  | [] => fields
  | _ :: _ => reverse cur :: fields
  end.

Fixpoint Fields_from (cur : bytes) (s : bytes) : list bytes :=
  match s with
  | [] => flush_field cur []
  | c1 :: r1 =>
      if is_space1 c1 then flush_field cur (Fields_from [] r1)
      else
        match r1 with
        | [] => Fields_from (c1 :: cur) r1
        | c2 :: r2 =>
            if is_space2 c1 c2 then flush_field cur (Fields_from [] r2)
            else
              match r2 with
              | [] => Fields_from (c1 :: cur) r1
              | c3 :: r3 =>
                  if is_space3 c1 c2 c3 then flush_field cur (Fields_from [] r3)
                  else Fields_from (c1 :: cur) r1
              end
        end
  end.

Definition Fields (s : bytes) : list bytes := Fields_from [] s.

(** A field: not empty and free of white space. *)
Definition field_ok (f : bytes) : Prop := f <> [] /\ has_space f = false.

(** Every non-empty end of the field under way, followed by the rest of
    the input, starts with no white space rune. *)
Definition field_under_way (cur s : bytes) : Prop :=
  forall u v, reverse cur = u ++ v -> v <> [] -> leading_space (v ++ s) = false.

Section Profiles.
(** [profile.Get(name)]: the catalogue of profiles is declared outside the
    sources at hand; it gives the [Packages] string of a known profile. *)
Variable catalogue : bytes -> option bytes.

(** [Packages(name)]. *)
Definition ProfilePackages (name : bytes) : bytes :=
  if bytes_eqb name (bs "node") || bytes_eqb name (bs "javascript")
  then bs "nodejs npm"
  else default [] (catalogue name).

(** The inner loop of [CollectPackages] over the fields of one profile. *)
Fixpoint collect_fields (fields : list bytes) (seen : gset bytes) (pkgs : list bytes)
    : gset bytes * list bytes :=
  match fields with
  | [] => (seen, pkgs)
  | pkg :: rest =>
      if bool_decide (pkg ∈ seen) then collect_fields rest seen pkgs
      else collect_fields rest ({[pkg]} ∪ seen) (pkgs ++ [pkg])
  end.

Fixpoint collect_profiles (profiles : list bytes) (seen : gset bytes) (pkgs : list bytes)
    : list bytes :=
  match profiles with
  | [] => pkgs
  | name :: rest =>
      let raw := ProfilePackages name in
      if bytes_eqb raw [] then collect_profiles rest seen pkgs
      else
        let '(seen', pkgs') := collect_fields (Fields raw) seen pkgs in
        collect_profiles rest seen' pkgs'
  end.

(** [CollectPackages(profiles)]. *)
Definition CollectPackages (profiles : list bytes) : list bytes :=
  collect_profiles profiles ∅ [].

(** The packages of the single [apk add] of [BuildProject]:
    [dedup(workspace packages ++ profile packages ++ session tools)]. *)
Definition project_packages (SessionTools : list bytes)
    (active : option ActiveWorkspace) : list bytes :=
  let developmentProfiles :=
    match active with Some a => Development (AWorkspace a) | None => [] end in
  let allPkgs :=
    match active with Some a => Packages (AWorkspace a) | None => [] end in
  let allPkgs := allPkgs ++ CollectPackages developmentProfiles in
  let allPkgs := allPkgs ++ SessionTools in
  dedup allPkgs.

(** The [RUN ... apk add] instruction of the build specification, absent
    when there is no package.  [BuildProject] gets this far only when
    every development profile is known to [profile.Exists]. *)
Definition apk_add_line (SessionTools : list bytes)
    (active : option ActiveWorkspace) : bytes :=
  match project_packages SessionTools active with
  | [] => []
  | allPkgs =>
      bs "RUN --mount=type=cache,target=/var/cache/apk apk add --no-cache "
      ++ Join allPkgs (bs " ") ++ [LF; LF]
  end.
End Profiles.

(* ===================================================================== *)
(** * The setup wizard: wrapping a list of words *)
(* ===================================================================== *)

(** The loop of [wrapWords]: [lineLen] and [b] are the variables of the
    Go code, [b] the content of the string builder. *)
Fixpoint wrap_loop (indent : bytes) (maxWidth : Z) (words : list bytes)
    (lineLen : Z) (b : bytes) : bytes :=
  match words with
  | [] => b
  | w :: rest =>
      let indentLen := Z.of_nat (length indent) in
      let seg := match rest with [] => w | _ :: _ => w ++ bs "," end in
      let needed :=
        (Z.of_nat (length seg) + (if lineLen >? indentLen then 1 else 0))%Z in
      let wrap := ((lineLen + needed >? maxWidth) && (lineLen >? indentLen))%Z in
      let b := if wrap then b ++ [LF] ++ indent else b in
      let lineLen := if wrap then indentLen else lineLen in
      let sep := (lineLen >? indentLen)%Z in
      let b := if sep then b ++ bs " " else b in
      let lineLen := if sep then (lineLen + 1)%Z else lineLen in
      wrap_loop indent maxWidth rest (lineLen + Z.of_nat (length seg))%Z (b ++ seg)
  end.

(** [wrapWords(words, indent, maxWidth)]. *)
Definition wrapWords (words : list bytes) (indent : bytes) (maxWidth : Z) : bytes :=
  let maxWidth := if (maxWidth <=? 0)%Z then 80%Z else maxWidth in
  match words with
  | [] => []
  | _ :: _ => wrap_loop indent maxWidth words (Z.of_nat (length indent)) indent
  end.

(** The words as they are written: each but the last followed by a comma. *)
Fixpoint segments (words : list bytes) : list bytes :=
  match words with
  | [] => []
  | w :: rest =>
      match rest with
      | [] => [w]
      | _ :: _ => (w ++ bs ",") :: segments rest
      end
  end.

(** A line of the wrapped text, and the text of a list of lines. *)
Definition wrapped_line (indent : bytes) (segs : list bytes) : bytes :=
  indent ++ Join segs (bs " ").

Definition wrapped_text (indent : bytes) (lines : list (list bytes)) : bytes :=
  Join (map (wrapped_line indent) lines) [LF].

(** A line [g] is followed by a line [g'] only when the first segment of
    [g'] no longer fitted on [g]. *)
Definition break_needed (indent : bytes) (maxWidth : Z) (g g' : list bytes) : Prop :=
  exists seg, head g' = Some seg
    /\ (maxWidth < Z.of_nat (length (wrapped_line indent g)) + 1 + Z.of_nat (length seg))%Z.

Definition greedy_breaks (indent : bytes) (maxWidth : Z) (lines : list (list bytes))
    : Prop :=
  forall i g g', lines !! i = Some g -> lines !! S i = Some g' ->
    break_needed indent maxWidth g g'.

(** A line of two or more segments is no wider than [maxWidth]. *)
Definition line_fits (indent : bytes) (maxWidth : Z) (g : list bytes) : Prop :=
  (2 <= length g)%nat -> (Z.of_nat (length (wrapped_line indent g)) <= maxWidth)%Z.

(** The fields of a resolved workspace and the session tools hold no
    comma, the separator of the hashed text. *)
Definition comma_free (s : bytes) : Prop := ~ In ","%char s.

Definition comma_free_fields (st : list bytes) (a : ActiveWorkspace) : Prop :=
  comma_free (Scope a) /\ comma_free (Name (AWorkspace a))
  /\ Forall comma_free (Development (AWorkspace a))
  /\ Forall comma_free (Packages (AWorkspace a))
  /\ Forall comma_free st.
(* ===================================================================== *)
(** * Concrete inputs used below *)
(* ===================================================================== *)

(** The configuration of [TestResolveActiveWorkspace_Override]. *)
Definition ws_named (n : string) (dev : list bytes) : Workspace :=
  {| Name := bs n; WScope := ScopeGlobal; Directory := None;
     Development := dev; Packages := []; VaultEnabled := false |}.

Definition cfg_override_test : Config :=
  {| WorkspacesActive := bs "personal";
     WorkspacesItems := [ws_named "personal" [bs "python"]; ws_named "work" [bs "go"]];
     DefaultWorkspace := [];
     ToolsUser := [] |}.

Definition cfg_first_fallback_test : Config :=
  {| WorkspacesActive := [];
     WorkspacesItems := [ws_named "first" []; ws_named "second" []];
     DefaultWorkspace := [];
     ToolsUser := [] |}.


(** Scenario 1 of the specification: workspace
    [{scope: global, name: w, development: [go], packages: pkgs}]. *)
Definition scenario_workspace (pkgs : list bytes) : Workspace :=
  {| Name := bs "w"; WScope := ScopeGlobal; Directory := None;
     Development := [bs "go"]; Packages := pkgs; VaultEnabled := false |}.

Definition scenario_config (active default : bytes) (tools pkgs : list bytes) : Config :=
  {| WorkspacesActive := active;
     WorkspacesItems := [scenario_workspace pkgs];
     DefaultWorkspace := default;
     ToolsUser := tools |}.

(** What the specification says of a function [H] that hashes a
    configuration, a project directory and an override name: the user
    tools of the configuration do not enter the hash, and the two
    configurations of scenario 1 get different hashes. *)
Definition hash_excludes_user_tools (H : Config -> bytes -> bytes -> bytes) : Prop :=
  forall cfg dir ov tools, H (with_tools cfg tools) dir ov = H cfg dir ov.

Definition hash_tells_packages_apart (H : Config -> bytes -> bytes -> bytes) : Prop :=
  forall active default tools dir,
    H (scenario_config active default tools []) dir []
    <> H (scenario_config active default tools [bs "jq"]) dir [].

(** A runtime in which the project image exists and carries a timestamp
    while the inspection of the parent image yields nothing. *)
Definition rt_parent_unreadable : Runtime :=
  {| ImageExists := fun _ => true;
     ImageInspect := fun image _ =>
       if bytes_eqb image (bs "exitbox-claude-project")
       then bs "2026-02-11T12:00:00Z" else [] |}.

Definition fixed_image_name (agentName projectDir wh : bytes) : bytes :=
  bs "exitbox-" ++ agentName ++ bs "-project".

(** The stores of [TestResolveSelector_ByUniqueIDPrefix] and
    [TestResolveSelector_AmbiguousIDPrefix]. *)
Definition session_dir (id name : string) : DirEntry :=
  {| EntryName := bs id; IsDir := true;
     NameFile := Some (bs name ++ bs (String "010"%char EmptyString)) |}.

Definition store_unique : list DirEntry :=
  [session_dir "id_abc123" "session-a"; session_dir "id_def456" "session-b"].

Definition store_ambiguous : list DirEntry :=
  [session_dir "id_abc123" "session-a"; session_dir "id_abc999" "session-b"].

Definition store_single : list DirEntry := [session_dir "id_abc123" "session-a"].

Definition unlines (ls : list bytes) : bytes := flat_map (fun l => l ++ [LF]) ls.

(** The inputs of the [TestParseEnvFile_*] tests, in one file. *)
Definition env_sample : bytes :=
  unlines [ bs "# comment"; []; bs "  KEY = value  "; bs "KEY2=";
            bs "Q1='quoted value'"; bs "Q2=" ++ DQUOTE :: bs "quoted value" ++ [DQUOTE];
            bs "E=value=with=equals"; bs "=nokey"; bs "noequals" ].

(** A comment line of [MaxScanTokenSize] bytes followed by a pair. *)
Definition long_env : bytes :=
  ("#"%char :: repeat "x"%char (Z.to_nat 65535)) ++ [LF] ++ bs "K=V" ++ [LF].

(** The map of [TestExportEnvFormat]. *)
Definition env_map_sample : gmap bytes bytes :=
  <[bs "BETA" := bs "b"]> (<[bs "ALPHA" := bs "a"]> ∅).

(** One secret of 65535 bytes: its line [K=...] has 65537. *)
Definition env_map_long : gmap bytes bytes :=
  <[bs "K" := "a"%char :: repeat "a"%char (Z.to_nat 65534)]> ∅.

(** A stand-in for the key derivation and for Badger's authenticated
    encryption, to run the vault on concrete inputs: the key is the
    password followed by the salt, and a database opens only with the key
    it was created with. *)
Definition toy_deriveKey (password salt : bytes) : bytes := password ++ salt.

Definition toy_view (key : bytes) (d : BadgerDB) : option (gmap bytes bytes) :=
  if bytes_eqb key (db_key d) then Some (db_entries d) else None.

Definition salt0 : bytes := repeat "s"%char 32.

Definition env_ok : InitEnv :=
  {| mkdir_ok := true; random_salt := Some salt0; write_salt_ok := true;
     create_db := CreateOk; verify_write_ok := true; close_ok := true |}.

(** [badger.Open] creates the directory and then fails. *)
Definition env_open_fails : InitEnv :=
  {| mkdir_ok := true; random_salt := Some salt0; write_salt_ok := true;
     create_db := CreateFail true; verify_write_ok := true; close_ok := true |}.


(** A vault of workspace [ws] with password [pw] that holds one secret. *)
Definition toy_key : bytes := toy_deriveKey (bs "pw") salt0.

Definition toy_entries : gmap bytes bytes :=
  <[bs "API_KEY" := bs "s"]> (<[verifyKey := verifyValue]> ∅).

Definition toy_disk : Disk :=
  <[bs "ws" := vault_files salt0 toy_key toy_entries]> ∅.

(** The elements of [/home/u/.local/share/exitbox/vaults]. *)
Definition toy_vaults : list bytes :=
  [bs "home"; bs "u"; bs ".local"; bs "share"; bs "exitbox"; bs "vaults"].

Definition toy_store : Store := {| st_workspace := bs "ws"; st_key := toy_key |}.

(** The keys of a map in the order of [map_to_list]. *)
Definition range_keys (m : gmap bytes bytes) : list bytes := (map_to_list m).*1.

(** A [.env] file that names a new key and the stored one. *)
Definition env_import : bytes := unlines [bs "TOKEN=t"; bs "API_KEY=new"].

(** A [.env] file without a pair. *)
Definition env_no_pairs : bytes := unlines [bs "# nothing here"; bs "noequals"].

(** A [.env] file that names the verification key. *)
Definition env_verify : bytes := unlines [bs "__vault_verify__=oops"].

(** Three session directories, two of them named [alpha], and an
    [.active-session] file that names [alpha]. *)
Definition store_twice : list DirEntry :=
  [session_dir "id_1" "alpha"; session_dir "id_2" "beta"; session_dir "id_3" "alpha"].

Definition files_twice : SessionFiles :=
  {| sessions_dir := DirEntries store_twice;
     active_session := Some (bs "alpha" ++ [LF]) |}.

(** [os.RemoveAll] fails on the directory [id_3] only. *)
Definition rm_fails_on_id_3 (dir : bytes) : bool := negb (bytes_eqb dir (bs "id_3")).

(** Two workspaces of the same name: one takes [go] as a development
    profile, the other as a package. *)
Definition ws_go_profile : ActiveWorkspace :=
  {| Scope := bs "global";
     AWorkspace := {| Name := bs "w"; WScope := ScopeGlobal; Directory := None;
                      Development := [bs "go"]; Packages := [];
                      VaultEnabled := false |} |}.

Definition ws_go_package : ActiveWorkspace :=
  {| Scope := bs "global";
     AWorkspace := {| Name := bs "w"; WScope := ScopeGlobal; Directory := None;
                      Development := []; Packages := [bs "go"];
                      VaultEnabled := false |} |}.

(** A vault directory that holds the salt file and no database. *)
Definition disk_without_db : Disk :=
  <[bs "ws" := {| salt_file := Some salt0; db_dir := None |}]> ∅.
(* ===================================================================== *)
(** * Properties *)
(* ===================================================================== *)

Example sha256_empty :
  hex (SHA256.Sum256 (bs "")) =
  bs "e3b0c44298fc1c149afbf4c8996fb92427ae41e4649b934ca495991b7852b855".
Proof. vm_compute. reflexivity. Qed.

Example sha256_abc :
  hex (SHA256.Sum256 (bs "abc")) =
  bs "ba7816bf8f01cfea414140de5dae2223b00361a396177a9cb410ff61f20015ad".
Proof. vm_compute. reflexivity. Qed.

Example sha256_two_blocks :
  hex (SHA256.Sum256 (repeat "a"%char 119)) =
  bs "31eba51c313a5c08226adf18d4a359cfdfd8d2e816b13f4af952f7ea6584dcfb".
Proof. vm_compute. reflexivity. Qed.

(** ** Hexadecimal output *)

Definition lower_hex (c : ascii) : Prop := In c (bs "0123456789abcdef").

Lemma hex_length (b : bytes) : length (hex b) = (2 * length b)%nat.
Proof.
  induction b as [|c b IH]; [reflexivity|].
  cbn [hex flat_map hex_byte app length] in *. unfold hex in IH. lia.
Qed.

Lemma hex_app (a b : bytes) : hex (a ++ b) = hex a ++ hex b.
Proof. unfold hex. apply flat_map_app. Qed.

Lemma hex_firstn (n : nat) (b : bytes) :
  firstn (2 * n) (hex b) = hex (firstn n b).
Proof.
  revert b. induction n as [|n IH]; intros b; [reflexivity|].
  destruct b as [|c b]; [reflexivity|].
  replace (2 * S n)%nat with (S (S (2 * n))) by lia.
  cbn [hex flat_map hex_byte app firstn]. f_equal. f_equal. apply IH.
Qed.

Lemma hex_byte_lower (c : ascii) : Forall lower_hex (hex_byte c).
Proof.
  unfold hex_byte, hex_digit.
  assert (Hd : forall n : nat, (n < 16)%nat ->
            lower_hex (nth n (bs "0123456789abcdef") "0"%char)).
  { intros n Hn. unfold lower_hex. apply nth_In. exact Hn. }
  assert (Hr : (0 <= byte_val c < 256)%Z).
  { unfold byte_val. pose proof (N_ascii_bounded c). lia. }
  constructor; [|constructor; [|constructor]]; apply Hd.
  - assert (0 <= byte_val c / 16 < 16)%Z
      by (split; [apply Z.div_pos; lia | apply Z.div_lt_upper_bound; lia]).
    lia.
  - pose proof (Z.mod_pos_bound (byte_val c) 16). lia.
Qed.

Lemma hex_lower (b : bytes) : Forall lower_hex (hex b).
Proof.
  induction b as [|c b IH]; [constructor|].
  change (hex (c :: b)) with (hex_byte c ++ hex b).
  apply Forall_app. split; [apply hex_byte_lower | exact IH].
Qed.

Lemma Sum256_length (data : bytes) : length (SHA256.Sum256 data) = 32%nat.
Proof.
  unfold SHA256.Sum256.
  generalize (SHA256.blocks (length (SHA256.pad (map byte_val data))) SHA256.H0
                (SHA256.pad (map byte_val data))).
  intros s. rewrite length_map. reflexivity.
Qed.

Lemma hex8_length (data : bytes) :
  length (hex (firstn 8 (SHA256.Sum256 data))) = 16%nat.
Proof.
  rewrite hex_length, length_firstn, Sum256_length. reflexivity.
Qed.

(** ** The resolver *)

Lemma bytes_eqb_true (a b : bytes) : bytes_eqb a b = true <-> a = b.
Proof. unfold bytes_eqb. apply bool_decide_eq_true. Qed.

Lemma bytes_eqb_false (a b : bytes) : bytes_eqb a b = false <-> a <> b.
Proof. unfold bytes_eqb. apply bool_decide_eq_false. Qed.

Lemma FindWorkspace_Some (cfg : Config) (name : bytes) (w : Workspace) :
  FindWorkspace cfg name = Some w ->
  In w (WorkspacesItems cfg) /\ Name w = name.
Proof.
  unfold FindWorkspace. intros H. apply find_some in H.
  destruct H as [Hin Heq]. split; [exact Hin | now apply bytes_eqb_true].
Qed.

Lemma FindWorkspace_None (cfg : Config) (name : bytes) :
  FindWorkspace cfg name = None <->
  (forall w, In w (WorkspacesItems cfg) -> Name w <> name).
Proof.
  unfold FindWorkspace. split.
  - intros H w Hin. apply bytes_eqb_false.
    exact (find_none _ _ H w Hin).
  - intros H. destruct (find _ _) as [w|] eqn:E; [|reflexivity].
    apply find_some in E. destruct E as [Hin Heq].
    apply bytes_eqb_true in Heq. destruct (H w Hin Heq).
Qed.

Lemma best_directory_keeps (projectDir : bytes) (items : list Workspace)
    (b : nat * Workspace) :
  best_directory projectDir items (Some b) <> None.
Proof.
  revert b. induction items as [|w items IH]; intros b; [discriminate|].
  cbn [best_directory]. destruct (directory_match projectDir w) as [n|].
  - destruct b as [m b]. destruct (m <? n)%nat; apply IH.
  - apply IH.
Qed.

Lemma best_directory_None (projectDir : bytes) (items : list Workspace) :
  best_directory projectDir items None = None <->
  (forall w, In w items -> directory_match projectDir w = None).
Proof.
  induction items as [|w items IH]; cbn [best_directory].
  - split; [intros _ w [] | reflexivity].
  - destruct (directory_match projectDir w) as [n|] eqn:E.
    + split.
      * intros H. destruct (best_directory_keeps _ _ _ H).
      * intros H. specialize (H w (or_introl eq_refl)). congruence.
    + rewrite IH. split.
      * intros H w' [<-|Hin]; [exact E | now apply H].
      * intros H w' Hin. apply H. now right.
Qed.

(** C3: an override that names an item selects that item whatever the
    directory, active and default rules would pick, and an override that
    names no item fails with [UnknownWorkspace]; without an override and
    without a directory, active or default match the first item is
    returned, and nil when there are no items. *)
Theorem C3_resolver_override_and_fallback
    (cfg : Config) (projectDir overrideName : bytes) :
  (overrideName <> [] ->
     ((exists w, In w (WorkspacesItems cfg) /\ Name w = overrideName) ->
        exists w', ResolveActiveWorkspace cfg projectDir overrideName
                     = inr (Some (activate w'))
                   /\ In w' (WorkspacesItems cfg) /\ Name w' = overrideName)
     /\ ((forall w, In w (WorkspacesItems cfg) -> Name w <> overrideName) ->
           ResolveActiveWorkspace cfg projectDir overrideName
             = inl (UnknownWorkspace overrideName)))
  /\ (overrideName = [] ->
      (forall w, In w (WorkspacesItems cfg) -> directory_match projectDir w = None) ->
      (forall w, In w (WorkspacesItems cfg) -> Name w <> WorkspacesActive cfg) ->
      (forall w, In w (WorkspacesItems cfg) -> Name w <> DefaultWorkspace cfg) ->
      ResolveActiveWorkspace cfg projectDir overrideName
        = inr (activate <$> head (WorkspacesItems cfg))
      /\ (WorkspacesItems cfg = [] ->
          ResolveActiveWorkspace cfg projectDir overrideName = inr None)).
Proof.
  split.
  - intros Hne. destruct overrideName as [|c ov]; [congruence|].
    unfold ResolveActiveWorkspace. split.
    + intros [w [Hin Hname]].
      destruct (FindWorkspace cfg (c :: ov)) as [w'|] eqn:E.
      * apply FindWorkspace_Some in E. destruct E. now exists w'.
      * rewrite FindWorkspace_None in E. destruct (E w Hin Hname).
    + intros Hnone. apply FindWorkspace_None in Hnone. now rewrite Hnone.
  - intros -> Hdir Hact Hdef.
    unfold ResolveActiveWorkspace.
    apply best_directory_None in Hdir. apply FindWorkspace_None in Hact, Hdef.
    rewrite Hdir, Hact, Hdef. split; [reflexivity|].
    intros ->. reflexivity.
Qed.

Lemma C3_resolver_witness :
  (exists w', ResolveActiveWorkspace cfg_override_test (bs "/some/dir") (bs "work")
                = inr (Some (activate w'))
              /\ In w' (WorkspacesItems cfg_override_test) /\ Name w' = bs "work")
  /\ ResolveActiveWorkspace cfg_first_fallback_test (bs "/some/dir") []
       = inr (Some (activate (ws_named "first" []))).
Proof.
  split.
  - refine (proj1 (proj1 (C3_resolver_override_and_fallback
                            cfg_override_test (bs "/some/dir") (bs "work")) _) _).
    + discriminate.
    + exists (ws_named "work" [bs "go"]). split; [right; left; reflexivity | reflexivity].
  - refine (proj1 (proj2 (C3_resolver_override_and_fallback
                            cfg_first_fallback_test (bs "/some/dir") []) _ _ _ _)).
    + reflexivity.
    + intros w [<-|[<-|[]]]; reflexivity.
    + intros w [<-|[<-|[]]]; discriminate.
    + intros w [<-|[<-|[]]]; discriminate.
Defined.

(** ** The workspace hash *)

Lemma resolve_with_tools (cfg : Config) (tools : list bytes) (dir ov : bytes) :
  ResolveActiveWorkspace (with_tools cfg tools) dir ov
  = ResolveActiveWorkspace cfg dir ov.
Proof. reflexivity. Qed.

Lemma resolve_scenario (active default : bytes) (tools pkgs : list bytes) (dir : bytes) :
  ResolveActiveWorkspace (scenario_config active default tools pkgs) dir []
  = inr (Some (activate (scenario_workspace pkgs))).
Proof.
  unfold ResolveActiveWorkspace, FindWorkspace. cbn.
  destruct (bytes_eqb _ active); [reflexivity|].
  destruct (bytes_eqb _ default); reflexivity.
Qed.

Lemma Join_cons2 (p q : bytes) (l : list bytes) (sep : bytes) :
  Join (p :: q :: l) sep = p ++ sep ++ Join (q :: l) sep.
Proof. reflexivity. Qed.

Lemma tools_hash_parts_spec (st : list bytes) (cfg : Config)
    (active : option ActiveWorkspace) :
  ToolsLayer.hash_parts st cfg active = spec_hash_fields st active.
Proof.
  unfold ToolsLayer.hash_parts, spec_hash_fields.
  destruct active as [a|]; [|reflexivity].
  cbn [app]. now rewrite <- app_assoc.
Qed.

(** C1, for the two revisions of [WorkspaceHash].  In the revision that
    builds on the tools layer, the hash is the first 16 hexadecimal
    characters of the SHA-256 digest of the resolved workspace's scope,
    name, development profiles and packages followed by the session
    tools; it does not depend on [cfg.Tools.User]; it has length 16; and
    in scenario 1 the hashed texts differ for every list of session
    tools, the hashes themselves differing when that list is empty.  In
    the revision of [project.go], the hash is the first 16 hexadecimal
    characters of the SHA-256 digest of the resolved workspace's scope,
    name and development profiles followed by [cfg.Tools.User]; it has
    length 16; and it does not depend on the packages of a workspace, so
    that the two configurations of scenario 1 get the same hash. *)
Theorem C1_workspace_hash :
  (forall st cfg dir ov,
     ToolsLayer.WorkspaceHash st cfg dir ov
     = firstn 16 (hex (SHA256.Sum256
         (Join (spec_hash_fields st
                  (resolved_or_nil (ResolveActiveWorkspace cfg dir ov))) (bs ",")))))
  /\ (forall st cfg dir ov tools,
        ToolsLayer.WorkspaceHash st (with_tools cfg tools) dir ov
        = ToolsLayer.WorkspaceHash st cfg dir ov)
  /\ (forall st cfg dir ov, length (ToolsLayer.WorkspaceHash st cfg dir ov) = 16%nat)
  /\ (forall st active default tools dir,
        let A := scenario_config active default tools [] in
        let B := scenario_config active default tools [bs "jq"] in
        Join (ToolsLayer.hash_parts st A
                (resolved_or_nil (ResolveActiveWorkspace A dir []))) (bs ",")
        <> Join (ToolsLayer.hash_parts st B
                (resolved_or_nil (ResolveActiveWorkspace B dir []))) (bs ","))
  /\ (forall active default tools dir,
        ToolsLayer.WorkspaceHash [] (scenario_config active default tools []) dir []
        <> ToolsLayer.WorkspaceHash [] (scenario_config active default tools [bs "jq"]) dir [])
  /\ (forall cfg dir ov,
        CoreLayer.WorkspaceHash cfg dir ov
        = firstn 16 (hex (SHA256.Sum256
            (Join (match resolved_or_nil (ResolveActiveWorkspace cfg dir ov) with
                   | Some a =>
                       Scope a :: Name (AWorkspace a)
                       :: Development (AWorkspace a) ++ ToolsUser cfg
                   | None => ToolsUser cfg
                   end) (bs ",")))))
  /\ (forall cfg dir ov, length (CoreLayer.WorkspaceHash cfg dir ov) = 16%nat)
  /\ (forall active default tools pkgs pkgs' dir,
        CoreLayer.WorkspaceHash (scenario_config active default tools pkgs) dir []
        = CoreLayer.WorkspaceHash (scenario_config active default tools pkgs') dir []).
Proof.
  split; [|split; [|split; [|split; [|split; [|split; [|split]]]]]].
  - intros st cfg dir ov. unfold ToolsLayer.WorkspaceHash.
    rewrite tools_hash_parts_spec. symmetry. apply (hex_firstn 8).
  - intros st cfg dir ov tools. unfold ToolsLayer.WorkspaceHash.
    now rewrite resolve_with_tools.
  - intros st cfg dir ov. apply hex8_length.
  - intros st active default tools dir A B. subst A B.
    rewrite !resolve_scenario. cbn [resolved_or_nil].
    intros H. apply (f_equal (@length ascii)) in H. revert H.
    destruct st as [|s st]; cbn; rewrite ?length_app; cbn; lia.
  - intros active default tools dir. unfold ToolsLayer.WorkspaceHash.
    rewrite !resolve_scenario. vm_compute. discriminate.
  - intros cfg dir ov. unfold CoreLayer.WorkspaceHash, CoreLayer.hash_parts.
    rewrite <- (hex_firstn 8).
    now destruct (resolved_or_nil (ResolveActiveWorkspace cfg dir ov)).
  - intros cfg dir ov. apply hex8_length.
  - intros active default tools pkgs pkgs' dir. unfold CoreLayer.WorkspaceHash.
    now rewrite !resolve_scenario.
Qed.

(** The two hashes of scenario 1, with no session tools. *)
Example workspace_hash_scenario_values :
  ToolsLayer.WorkspaceHash [] (scenario_config [] [] [] []) (bs "/p") []
    = bs "a2fc625b577cdb92"
  /\ ToolsLayer.WorkspaceHash [] (scenario_config [] [] [] [bs "jq"]) (bs "/p") []
      = bs "80d086268e0171c1".
Proof. split; vm_compute; reflexivity. Qed.

(** C10: [WorkspaceHash] always yields 16 lower-case hexadecimal
    characters, in both revisions; when the override names no workspace
    the resolver's error is dropped and the digest is the one computed
    with no active workspace. *)
Theorem C10_workspace_hash_total
    (st : list bytes) (cfg : Config) (dir ov : bytes) :
  (length (ToolsLayer.WorkspaceHash st cfg dir ov) = 16%nat
   /\ Forall lower_hex (ToolsLayer.WorkspaceHash st cfg dir ov))
  /\ (length (CoreLayer.WorkspaceHash cfg dir ov) = 16%nat
      /\ Forall lower_hex (CoreLayer.WorkspaceHash cfg dir ov))
  /\ (ov <> [] ->
      (forall w, In w (WorkspacesItems cfg) -> Name w <> ov) ->
      ResolveActiveWorkspace cfg dir ov = inl (UnknownWorkspace ov)
      /\ ToolsLayer.WorkspaceHash st cfg dir ov
         = hex (firstn 8 (SHA256.Sum256 (Join (ToolsLayer.hash_parts st cfg None) (bs ","))))
      /\ CoreLayer.WorkspaceHash cfg dir ov
         = hex (firstn 8 (SHA256.Sum256 (Join (CoreLayer.hash_parts cfg None) (bs ","))))).
Proof.
  split; [|split].
  - split; [apply hex8_length | apply hex_lower].
  - split; [apply hex8_length | apply hex_lower].
  - intros Hne Hnone.
    assert (E : ResolveActiveWorkspace cfg dir ov = inl (UnknownWorkspace ov)).
    { destruct ov as [|c ov]; [congruence|]. unfold ResolveActiveWorkspace.
      apply FindWorkspace_None in Hnone. now rewrite Hnone. }
    unfold ToolsLayer.WorkspaceHash, CoreLayer.WorkspaceHash.
    rewrite E. repeat split.
Qed.

Lemma C10_workspace_hash_witness :
  ResolveActiveWorkspace cfg_override_test (bs "/some/dir") (bs "nonexistent")
    = inl (UnknownWorkspace (bs "nonexistent"))
  /\ ToolsLayer.WorkspaceHash [] cfg_override_test (bs "/some/dir") (bs "nonexistent")
     = hex (firstn 8 (SHA256.Sum256
         (Join (ToolsLayer.hash_parts [] cfg_override_test None) (bs ","))))
  /\ CoreLayer.WorkspaceHash cfg_override_test (bs "/some/dir") (bs "nonexistent")
     = hex (firstn 8 (SHA256.Sum256
         (Join (CoreLayer.hash_parts cfg_override_test None) (bs ",")))).
Proof.
  refine (proj2 (proj2 (C10_workspace_hash_total
            [] cfg_override_test (bs "/some/dir") (bs "nonexistent"))) _ _).
  - discriminate.
  - intros w [<-|[<-|[]]]; discriminate.
Defined.

(** The [WorkspaceHash] of [project.go] is not as the specification has
    it: the two configurations of scenario 1 get the same hash, and the
    user tools change the hash. *)
Lemma C1_core_layer_counterexample :
  ~ hash_tells_packages_apart CoreLayer.WorkspaceHash
  /\ ~ hash_excludes_user_tools CoreLayer.WorkspaceHash.
Proof.
  split.
  - intros H. now apply (H [] [] [] []).
  - intros H. specialize (H (scenario_config [] [] [] []) [] [] [bs "jq"]).
    revert H. vm_compute. discriminate.
Qed.

(** ** The freshness check of [BuildProject] *)

Lemma bytes_compare_antisym (a b : bytes) :
  bytes_compare b a = CompOpp (bytes_compare a b).
Proof.
  revert b. induction a as [|x a IH]; intros [|y b]; try reflexivity.
  cbn [bytes_compare]. rewrite (Z.compare_antisym (byte_val x) (byte_val y)).
  destruct (byte_val x ?= byte_val y)%Z; cbn [CompOpp]; [apply IH | reflexivity..].
Qed.

Lemma bytes_leb_ltb (a b : bytes) : bytes_leb a b = negb (bytes_ltb b a).
Proof.
  unfold bytes_leb, bytes_ltb. rewrite (bytes_compare_antisym a b).
  destruct (bytes_compare a b); reflexivity.
Qed.

Lemma freshness_decision_eq (rt : Runtime) (parentImage imageName : bytes) (force : bool) :
  freshness_decision rt parentImage imageName force =
    let p := ImageInspect rt parentImage created_format in
    let c := ImageInspect rt imageName created_format in
    if force || negb (ImageExists rt imageName) then RunBuild
    else if bytes_eqb p [] || bytes_eqb c [] then SkipBuild
    else if bytes_ltb c p then RunBuild else SkipBuild.
Proof.
  unfold freshness_decision. cbv zeta. rewrite bytes_leb_ltb.
  destruct force, (ImageExists rt imageName); cbn [negb andb orb]; try reflexivity.
  destruct (bytes_eqb _ []), (bytes_eqb _ []); cbn [orb]; try reflexivity.
  destruct (bytes_ltb _ _); reflexivity.
Qed.

(** C2, as the code has it: once the parent layer is ensured, an existing
    project image is rebuilt when [force] is set, or when both [Created]
    timestamps are present and the parent's is greater than the child's;
    when either timestamp is missing the build is skipped. *)
Theorem C2_freshness_rule
    (st : list bytes) (ImageName : bytes -> bytes -> bytes -> bytes)
    (cfg : Config) (rt : Runtime) (agentName projectDir ov : bytes) (force : bool) :
  let decide_for parent image :=
    let p := ImageInspect rt parent created_format in
    let c := ImageInspect rt image created_format in
    if force || negb (ImageExists rt image) then RunBuild
    else if bytes_eqb p [] || bytes_eqb c [] then SkipBuild
    else if bytes_ltb c p then RunBuild else SkipBuild in
  ToolsLayer.BuildProject st ImageName cfg rt true agentName projectDir ov force
  = decide_for (ToolsLayer.parent_image agentName)
      (ImageName agentName projectDir (ToolsLayer.WorkspaceHash st cfg projectDir ov))
  /\ CoreLayer.BuildProject ImageName cfg rt true agentName projectDir ov force
     = decide_for (CoreLayer.parent_image agentName)
         (ImageName agentName projectDir (CoreLayer.WorkspaceHash cfg projectDir ov)).
Proof.
  cbv zeta. unfold ToolsLayer.BuildProject, CoreLayer.BuildProject. cbn [negb].
  split; apply freshness_decision_eq.
Qed.

(** With the parent's timestamp missing the existing image is kept, against
    the wording "a missing timestamp is treated as newer (rebuild)". *)
Lemma C2_missing_timestamp_counterexample :
  ToolsLayer.BuildProject [] fixed_image_name cfg_override_test rt_parent_unreadable
    true (bs "claude") (bs "/some/dir") [] false = SkipBuild
  /\ ~ rebuilds_when_timestamp_missing rt_parent_unreadable
         (ToolsLayer.parent_image (bs "claude")) (bs "exitbox-claude-project").
Proof.
  split; [reflexivity|].
  intros H. specialize (H eq_refl (or_introl eq_refl)). discriminate H.
Qed.

(** ** Deduplication and the proxy configuration *)

Lemma dedup_from_In (seen : gset bytes) (l : list bytes) (x : bytes) :
  In x (dedup_from seen l) <-> In x l /\ x ∉ seen.
Proof.
  revert seen. induction l as [|s l IH]; intros seen; cbn [dedup_from].
  - cbn. tauto.
  - destruct (bool_decide (s ∈ seen)) eqn:E.
    + apply bool_decide_eq_true in E. rewrite IH. cbn [In].
      split; [tauto|]. intros [[<-|Hin] Hns]; [contradiction | tauto].
    + apply bool_decide_eq_false in E. cbn [In]. rewrite IH.
      rewrite not_elem_of_union, not_elem_of_singleton.
      split.
      * intros [<-|[Hin [Hne Hns]]]; tauto.
      * intros [[<-|Hin] Hns]; [tauto|].
        destruct (bytes_eq_dec s x) as [->|Hne]; [tauto|].
        right. repeat split; [exact Hin | congruence | exact Hns].
Qed.

Lemma dedup_from_NoDup (seen : gset bytes) (l : list bytes) :
  List.NoDup (dedup_from seen l).
Proof.
  revert seen. induction l as [|s l IH]; intros seen; cbn [dedup_from].
  - constructor.
  - destruct (bool_decide (s ∈ seen)); [apply IH|].
    constructor; [|apply IH].
    rewrite dedup_from_In, not_elem_of_union, not_elem_of_singleton.
    intros [_ [Hne _]]. now apply Hne.
Qed.

Lemma dedup_In (l : list bytes) (x : bytes) : In x (dedup l) <-> In x l.
Proof.
  unfold dedup. rewrite dedup_from_In.
  split; [tauto|]. intros H. split; [exact H | apply not_elem_of_empty].
Qed.

Lemma allowed_domains_In (A B : list bytes) (d : bytes) :
  In d (allowed_domains A B) <-> In d (A ++ B) /\ blank d = false.
Proof.
  unfold allowed_domains. rewrite filter_In, dedup_In.
  destruct (blank d); cbn; intuition congruence.
Qed.

Lemma allowed_domains_NoDup (A B : list bytes) : List.NoDup (allowed_domains A B).
Proof. apply List.NoDup_filter, dedup_from_NoDup. Qed.

Lemma HasPrefix_app (p s : bytes) : HasPrefix (p ++ s) p = true.
Proof.
  induction p as [|c p IH]; [destruct s; reflexivity|].
  cbn [app HasPrefix]. now rewrite Ascii.eqb_refl.
Qed.

Lemma dstdomain_lines_of_squid (dns : list bytes) (subnet : bytes) (A B : list bytes) :
  dstdomain_lines (squid_lines dns subnet A B)
  = map dstdomain_line (dstdomain_entries A B).
Proof.
  unfold dstdomain_lines, squid_lines.
  rewrite !List.filter_app.
  replace (List.filter _ [_; _ ++ subnet; _; _]) with (@nil bytes) by reflexivity.
  replace (List.filter _ [_; _; _; _; _; _; _; _ ++ Join dns _])
    with (@nil bytes) by reflexivity.
  rewrite app_nil_r. cbn [app].
  induction (dstdomain_entries A B) as [|e l IH]; [reflexivity|].
  cbn [map List.filter]. unfold dstdomain_line at 1.
  rewrite HasPrefix_app. now rewrite IH.
Qed.

(** C4: every non-blank domain of the two lists is rendered exactly once,
    with a leading dot, as a destination-domain ACL line; blank entries are
    not rendered and no other domain is; with both lists empty the only
    destination-domain line is the sentinel. *)
Theorem C4_proxy_domains
    (dns : list bytes) (subnet : bytes) (domains extraURLs : list bytes) :
  let lines := squid_lines dns subnet domains extraURLs in
  (forall d, In d (domains ++ extraURLs) -> blank d = false ->
     count_occ bytes_eq_dec lines (dstdomain_line (bs "." ++ d)) = 1%nat)
  /\ (forall l, In l (dstdomain_lines lines) ->
        (domains = [] /\ extraURLs = [] /\ l = dstdomain_line block_all_domain)
        \/ exists d, In d (domains ++ extraURLs) /\ blank d = false
                     /\ l = dstdomain_line (bs "." ++ d))
  /\ (domains = [] -> extraURLs = [] ->
        dstdomain_lines lines = [dstdomain_line block_all_domain])
  /\ GenerateSquidConfig dns subnet domains extraURLs
     = flat_map (fun l => l ++ bs (String "010"%char EmptyString)) lines.
Proof.
  cbv zeta. split; [|split; [|split]].
  - intros d Hin Hnb.
    assert (Hne : dstdomain_entries domains extraURLs
                  = map (fun d => bs "." ++ d) (allowed_domains domains extraURLs)).
    { unfold dstdomain_entries. destruct domains, extraURLs; try reflexivity.
      destruct Hin. }
    unfold squid_lines. rewrite Hne, !count_occ_app.
    assert (Hfix : forall l, HasPrefix l dstdomain_prefix = false ->
                     l <> dstdomain_line (bs "." ++ d)).
    { intros l Hl ->. unfold dstdomain_line in Hl.
      rewrite HasPrefix_app in Hl. discriminate. }
    assert (Hzero : forall ls, Forall (fun l => HasPrefix l dstdomain_prefix = false) ls ->
              count_occ bytes_eq_dec ls (dstdomain_line (bs "." ++ d)) = 0%nat).
    { intros ls Hls. apply count_occ_not_In. intros Hin'.
      rewrite List.Forall_forall in Hls. exact (Hfix _ (Hls _ Hin') eq_refl). }
    rewrite (Hzero [_; _ ++ subnet; _; _]) by (repeat constructor).
    rewrite (Hzero [_; _; _; _; _; _; _; _ ++ Join dns _]) by (repeat constructor).
    rewrite Nat.add_0_r. cbn [plus].
    rewrite map_map.
    rewrite <- (count_occ_map (fun x => dstdomain_line (bs "." ++ x))
                  bytes_eq_dec bytes_eq_dec).
    + apply NoDup_count_occ'; [apply allowed_domains_NoDup|].
      now apply allowed_domains_In.
    + intros x1 x2 E. unfold dstdomain_line in E.
      apply app_inv_head in E. now apply app_inv_head in E.
  - intros l. rewrite dstdomain_lines_of_squid, in_map_iff.
    intros [e [<- He]]. unfold dstdomain_entries in He.
    destruct domains as [|a A].
    + destruct extraURLs as [|b B].
      * left. destruct He as [<-|[]]. now repeat split.
      * right. apply in_map_iff in He. destruct He as [d [<- Hd]].
        apply allowed_domains_In in Hd. destruct Hd. now exists d.
    + right. apply in_map_iff in He. destruct He as [d [<- Hd]].
      apply allowed_domains_In in Hd. destruct Hd. now exists d.
  - intros -> ->. now rewrite dstdomain_lines_of_squid.
  - reflexivity.
Qed.

(** Scenario 2 of the specification, on the rendered text. *)
Example squid_dedup_across_lists :
  Count (GenerateSquidConfig [bs "1.1.1.1"; bs "8.8.8.8"] (bs "10.89.0.0/24")
           [bs "example.com"; bs "example.com"] [bs "example.com"])
        (bs ".example.com") = 1%nat.
Proof. vm_compute. reflexivity. Qed.

Lemma C4_proxy_domains_witness :
  count_occ bytes_eq_dec
    (squid_lines [bs "1.1.1.1"; bs "8.8.8.8"] (bs "10.89.0.0/24")
       [bs "example.com"; bs "example.com"] [bs "example.com"; bs " "])
    (dstdomain_line (bs ".example.com")) = 1%nat
  /\ dstdomain_lines (squid_lines [bs "1.1.1.1"; bs "8.8.8.8"] (bs "10.89.0.0/24") [] [])
     = [dstdomain_line block_all_domain].
Proof.
  split.
  - refine (proj1 (C4_proxy_domains [bs "1.1.1.1"; bs "8.8.8.8"] (bs "10.89.0.0/24")
                     [bs "example.com"; bs "example.com"] [bs "example.com"; bs " "])
                  (bs "example.com") _ _).
    + left. reflexivity.
    + reflexivity.
  - refine (proj1 (proj2 (proj2 (C4_proxy_domains [bs "1.1.1.1"; bs "8.8.8.8"]
                     (bs "10.89.0.0/24") [] []))) _ _); reflexivity.
Defined.

(** ** Session selectors *)

Lemma resolve_loop_spec (selector : bytes) (entries : list DirEntry) (acc : list bytes) :
  resolve_loop selector entries acc =
    match find (exact_match selector) (sessions_of entries) with
    | Some s => inl (SessionName s)
    | None =>
        inr (acc ++ map SessionName
                      (List.filter (prefix_match selector) (sessions_of entries)))
    end.
Proof.
  revert acc. induction entries as [|e entries IH]; intros acc.
  - cbn. now rewrite app_nil_r.
  - cbn [resolve_loop]. unfold sessions_of. cbn [omap list_omap].
    fold (sessions_of entries). unfold session_of.
    destruct (IsDir e); cbn [negb]; [|apply IH].
    destruct (NameFile e) as [raw|]; [|apply IH].
    destruct (bytes_eqb (TrimSpace raw) []); [apply IH|].
    cbn [find List.filter]. unfold exact_match at 1, prefix_match at 1.
    cbn [SessionName SessionId].
    destruct (bytes_eqb (TrimSpace raw) selector || bytes_eqb (EntryName e) selector);
      [reflexivity|].
    destruct (HasPrefix (EntryName e) selector).
    + rewrite IH. destruct (find _ _); [reflexivity|].
      cbn [map]. now rewrite <- app_assoc.
    + apply IH.
Qed.

(** C7, as the code has it.  Let [s] be the selector with surrounding
    white space removed.  When [s] is empty the result is (empty, false,
    nil).  Otherwise: if some session has [s] as its name or directory id,
    the name of the first such session is returned with found; if none
    has and [s] is a prefix of exactly one session's directory id, that
    session's name is returned with found; if none has and [s] is a prefix
    of several, the result is the ambiguity error; otherwise (empty, false,
    nil). *)
Theorem C7_resolve_selector (entries : list DirEntry) (selector : bytes) :
  let s := TrimSpace selector in
  let sessions := sessions_of entries in
  let r := ResolveSelector (DirEntries entries) selector in
  (s = [] -> r = ([], false, None))
  /\ (s <> [] ->
      (forall x, find (exact_match s) sessions = Some x ->
         r = (SessionName x, true, None)
         /\ In x sessions /\ (SessionName x = s \/ SessionId x = s))
      /\ ((forall x, In x sessions -> SessionName x <> s /\ SessionId x <> s) ->
          (forall x, List.filter (prefix_match s) sessions = [x] ->
             r = (SessionName x, true, None))
          /\ (forall x y rest, List.filter (prefix_match s) sessions = x :: y :: rest ->
                r = ([], false, Some (AmbiguousSelector s)))
          /\ (List.filter (prefix_match s) sessions = [] -> r = ([], false, None)))).
Proof.
  cbv zeta. unfold ResolveSelector. split.
  - intros ->. reflexivity.
  - intros Hne. apply bytes_eqb_false in Hne. rewrite Hne.
    rewrite resolve_loop_spec. cbn [app]. split.
    + intros x Hx. rewrite Hx. split; [reflexivity|].
      apply find_some in Hx. destruct Hx as [Hin Hex]. split; [exact Hin|].
      unfold exact_match in Hex. apply orb_true_iff in Hex.
      destruct Hex as [H|H]; apply bytes_eqb_true in H; tauto.
    + intros Hnone.
      assert (E : find (exact_match (TrimSpace selector)) (sessions_of entries) = None).
      { destruct (find _ _) as [x|] eqn:E; [|reflexivity].
        apply find_some in E. destruct E as [Hin Hex].
        destruct (Hnone x Hin) as [H1 H2].
        unfold exact_match in Hex. apply orb_true_iff in Hex.
        destruct Hex as [H|H]; apply bytes_eqb_true in H; contradiction. }
      rewrite E. repeat split.
      * intros x ->. reflexivity.
      * intros x y rest ->. reflexivity.
      * intros ->. reflexivity.
Qed.

Lemma C7_resolve_selector_witness :
  ResolveSelector (DirEntries store_unique) (bs "id_abc") = (bs "session-a", true, None)
  /\ ResolveSelector (DirEntries store_ambiguous) (bs "id_abc")
     = ([], false, Some (AmbiguousSelector (bs "id_abc")))
  /\ ResolveSelector (DirEntries store_unique) (bs " ") = ([], false, None).
Proof.
  split; [|split].
  - refine (proj1 (proj2 (proj2 (C7_resolve_selector store_unique (bs "id_abc")) _) _)
                  {| SessionId := bs "id_abc123"; SessionName := bs "session-a" |} _).
    + discriminate.
    + intros x [<-|[<-|[]]]; split; discriminate.
    + reflexivity.
  - refine (proj1 (proj2 (proj2 (proj2 (C7_resolve_selector store_ambiguous (bs "id_abc")) _) _))
                  {| SessionId := bs "id_abc123"; SessionName := bs "session-a" |}
                  {| SessionId := bs "id_abc999"; SessionName := bs "session-b" |} [] _).
    + discriminate.
    + intros x [<-|[<-|[]]]; split; discriminate.
    + reflexivity.
  - refine (proj1 (C7_resolve_selector store_unique (bs " ")) _). reflexivity.
Defined.

(** The empty selector is a prefix of the only directory id of
    [store_single], yet nothing is found: the guard on the empty selector
    comes first. *)
Lemma C7_empty_selector_counterexample :
  List.filter (prefix_match []) (sessions_of store_single)
    = [{| SessionId := bs "id_abc123"; SessionName := bs "session-a" |}]
  /\ ResolveSelector (DirEntries store_single) [] = ([], false, None)
  /\ ~ unique_prefix_resolves store_single [].
Proof.
  split; [reflexivity|]. split; [reflexivity|].
  intros H. specialize (H _ eq_refl). discriminate H.
Qed.

(** ** The [.env] parser *)

Lemma HasPrefix_nil (s : bytes) : HasPrefix s [] = true.
Proof. destruct s; reflexivity. Qed.

Lemma IndexByte_None (s : bytes) (c : ascii) :
  IndexByte s c = None -> ~ In c s.
Proof.
  induction s as [|x s IH]; cbn [IndexByte In]; [tauto|].
  destruct (Ascii.eqb_spec x c) as [->|Hne]; [discriminate|].
  destruct (IndexByte s c); [discriminate|]. intros _ [H|H]; [congruence | now apply IH].
Qed.

Lemma IndexByte_Some (s : bytes) (c : ascii) (i : nat) :
  IndexByte s c = Some i ->
  s = firstn i s ++ c :: skipn (S i) s /\ ~ In c (firstn i s) /\ length (firstn i s) = i.
Proof.
  revert i. induction s as [|x s IH]; intros i; cbn [IndexByte]; [discriminate|].
  destruct (Ascii.eqb_spec x c) as [->|Hne].
  - intros [= <-]. cbn. tauto.
  - destruct (IndexByte s c) as [j|]; [|discriminate].
    intros [= <-]. destruct (IH j eq_refl) as [H1 [H2 H3]].
    cbn [firstn skipn app In length]. repeat split.
    + now rewrite <- H1.
    + intros [H|H]; [congruence | contradiction].
    + now rewrite H3.
Qed.

Lemma IndexByte_app (l rest : bytes) (c : ascii) :
  ~ In c l -> IndexByte (l ++ c :: rest) c = Some (length l).
Proof.
  induction l as [|x l IH]; intros Hn; cbn [app IndexByte length].
  - now rewrite Ascii.eqb_refl.
  - destruct (Ascii.eqb_spec x c) as [->|Hne]; [destruct Hn; now left|].
    rewrite IH; [reflexivity|]. intros H. apply Hn. now right.
Qed.

Lemma IndexByte_not_In (s : bytes) (c : ascii) :
  ~ In c s -> IndexByte s c = None.
Proof.
  induction s as [|x s IH]; intros Hn; cbn [IndexByte]; [reflexivity|].
  destruct (Ascii.eqb_spec x c) as [->|Hne]; [destruct Hn; now left|].
  rewrite IH; [reflexivity|]. intros H. apply Hn. now right.
Qed.

Lemma split_first_eq_IndexByte (s : bytes) :
  split_first_eq s =
    match IndexByte s "="%char with
    | Some i => Some (firstn i s, skipn (S i) s)
    | None => None
    end.
Proof.
  induction s as [|x s IH]; [reflexivity|].
  cbn [split_first_eq IndexByte]. destruct (Ascii.eqb x "="); [reflexivity|].
  rewrite IH. destruct (IndexByte s "="); reflexivity.
Qed.

Lemma unquote_strip (v : bytes) : unquoteEnvValue v = strip_quotes v.
Proof.
  unfold unquoteEnvValue, strip_quotes.
  destruct v as [|q inner]; [reflexivity|].
  destruct (reverse inner) as [|q' middle] eqn:E.
  - apply (f_equal (@reverse ascii)) in E. rewrite reverse_involutive in E. subst inner.
    reflexivity.
  - apply (f_equal (@reverse ascii)) in E. rewrite reverse_involutive in E.
    rewrite reverse_cons in E. subst inner.
    replace (2 <=? length (q :: reverse middle ++ [q']))%nat with true
      by (symmetry; apply Nat.leb_le; cbn [length]; rewrite length_app; cbn; lia).
    cbn [head]. rewrite (last_snoc q' (q :: reverse middle) : last (q :: reverse middle ++ [q']) = Some q').
    replace (firstn _ _) with (reverse middle).
    2:{ cbn [skipn length]. rewrite length_app. cbn [length].
        replace (S (length (reverse middle) + 1) - 2)%nat with (length (reverse middle)) by lia.
        symmetry. apply take_app_length. }
    unfold is_quote.
    destruct (Ascii.eqb q DQUOTE) eqn:A1, (Ascii.eqb q' DQUOTE) eqn:A2,
             (Ascii.eqb q SQUOTE) eqn:A3, (Ascii.eqb q' SQUOTE) eqn:A4,
             (Ascii.eqb q q') eqn:A5;
      cbn [andb orb]; try reflexivity; exfalso;
      rewrite ?Ascii.eqb_eq, ?Ascii.eqb_neq in *; unfold DQUOTE, SQUOTE in *;
      congruence.
Qed.

(** The loop body of [ParseEnvFile] does to a line what the specification
    says of it. *)
Lemma parse_env_line_spec (env : gmap bytes bytes) (text : bytes) :
  parse_env_line env text = spec_env_add env text.
Proof.
  unfold parse_env_line, spec_env_add, spec_env_entry. cbv zeta.
  destruct (TrimSpace text) as [|c line] eqn:E; [reflexivity|].
  replace (bytes_eqb (c :: line) []) with false
    by (symmetry; now apply bytes_eqb_false).
  cbn [orb HasPrefix bs list_ascii_of_string]. rewrite HasPrefix_nil.
  rewrite (Ascii.eqb_sym "#"%char c).
  destruct (Ascii.eqb c "#"); [reflexivity|].
  rewrite split_first_eq_IndexByte.
  destruct (IndexByte (c :: line) "=") as [idx|]; [|reflexivity].
  rewrite unquote_strip.
  destruct (TrimSpace (firstn idx (c :: line))) as [|k key] eqn:Ek; [reflexivity|].
  replace (bytes_eqb (k :: key) []) with false
    by (symmetry; now apply bytes_eqb_false).
  reflexivity.
Qed.

Lemma raw_lines_from_app (l rest cur : bytes) :
  ~ In LF l ->
  raw_lines_from cur (l ++ LF :: rest)
  = (reverse cur ++ l) :: raw_lines_from [] rest.
Proof.
  revert cur. induction l as [|x l IH]; intros cur Hn; cbn [app raw_lines_from].
  - rewrite Ascii.eqb_refl. now rewrite app_nil_r.
  - destruct (Ascii.eqb_spec x LF) as [->|Hne]; [destruct Hn; now left|].
    rewrite IH by (intros H; apply Hn; now right).
    rewrite reverse_cons. now rewrite <- app_assoc.
Qed.

Lemma raw_lines_from_last (l cur : bytes) :
  ~ In LF l -> reverse cur ++ l <> [] ->
  raw_lines_from cur l = [reverse cur ++ l].
Proof.
  revert cur. induction l as [|x l IH]; intros cur Hn Hne; cbn [raw_lines_from].
  - rewrite app_nil_r in *. destruct cur; [now destruct Hne | reflexivity].
  - destruct (Ascii.eqb_spec x LF) as [->|Hx]; [destruct Hn; now left|].
    rewrite IH.
    + rewrite reverse_cons. now rewrite <- app_assoc.
    + intros H. apply Hn. now right.
    + rewrite reverse_cons, <- app_assoc. now destruct (reverse cur).
Qed.

Lemma scan_tokens_text_lines (fuel : nat) (data : bytes) :
  (length data < fuel)%nat -> short_lines data ->
  scan_tokens fuel data = text_lines data.
Proof.
  revert data. induction fuel as [|fuel IH]; intros data Hlen Hshort; [lia|].
  cbn [scan_tokens]. destruct data as [|c data]; [reflexivity|].
  destruct (IndexByte (c :: data) LF) as [i|] eqn:E.
  - apply IndexByte_Some in E. destruct E as [E1 [E2 E3]].
    remember (firstn i (c :: data)) as l eqn:El.
    remember (skipn (S i) (c :: data)) as rest eqn:Er. clear El Er.
    unfold short_lines, text_lines, raw_lines in *. rewrite E1 in Hshort |- *.
    rewrite raw_lines_from_app in Hshort |- * by exact E2.
    cbn [reverse rev_append app map] in *. apply Forall_cons in Hshort as [Hl Hrest].
    replace (Z.of_nat i <? MaxScanTokenSize)%Z with true
      by (symmetry; apply Z.ltb_lt; lia).
    f_equal. apply IH; [|exact Hrest].
    apply (f_equal (@length ascii)) in E1. rewrite length_app in E1.
    cbn [length] in E1, Hlen. lia.
  - apply IndexByte_None in E.
    unfold short_lines, text_lines, raw_lines in *.
    rewrite (raw_lines_from_last (c :: data) []) in Hshort |- * by (easy).
    cbn [reverse rev_append app map] in *. apply Forall_cons in Hshort as [Hl Hrest].
    replace (Z.of_nat (length (c :: data)) <? MaxScanTokenSize)%Z with true
      by (symmetry; apply Z.ltb_lt; lia).
    reflexivity.
Qed.

(** Whatever the input, the scanner yields the lines up to the first one
    that does not fit its buffer. *)
Lemma scan_tokens_prefix (fuel : nat) (data : bytes) :
  (length data < fuel)%nat ->
  exists unread, text_lines data = scan_tokens fuel data ++ unread.
Proof.
  revert data. induction fuel as [|fuel IH]; intros data Hlen; [lia|].
  cbn [scan_tokens]. destruct data as [|c data]; [now exists []|].
  destruct (IndexByte (c :: data) LF) as [i|] eqn:E.
  - apply IndexByte_Some in E. destruct E as [E1 [E2 E3]].
    remember (firstn i (c :: data)) as l eqn:El.
    remember (skipn (S i) (c :: data)) as rest eqn:Er. clear El Er.
    destruct (Z.of_nat i <? MaxScanTokenSize)%Z; [|now eexists].
    destruct (IH rest) as [unread Hu].
    { apply (f_equal (@length ascii)) in E1. rewrite length_app in E1.
      cbn [length] in E1, Hlen. lia. }
    exists unread. unfold text_lines, raw_lines in *. rewrite E1.
    rewrite raw_lines_from_app by exact E2.
    cbn [reverse rev_append app map]. now rewrite Hu.
  - apply IndexByte_None in E.
    destruct (Z.of_nat (length (c :: data)) <? MaxScanTokenSize)%Z; [|now eexists].
    exists []. unfold text_lines, raw_lines.
    rewrite (raw_lines_from_last (c :: data) []) by easy. reflexivity.
Qed.

Lemma fold_left_ext {A B : Type} (f g : A -> B -> A) (l : list B) (a : A) :
  (forall a x, f a x = g a x) -> fold_left f l a = fold_left g l a.
Proof.
  intros H. revert a. induction l as [|x l IH]; intros a; [reflexivity|].
  cbn. rewrite H. apply IH.
Qed.

Lemma short_linesb_true (data : bytes) :
  short_linesb data = true -> short_lines data.
Proof.
  unfold short_linesb, short_lines. rewrite forallb_forall, List.Forall_forall.
  intros H l Hl. apply Z.ltb_lt. now apply H.
Qed.

Lemma parse_env_file_short (data : bytes) :
  short_lines data -> ParseEnvFile data = spec_parse_env data.
Proof.
  intros Hshort. unfold ParseEnvFile, spec_parse_env, scanner_lines.
  rewrite scan_tokens_text_lines by (auto; lia).
  apply fold_left_ext. apply parse_env_line_spec.
Qed.

(** C6, as the code has it: on an input whose lines all fit the scanner's
    buffer, [ParseEnvFile] is the parser of the specification, applied to
    every line, a later pair replacing an earlier one of the same key; on
    any input it is that parser applied to the lines that come before the
    first line that does not fit. *)
Theorem C6_parse_env_file (data : bytes) :
  (short_lines data -> ParseEnvFile data = spec_parse_env data)
  /\ (exists unread,
        text_lines data = scanner_lines data ++ unread
        /\ ParseEnvFile data = fold_left spec_env_add (scanner_lines data) ∅).
Proof.
  split; [apply parse_env_file_short|].
  destruct (scan_tokens_prefix (S (length data)) data) as [unread Hu]; [lia|].
  exists unread. split; [exact Hu|].
  unfold ParseEnvFile. apply fold_left_ext. apply parse_env_line_spec.
Qed.

Example parse_env_sample :
  ParseEnvFile env_sample !! bs "KEY" = Some (bs "value")
  /\ ParseEnvFile env_sample !! bs "KEY2" = Some []
  /\ ParseEnvFile env_sample !! bs "Q1" = Some (bs "quoted value")
  /\ ParseEnvFile env_sample !! bs "Q2" = Some (bs "quoted value")
  /\ ParseEnvFile env_sample !! bs "E" = Some (bs "value=with=equals")
  /\ size (ParseEnvFile env_sample) = 5%nat.
Proof. vm_compute. repeat split. Qed.

Lemma C6_parse_env_file_witness :
  short_lines env_sample /\ ParseEnvFile env_sample = spec_parse_env env_sample.
Proof.
  assert (H : short_lines env_sample).
  { apply short_linesb_true. vm_compute. reflexivity. }
  split; [exact H | exact (proj1 (C6_parse_env_file env_sample) H)].
Defined.

(** A line that does not fit the scanner's buffer ends the scan: the pair
    on the next line is lost, and so is every pair after it. *)
Lemma C6_long_line_counterexample :
  ParseEnvFile long_env = ∅
  /\ spec_parse_env long_env !! bs "K" = Some (bs "V")
  /\ ~ parses_every_line long_env.
Proof.
  assert (H1 : ParseEnvFile long_env = ∅).
  { unfold ParseEnvFile.
    replace (scanner_lines long_env) with (@nil bytes) by (vm_compute; reflexivity).
    reflexivity. }
  assert (H2 : spec_parse_env long_env !! bs "K" = Some (bs "V")).
  { vm_compute. reflexivity. }
  split; [exact H1 | split; [exact H2 |]].
  unfold parses_every_line. intros H. rewrite <- H, H1 in H2.
  rewrite lookup_empty in H2. discriminate H2.
Qed.

(** ** Round trip of [ExportEnvFormat] and [ParseEnvFile] *)

Ltac space_cases :=
  unfold is_space1, is_space2, is_space3;
  change (byte_val "="%char) with 61%Z; cbv zeta;
  repeat match goal with
         | |- context [(byte_val ?c =? ?k)%Z] => destruct (byte_val c =? k)%Z
         | |- context [(?k <=? byte_val ?c)%Z] => destruct (k <=? byte_val c)%Z
         | |- context [(byte_val ?c <=? ?k)%Z] => destruct (byte_val c <=? k)%Z
         end;
  reflexivity.

Lemma is_space2_eq_r (c : ascii) : is_space2 c "="%char = false.
Proof. space_cases. Qed.

Lemma is_space2_eq_l (c : ascii) : is_space2 "="%char c = false.
Proof. space_cases. Qed.

Lemma is_space3_eq_1 (a b : ascii) : is_space3 "="%char a b = false.
Proof. space_cases. Qed.

Lemma is_space3_eq_2 (a b : ascii) : is_space3 a "="%char b = false.
Proof. space_cases. Qed.

Lemma is_space3_eq_3 (a b : ascii) : is_space3 a b "="%char = false.
Proof. space_cases. Qed.

Lemma TrimLeftSpace_id (s : bytes) : leading_space s = false -> TrimLeftSpace s = s.
Proof.
  destruct s as [|c1 [|c2 [|c3 r]]]; cbn [leading_space TrimLeftSpace]; try reflexivity.
  - rewrite orb_false_r. now intros ->.
  - rewrite orb_false_r. intros H. apply orb_false_iff in H as [-> ->]. reflexivity.
  - intros H. apply orb_false_iff in H as [-> H].
    apply orb_false_iff in H as [-> ->]. reflexivity.
Qed.

Lemma trim_rev_space_id (r : bytes) : rev_trailing_space r = false -> trim_rev_space r = r.
Proof.
  destruct r as [|c1 [|c2 [|c3 r]]]; cbn [rev_trailing_space trim_rev_space];
    try reflexivity.
  - rewrite orb_false_r. now intros ->.
  - rewrite orb_false_r. intros H. apply orb_false_iff in H as [-> ->]. reflexivity.
  - intros H. apply orb_false_iff in H as [-> H].
    apply orb_false_iff in H as [-> ->]. reflexivity.
Qed.

Lemma TrimSpace_id (s : bytes) :
  leading_space s = false -> trailing_space s = false -> TrimSpace s = s.
Proof.
  intros Hl Ht. unfold TrimSpace, TrimRightSpace. rewrite (TrimLeftSpace_id s Hl).
  rewrite trim_rev_space_id by exact Ht. apply reverse_involutive.
Qed.

Lemma leading_space_key (k v : bytes) :
  k <> [] -> leading_space k = false ->
  leading_space (k ++ "="%char :: v) = false.
Proof.
  intros Hne. destruct k as [|c1 [|c2 [|c3 r]]]; [congruence|..];
    cbn [leading_space app].
  - rewrite orb_false_r. intros ->. rewrite is_space2_eq_r.
    destruct v; [reflexivity|]. now rewrite is_space3_eq_2.
  - rewrite orb_false_r. intros H. apply orb_false_iff in H as [-> ->].
    now rewrite is_space3_eq_3.
  - now intros ->.
Qed.

Lemma rev_trailing_space_value (r rk : bytes) :
  rev_trailing_space r = false ->
  rev_trailing_space (r ++ "="%char :: rk) = false.
Proof.
  destruct r as [|c1 [|c2 [|c3 r]]]; cbn [rev_trailing_space app].
  - intros _. change (is_space1 "=") with false. cbn [orb].
    destruct rk as [|c2 [|c3 rk]]; [reflexivity|..].
    + now rewrite is_space2_eq_r.
    + now rewrite is_space2_eq_r, is_space3_eq_3.
  - rewrite orb_false_r. intros ->. rewrite is_space2_eq_l.
    destruct rk; [reflexivity|]. now rewrite is_space3_eq_2.
  - rewrite orb_false_r. intros H. apply orb_false_iff in H as [-> ->].
    now rewrite is_space3_eq_1.
  - now intros ->.
Qed.

Lemma trailing_space_line (k v : bytes) :
  trailing_space v = false -> trailing_space (k ++ "="%char :: v) = false.
Proof.
  unfold trailing_space. intros H.
  rewrite reverse_app, reverse_cons, <- app_assoc. cbn [app].
  now apply rev_trailing_space_value.
Qed.

Lemma has_space_suffix (a b : bytes) : has_space (a ++ b) = false -> has_space b = false.
Proof.
  induction a as [|c a IH]; [trivial|].
  cbn [app has_space]. intros H. apply orb_false_iff in H as [_ H]. now apply IH.
Qed.

Lemma has_space_leading (s : bytes) : has_space s = false -> leading_space s = false.
Proof.
  destruct s as [|c s]; [reflexivity|]. cbn [has_space].
  intros H. now apply orb_false_iff in H as [H _].
Qed.

Lemma has_space_trailing (s : bytes) : has_space s = false -> trailing_space s = false.
Proof.
  intros H. unfold trailing_space.
  destruct (reverse s) as [|c1 r1] eqn:E; [reflexivity|].
  apply (f_equal (@reverse ascii)) in E. rewrite reverse_involutive in E.
  destruct r1 as [|c2 r2].
  - rewrite reverse_cons in E. cbn in E. subst s.
    apply has_space_leading in H. exact H.
  - destruct r2 as [|c3 r3].
    + rewrite !reverse_cons in E. cbn in E. subst s.
      apply has_space_leading in H as H2.
      pose proof (has_space_suffix [c2] [c1] H) as H1. apply has_space_leading in H1.
      cbn [leading_space rev_trailing_space] in *. rewrite orb_false_r in *.
      apply orb_false_iff in H2 as [_ H2]. now rewrite H1, H2.
    + rewrite !reverse_cons, <- !app_assoc in E. cbn [app] in E. subst s.
      pose proof (has_space_suffix (reverse r3) [c3; c2; c1] H) as H3.
      pose proof (has_space_suffix (reverse r3 ++ [c3]) [c2; c1]) as H2.
      rewrite <- app_assoc in H2. specialize (H2 H).
      pose proof (has_space_suffix (reverse r3 ++ [c3; c2]) [c1]) as H1.
      rewrite <- app_assoc in H1. specialize (H1 H).
      apply has_space_leading in H1, H2, H3.
      cbn [leading_space rev_trailing_space] in *. rewrite orb_false_r in *.
      apply orb_false_iff in H2 as [_ H2].
      apply orb_false_iff in H3 as [_ H3]. apply orb_false_iff in H3 as [_ H3].
      now rewrite H1, H2, H3.
Qed.

Lemma dropCR_id (s : bytes) : trailing_space s = false -> dropCR s = s.
Proof.
  unfold trailing_space, dropCR. destruct (reverse s) as [|c r]; [reflexivity|].
  cbn [rev_trailing_space]. intros H. apply orb_false_iff in H as [H _].
  destruct (Ascii.eqb_spec c CR) as [->|]; [discriminate H | reflexivity].
Qed.

Lemma split_first_eq_app (k v : bytes) :
  ~ In "="%char k -> split_first_eq (k ++ "="%char :: v) = Some (k, v).
Proof.
  induction k as [|c k IH]; intros Hn; cbn [app split_first_eq].
  - reflexivity.
  - destruct (Ascii.eqb_spec c "="%char) as [->|Hne]; [destruct Hn; now left|].
    rewrite IH; [reflexivity|]. intros H. apply Hn. now right.
Qed.

(** A serialized line [k=v] parses back to the pair [(k, v)]. *)
Lemma spec_env_entry_line (k v : bytes) :
  roundtrip_key k -> roundtrip_value v ->
  spec_env_entry (k ++ "="%char :: v) = Some (k, v).
Proof.
  intros (Hne & Hhash & Heq & Hlf & Hsp) (Hvlf & Hvl & Hvt & Hq).
  unfold spec_env_entry. cbv zeta.
  rewrite TrimSpace_id.
  2:{ apply leading_space_key; [exact Hne | now apply has_space_leading]. }
  2:{ now apply trailing_space_line. }
  destruct k as [|c k]; [congruence|]. cbn [app].
  assert (Hc : Ascii.eqb c "#"%char = false).
  { cbn [HasPrefix bs list_ascii_of_string] in Hhash.
    rewrite HasPrefix_nil, Ascii.eqb_sym in Hhash.
    destruct (Ascii.eqb c "#"); [discriminate | reflexivity]. }
  rewrite Hc.
  change (c :: k ++ "="%char :: v) with ((c :: k) ++ "="%char :: v).
  rewrite (split_first_eq_app (c :: k) v Heq).
  rewrite (TrimSpace_id (c :: k) (has_space_leading _ Hsp) (has_space_trailing _ Hsp)).
  rewrite (TrimSpace_id v Hvl Hvt).
  rewrite <- unquote_strip, Hq. reflexivity.
Qed.

Lemma byte_val_inj (x y : ascii) : byte_val x = byte_val y -> x = y.
Proof.
  unfold byte_val. intros H. apply N2Z.inj in H.
  rewrite <- (ascii_N_embedding x), <- (ascii_N_embedding y). now rewrite H.
Qed.

Lemma bytes_compare_Eq (a b : bytes) : bytes_compare a b = Eq -> a = b.
Proof.
  revert b. induction a as [|x a IH]; intros [|y b]; cbn [bytes_compare];
    try discriminate; [reflexivity|].
  destruct (Z.compare_spec (byte_val x) (byte_val y)) as [E| |]; try discriminate.
  intros H. apply byte_val_inj in E. subst y. f_equal. now apply IH.
Qed.

Global Instance bytes_le_total : Total bytes_le.
Proof.
  intros a b. unfold bytes_le, bytes_leb. rewrite (bytes_compare_antisym a b).
  destruct (bytes_compare a b); cbn; auto.
Qed.

Global Instance bytes_le_trans : Transitive bytes_le.
Proof.
  unfold bytes_le, bytes_leb. intros a.
  induction a as [|x a IH]; intros [|y b] [|z c]; cbn [bytes_compare];
    try reflexivity; try discriminate.
  destruct (Z.compare_spec (byte_val x) (byte_val y)),
           (Z.compare_spec (byte_val y) (byte_val z)),
           (Z.compare_spec (byte_val x) (byte_val z));
    try reflexivity; try discriminate; try (exfalso; lia).
  apply IH.
Qed.

Global Instance bytes_le_antisym : AntiSymm eq bytes_le.
Proof.
  intros a b. unfold bytes_le, bytes_leb. rewrite (bytes_compare_antisym a b).
  destruct (bytes_compare a b) eqn:E; cbn; try discriminate.
  intros _ _. now apply bytes_compare_Eq.
Qed.

Lemma raw_lines_unlines (ls : list bytes) :
  Forall (fun l => ~ In LF l) ls ->
  raw_lines (flat_map (fun l => l ++ [LF]) ls) = ls.
Proof.
  unfold raw_lines. induction ls as [|l ls IH]; intros H; [reflexivity|].
  apply Forall_cons in H as [Hl Hls]. cbn [flat_map].
  rewrite <- app_assoc. cbn [app].
  rewrite raw_lines_from_app by exact Hl. cbn. f_equal. now apply IH.
Qed.

Lemma export_unlines (order : list bytes) (store : gmap bytes bytes) :
  flat_map (env_line store) order
  = flat_map (fun l => l ++ [LF]) (map (env_line_text store) order).
Proof.
  induction order as [|k ks IH]; [reflexivity|].
  cbn [flat_map map]. rewrite IH. f_equal.
  unfold env_line, env_line_text. now rewrite <- app_assoc.
Qed.

Lemma fold_insert_lookup (f : bytes -> bytes) (ks : list bytes)
    (env : gmap bytes bytes) (i : bytes) :
  fold_left (fun e k => <[k := f k]> e) ks env !! i
  = if bool_decide (i ∈ ks) then Some (f i) else env !! i.
Proof.
  revert env. induction ks as [|k ks IH]; intros env; [reflexivity|].
  cbn [fold_left]. rewrite IH.
  destruct (bool_decide (i ∈ ks)) eqn:E1.
  - apply bool_decide_eq_true in E1.
    rewrite (bool_decide_eq_true_2 (i ∈ k :: ks)) by (rewrite elem_of_cons; now right).
    reflexivity.
  - apply bool_decide_eq_false in E1.
    destruct (decide (k = i)) as [->|Hne].
    + rewrite lookup_insert_eq.
      rewrite (bool_decide_eq_true_2 (i ∈ i :: ks)) by (rewrite elem_of_cons; now left).
      reflexivity.
    + rewrite lookup_insert_ne by exact Hne.
      rewrite (bool_decide_eq_false_2 (i ∈ k :: ks)); [reflexivity|].
      rewrite elem_of_cons. intros [H|H]; [congruence | contradiction].
Qed.

Lemma fold_env_lines (store : gmap bytes bytes) (ks : list bytes)
    (env : gmap bytes bytes) :
  (forall k, In k ks ->
     roundtrip_key k /\ roundtrip_value (map_index store k)) ->
  fold_left spec_env_add (map dropCR (map (env_line_text store) ks)) env
  = fold_left (fun e k => <[k := map_index store k]> e) ks env.
Proof.
  revert env. induction ks as [|k ks IH]; intros env H; [reflexivity|].
  cbn [map fold_left].
  destruct (H k (or_introl eq_refl)) as [Hk Hv].
  assert (E : spec_env_add env (dropCR (env_line_text store k))
              = <[k := map_index store k]> env).
  { unfold env_line_text.
    rewrite dropCR_id by (apply trailing_space_line; apply Hv).
    unfold spec_env_add. now rewrite (spec_env_entry_line _ _ Hk Hv). }
  rewrite E. apply IH. intros k' Hin. apply H. now right.
Qed.

Lemma sorted_keys (store : gmap bytes bytes) (k : bytes) :
  In k (sort_Strings ((map_to_list store).*1)) <-> is_Some (store !! k).
Proof.
  unfold sort_Strings. rewrite <- list_elem_of_In.
  rewrite (merge_sort_Permutation bytes_le ((map_to_list store).*1)).
  rewrite list_elem_of_fmap. split.
  - intros [[k' v] [-> Hin]]. apply elem_of_map_to_list in Hin. now exists v.
  - intros [v Hv]. exists (k, v). split; [reflexivity|].
    now apply elem_of_map_to_list.
Qed.

(** C9, as the code has it: a map whose keys and values are as required
    ([roundtrip_map]), and whose lines [k=v] each fit the scanner's buffer, is
    parsed back from its serialization; and the serialization lists the
    keys in ascending order, whatever the order in which the map is
    ranged over. *)
Theorem C9_env_roundtrip (m : gmap bytes bytes) :
  (roundtrip_map m -> lines_fit m -> ParseEnvFile (ExportEnvFormat m) = m)
  /\ (exists ks,
        ExportEnvFormat m = flat_map (env_line m) ks
        /\ StronglySorted bytes_le ks
        /\ List.NoDup ks
        /\ ks ≡ₚ (map_to_list m).*1)
  /\ (forall order, order ≡ₚ (map_to_list m).*1 ->
        ExportEnvFormat_in order m = ExportEnvFormat m).
Proof.
  split; [|split].
  - intros Hrt Hfit.
    set (ks := sort_Strings ((map_to_list m).*1)).
    assert (Hks : forall k, In k ks ->
              exists v, m !! k = Some v /\ map_index m k = v).
    { intros k Hin. apply sorted_keys in Hin. destruct Hin as [v Hv].
      exists v. split; [exact Hv|]. unfold map_index. now rewrite Hv. }
    assert (Hgood : forall k, In k ks ->
              roundtrip_key k /\ roundtrip_value (map_index m k)).
    { intros k Hin. destruct (Hks k Hin) as [v [Hv ->]]. now apply Hrt. }
    assert (Hraw : raw_lines (ExportEnvFormat m) = map (env_line_text m) ks).
    { unfold ExportEnvFormat, ExportEnvFormat_in. cbv zeta. fold ks.
      rewrite export_unlines. apply raw_lines_unlines.
      rewrite List.Forall_forall. intros l Hl. apply in_map_iff in Hl.
      destruct Hl as [k [<- Hin]]. destruct (Hgood k Hin) as [Hk Hv].
      unfold env_line_text. intros Hlf. apply in_app_or in Hlf.
      destruct Hk as (_ & _ & _ & Hklf & _). destruct Hv as (Hvlf & _).
      destruct Hlf as [Hlf|[Hlf|Hlf]]; [contradiction | discriminate | contradiction]. }
    rewrite parse_env_file_short.
    2:{ unfold short_lines. rewrite Hraw, List.Forall_forall.
        intros l Hl. apply in_map_iff in Hl. destruct Hl as [k [<- Hin]].
        destruct (Hks k Hin) as [v [Hv Hidx]]. specialize (Hfit k v Hv).
        unfold env_line_text. rewrite Hidx, length_app. cbn [length]. lia. }
    unfold spec_parse_env, text_lines. rewrite Hraw.
    rewrite (fold_env_lines m ks ∅ Hgood).
    apply map_eq. intros i. rewrite fold_insert_lookup.
    destruct (bool_decide (i ∈ ks)) eqn:E.
    + apply bool_decide_eq_true in E. apply list_elem_of_In in E.
      destruct (Hks i E) as [v [Hv ->]]. now rewrite Hv.
    + apply bool_decide_eq_false in E. rewrite lookup_empty.
      destruct (m !! i) as [v|] eqn:Ei; [|reflexivity].
      destruct E. apply list_elem_of_In, sorted_keys. now exists v.
  - exists (sort_Strings ((map_to_list m).*1)). split; [reflexivity|].
    split; [apply StronglySorted_merge_sort; apply _|].
    split.
    + apply NoDup_ListNoDup. unfold sort_Strings.
      rewrite (merge_sort_Permutation bytes_le ((map_to_list m).*1)).
      apply NoDup_fst_map_to_list.
    + apply merge_sort_Permutation.
  - intros order Hperm. unfold ExportEnvFormat, ExportEnvFormat_in. cbv zeta.
    f_equal. apply (StronglySorted_unique bytes_le).
    + apply StronglySorted_merge_sort; apply _.
    + apply StronglySorted_merge_sort; apply _.
    + unfold sort_Strings. now rewrite !merge_sort_Permutation.
Qed.

Lemma unquote_not_quoted (c : ascii) (s : bytes) :
  is_quote c = false -> unquoteEnvValue (c :: s) = c :: s.
Proof.
  intros H. rewrite unquote_strip. unfold strip_quotes.
  destruct (reverse s); [reflexivity|]. now rewrite H.
Qed.

Example export_env_sample :
  ExportEnvFormat env_map_sample = unlines [bs "ALPHA=a"; bs "BETA=b"].
Proof. vm_compute. reflexivity. Qed.

Lemma env_map_sample_ok : roundtrip_map env_map_sample /\ lines_fit env_map_sample.
Proof.
  unfold roundtrip_map, lines_fit, env_map_sample. split; intros k v H;
    apply lookup_insert_Some in H as [[<- <-]|[_ H]];
    try (apply lookup_insert_Some in H as [[<- <-]|[_ H]]);
    try (rewrite lookup_empty in H; discriminate H);
    try (vm_compute; reflexivity);
    (split; [|split]); repeat split; try reflexivity; try discriminate;
    cbn; intuition discriminate.
Qed.

Lemma C9_env_roundtrip_witness :
  ParseEnvFile (ExportEnvFormat env_map_sample) = env_map_sample.
Proof.
  exact (proj1 (C9_env_roundtrip env_map_sample)
               (proj1 env_map_sample_ok) (proj2 env_map_sample_ok)).
Defined.

(** A value of 65535 bytes meets every condition on values, but its
    line does not fit the scanner's buffer and nothing is parsed back. *)
Lemma C9_long_value_counterexample :
  roundtrip_map env_map_long
  /\ ParseEnvFile (ExportEnvFormat env_map_long) = ∅
  /\ ~ env_roundtrip_holds env_map_long.
Proof.
  assert (H1 : roundtrip_map env_map_long).
  { unfold roundtrip_map, env_map_long. intros k v H.
    apply lookup_insert_Some in H as [[<- <-]|[_ H]];
      [|rewrite lookup_empty in H; discriminate H].
    split.
    - repeat split; try reflexivity; try discriminate; cbn; intuition discriminate.
    - split; [|split; [|split]].
      + intros [H|H]; [discriminate H|]. apply repeat_spec in H. discriminate H.
      + vm_compute. reflexivity.
      + vm_compute. reflexivity.
      + apply unquote_not_quoted. reflexivity. }
  assert (H2 : ParseEnvFile (ExportEnvFormat env_map_long) = ∅).
  { unfold ParseEnvFile.
    replace (scanner_lines (ExportEnvFormat env_map_long)) with (@nil bytes)
      by (vm_compute; reflexivity).
    reflexivity. }
  split; [exact H1 | split; [exact H2 |]].
  intros H. specialize (H H1). rewrite H2 in H.
  apply (f_equal (fun m : gmap bytes bytes => m !! bs "K")) in H.
  unfold env_map_long in H. rewrite lookup_empty, lookup_insert_eq in H.
  discriminate H.
Qed.

(** ** The vault *)

Section VaultProperties.
Variable deriveKey : bytes -> bytes -> bytes.
Variable badger_view : bytes -> BadgerDB -> option (gmap bytes bytes).

(** Badger's encryption, idealised: the key a database was created with
    shows its pairs, and no other key shows the verification entry. *)
Hypothesis view_same :
  forall d, badger_view (db_key d) d = Some (db_entries d).
Hypothesis view_auth :
  forall key d view, key <> db_key d -> badger_view key d = Some view ->
    view !! verifyKey <> Some verifyValue.
(** Argon2id, idealised: two passwords do not derive the same key from
    one salt. *)
Hypothesis derive_inj :
  forall salt pw pw', deriveKey pw salt = deriveKey pw' salt -> pw = pw'.

Lemma vault_of_insert (disk : Disk) (ws : bytes) (d : VaultDir) :
  vault_of (<[ws := d]> disk) ws = d.
Proof. unfold vault_of. now rewrite lookup_insert_eq. Qed.

Lemma Init_fresh (disk : Disk) (env : InitEnv) (ws pw salt : bytes) :
  vault_of disk ws = empty_dir ->
  mkdir_ok env = true -> random_salt env = Some salt ->
  write_salt_ok env = true -> create_db env = CreateOk ->
  verify_write_ok env = true -> close_ok env = true ->
  Init deriveKey badger_view disk env ws pw
  = (<[ws := vault_files salt (deriveKey pw salt) (<[verifyKey := verifyValue]> ∅)]> disk,
     None).
Proof.
  intros Hdir H1 H2 H3 H4 H5 H6. unfold Init.
  rewrite H1, Hdir, H2, H3, H4, H5, H6. cbn.
  now rewrite insert_insert_eq.
Qed.

Lemma Open_same_key (disk : Disk) (c : CreateOutcome) (ws pw salt : bytes)
    (entries : gmap bytes bytes) :
  disk !! ws = Some (vault_files salt (deriveKey pw salt) entries) ->
  length salt = saltLen ->
  entries !! verifyKey = Some verifyValue ->
  Open deriveKey badger_view disk c ws pw
  = (disk, inr {| st_workspace := ws; st_key := deriveKey pw salt |}).
Proof.
  intros Hd Hlen Hv. unfold Open, vault_of, saltLen, vault_files in *. rewrite Hd. cbn -[verifyKey verifyValue].
  rewrite Hlen. cbn -[verifyKey verifyValue].
  pose proof (view_same {| db_key := deriveKey pw salt; db_entries := entries |}) as Hs.
  cbn [db_key db_entries] in Hs. rewrite Hs, (bool_decide_eq_true_2 _ Hv).
  now rewrite (insert_id disk ws _ Hd).
Qed.

Lemma Open_other_key (disk : Disk) (c : CreateOutcome) (ws pw pw' salt : bytes)
    (entries : gmap bytes bytes) :
  disk !! ws = Some (vault_files salt (deriveKey pw salt) entries) ->
  length salt = saltLen ->
  deriveKey pw' salt <> deriveKey pw salt ->
  exists e, Open deriveKey badger_view disk c ws pw' = (disk, inl e)
            /\ (e = ErrOpenDB \/ e = ErrWrongPasswordOrCorrupt).
Proof.
  intros Hd Hlen Hne. unfold Open, vault_of, saltLen, vault_files in *. rewrite Hd. cbn -[verifyKey verifyValue].
  rewrite Hlen. cbn -[verifyKey verifyValue].
  destruct (badger_view _ _) as [view|] eqn:E.
  - pose proof (view_auth _ {| db_key := deriveKey pw salt; db_entries := entries |} _ Hne E) as Hno.
    rewrite (bool_decide_eq_false_2 _ Hno).
    exists ErrWrongPasswordOrCorrupt. rewrite (insert_id disk ws _ Hd). auto.
  - exists ErrOpenDB. rewrite (insert_id disk ws _ Hd). auto.
Qed.


Lemma Get_same_key (disk : Disk) (ws salt key k : bytes) (entries : gmap bytes bytes) :
  disk !! ws = Some (vault_files salt key entries) ->
  Get badger_view disk {| st_workspace := ws; st_key := key |} k
  = get_result entries k.
Proof.
  intros Hd. unfold Get, get_result, store_view, vault_of. cbn [st_workspace st_key].
  unfold vault_files in *. rewrite Hd. cbn.
  pose proof (view_same {| db_key := key; db_entries := entries |}) as Hs.
  cbn [db_key db_entries] in Hs. now rewrite Hs.
Qed.




(** C8, on the code: what [Init] leaves behind when it fails.  (a) When the database cannot
    be opened, the salt is removed and the [db] directory is left in the
    state the failed [badger.Open] put it in, a created directory
    included.  (b) When the verification entry cannot be written, the salt
    and the [db] directory are both removed.  In both cases
    [IsInitialized] stays false.  (c) On an initialized workspace [Init]
    fails and changes nothing. *)
Theorem C8_init_failure_cleanup
    (disk : Disk) (env : InitEnv) (ws pw salt : bytes) :
  (vault_of disk ws = empty_dir ->
   mkdir_ok env = true -> random_salt env = Some salt -> write_salt_ok env = true ->
   (forall leaves, create_db env = CreateFail leaves ->
      exists disk',
        Init deriveKey badger_view disk env ws pw = (disk', Some ErrCreateDB)
        /\ IsInitialized disk' ws = false
        /\ db_dir (vault_of disk' ws) = (if leaves then Some DbPartial else None))
   /\ (create_db env = CreateOk -> verify_write_ok env = false ->
       exists disk',
         Init deriveKey badger_view disk env ws pw = (disk', Some ErrWriteVerify)
         /\ IsInitialized disk' ws = false
         /\ db_dir (vault_of disk' ws) = None))
  /\ (IsInitialized disk ws = true ->
      exists e, Init deriveKey badger_view disk env ws pw = (disk, Some e)).
Proof.
  split.
  - intros Hdir H1 H2 H3. split.
    + intros leaves H4. eexists. unfold Init.
      rewrite H1, Hdir, H2, H3, H4. cbn -[verifyKey verifyValue].
      split; [reflexivity|]. rewrite vault_of_insert. cbn.
      split; [|reflexivity].
      unfold IsInitialized. rewrite vault_of_insert. reflexivity.
    + intros H4 H5. eexists. unfold Init.
      rewrite H1, Hdir, H2, H3, H4, H5. cbn -[verifyKey verifyValue].
      split; [reflexivity|]. rewrite vault_of_insert. cbn.
      split; [|reflexivity].
      unfold IsInitialized. rewrite vault_of_insert. reflexivity.
  - unfold IsInitialized, vault_of. intros H. apply bool_decide_eq_true in H.
    destruct (disk !! ws) as [dir|] eqn:E; cbn in H; [|destruct H; discriminate].
    destruct H as [s Hs]. unfold Init, vault_of. rewrite E.
    destruct (mkdir_ok env); cbn [negb]; [|eauto].
    cbv zeta. cbn [default from_option id]. rewrite Hs, (insert_id disk ws dir E). eauto.
Qed.
End VaultProperties.

Lemma toy_view_same (d : BadgerDB) : toy_view (db_key d) d = Some (db_entries d).
Proof.
  unfold toy_view. now rewrite (proj2 (bytes_eqb_true (db_key d) (db_key d)) eq_refl).
Qed.

Lemma toy_view_auth (key : bytes) (d : BadgerDB) (view : gmap bytes bytes) :
  key <> db_key d -> toy_view key d = Some view ->
  view !! verifyKey <> Some verifyValue.
Proof.
  intros Hne. unfold toy_view. apply bytes_eqb_false in Hne. rewrite Hne. discriminate.
Qed.

Lemma vault_of_empty (ws : bytes) : vault_of ∅ ws = empty_dir.
Proof. unfold vault_of. now rewrite lookup_empty. Qed.



(** The wrong password of scenario 4 is refused. *)
Example wrong_password_refused :
  toy_deriveKey (bs "wrong") salt0 <> toy_deriveKey (bs "pw") salt0.
Proof. discriminate. Qed.


Lemma C8_init_failure_witness :
  exists disk',
    Init toy_deriveKey toy_view ∅ env_open_fails (bs "ws") (bs "pw")
      = (disk', Some ErrCreateDB)
    /\ IsInitialized disk' (bs "ws") = false
    /\ db_dir (vault_of disk' (bs "ws")) = Some DbPartial.
Proof.
  exact (proj1 (proj1 (C8_init_failure_cleanup toy_deriveKey toy_view
                         ∅ env_open_fails (bs "ws") (bs "pw") salt0)
                      (vault_of_empty _) eq_refl eq_refl eq_refl)
               true eq_refl).
Defined.

(** ** The vault: the other operations of a store *)

Lemma get_result_stored (entries : gmap bytes bytes) (k v : bytes) :
  k <> [] -> entries !! k = Some v -> get_result entries k = inr v.
Proof.
  intros Hk Hv. unfold get_result. now rewrite (proj2 (bytes_eqb_false k []) Hk), Hv.
Qed.

Lemma get_result_absent (entries : gmap bytes bytes) (k : bytes) :
  k <> [] -> entries !! k = None -> get_result entries k = inl (ErrKeyNotFound k).
Proof.
  intros Hk Hv. unfold get_result. now rewrite (proj2 (bytes_eqb_false k []) Hk), Hv.
Qed.

Lemma get_result_ext (entries entries' : gmap bytes bytes) (k : bytes) :
  entries !! k = entries' !! k -> get_result entries k = get_result entries' k.
Proof. intros H. unfold get_result. now rewrite H. Qed.

Lemma modify_error_key (k v : bytes) : modify_error k v = None -> k <> [].
Proof. intros H ->. discriminate H. Qed.

(** The pairs that Badger accepts. *)
Lemma modify_error_accepts (k v : bytes) :
  modify_error k v = None
  <-> k <> [] /\ HasPrefix k (bs "!badger!") = false
      /\ (Z.of_nat (length k) <= 65000)%Z
      /\ (Z.of_nat (length v) <= 1073741823)%Z.
Proof.
  unfold modify_error, badgerPrefix, maxKeySize, ValueLogFileSize.
  change (Z.shiftl 1 30 - 1)%Z with 1073741823%Z.
  destruct (bytes_eqb k []) eqn:Ek.
  { apply bytes_eqb_true in Ek. split; [discriminate | intros [H _]; contradiction]. }
  apply bytes_eqb_false in Ek.
  destruct (HasPrefix k (bs "!badger!")) eqn:Ep.
  { split; [discriminate | intros [_ [H _]]; discriminate]. }
  destruct (65000 <? Z.of_nat (length k))%Z eqn:El.
  { apply Z.ltb_lt in El. split; [discriminate | intros [_ [_ [H _]]]; lia]. }
  apply Z.ltb_ge in El.
  destruct (1073741823 <? Z.of_nat (length v))%Z eqn:Ev.
  { apply Z.ltb_lt in Ev. split; [discriminate | intros [_ [_ [_ H]]]; lia]. }
  apply Z.ltb_ge in Ev. split; [intros _; repeat split; assumption | reflexivity].
Qed.

(** [ParseEnvFile] skips the lines with an empty key. *)
Lemma parse_env_line_names_key (env : gmap bytes bytes) (text : bytes) :
  env !! [] = None -> parse_env_line env text !! [] = None.
Proof.
  intros Henv. unfold parse_env_line. cbv zeta.
  destruct (bytes_eqb (TrimSpace text) [] || HasPrefix (TrimSpace text) (bs "#"));
    [exact Henv|].
  destruct (IndexByte (TrimSpace text) "=") as [idx|]; [|exact Henv].
  destruct (bytes_eqb (TrimSpace (firstn idx (TrimSpace text))) []) eqn:E; [exact Henv|].
  apply bytes_eqb_false in E. rewrite lookup_insert_ne by exact E. exact Henv.
Qed.

Lemma ParseEnvFile_names_keys (data : bytes) : ParseEnvFile data !! [] = None.
Proof.
  unfold ParseEnvFile. generalize (scanner_lines data). intros lines.
  assert (H : forall env : gmap bytes bytes,
            env !! [] = None -> fold_left parse_env_line lines env !! [] = None).
  { induction lines as [|text lines IH]; intros env Henv; [exact Henv|].
    cbn [fold_left]. apply IH. now apply parse_env_line_names_key. }
  apply H, lookup_empty.
Qed.

Section VaultStoreProperties.
Variable deriveKey : bytes -> bytes -> bytes.
Variable badger_view : bytes -> BadgerDB -> option (gmap bytes bytes).
Hypothesis view_same :
  forall d, badger_view (db_key d) d = Some (db_entries d).
Hypothesis view_auth :
  forall key d view, key <> db_key d -> badger_view key d = Some view ->
    view !! verifyKey <> Some verifyValue.

Lemma holds_view (disk : Disk) (s : Store) (salt : bytes) (entries : gmap bytes bytes) :
  store_holds disk s salt entries -> store_view badger_view disk s = Some entries.
Proof.
  intros Hd. unfold store_view, vault_of. rewrite Hd. cbn.
  exact (view_same {| db_key := st_key s; db_entries := entries |}).
Qed.

Lemma holds_get (disk : Disk) (s : Store) (salt : bytes) (entries : gmap bytes bytes) (k : bytes) :
  store_holds disk s salt entries -> Get badger_view disk s k = get_result entries k.
Proof. intros H. unfold Get, get_result. now rewrite (holds_view _ _ _ _ H). Qed.

Lemma get_empty_key (disk : Disk) (s : Store) :
  Get badger_view disk s [] = inl (ErrBadger ErrEmptyKey).
Proof. reflexivity. Qed.

Lemma delete_empty_key (disk : Disk) (s : Store) (txn_ok : bool) :
  Delete badger_view disk s txn_ok [] = (disk, Some (ErrBadger ErrEmptyKey)).
Proof. reflexivity. Qed.

Lemma Delete_named (disk : Disk) (s : Store) (txn_ok : bool) (k : bytes) :
  k <> [] ->
  Delete badger_view disk s txn_ok k
  = match store_view badger_view disk s with
    | None => (disk, Some ErrTxn)
    | Some view =>
        match view !! k with
        | None => (disk, Some (ErrKeyNotFound k))
        | Some _ =>
            if txn_ok then
              (with_db disk (st_workspace s)
                 (db_delete k (db_dir (vault_of disk (st_workspace s)))), None)
            else (disk, Some ErrTxn)
        end
    end.
Proof. intros Hk. unfold Delete. now rewrite (proj2 (bytes_eqb_false k []) Hk). Qed.

Lemma holds_with_db (disk : Disk) (s : Store) (salt : bytes) (entries entries' : gmap bytes bytes) :
  store_holds disk s salt entries ->
  store_holds
    (with_db disk (st_workspace s)
       (Some (DbFiles {| db_key := st_key s; db_entries := entries' |})))
    s salt entries'.
Proof.
  intros Hd. unfold store_holds, with_db, vault_of.
  rewrite lookup_insert_eq, Hd. reflexivity.
Qed.

Lemma holds_db_dir (disk : Disk) (s : Store) (salt : bytes) (entries : gmap bytes bytes) :
  store_holds disk s salt entries ->
  db_dir (vault_of disk (st_workspace s))
  = Some (DbFiles {| db_key := st_key s; db_entries := entries |}).
Proof. intros Hd. unfold vault_of. now rewrite Hd. Qed.

Lemma holds_set (disk : Disk) (s : Store) (salt : bytes) (entries : gmap bytes bytes) (k v : bytes) :
  store_holds disk s salt entries ->
  modify_error k v = None ->
  exists disk', Set_ disk s true k v = (disk', None)
                /\ store_holds disk' s salt (<[k := v]> entries).
Proof.
  intros H Hok. unfold Set_. rewrite Hok. eexists. split; [reflexivity|].
  pose proof (holds_with_db disk s salt entries (<[k := v]> entries) H) as H'.
  unfold with_db in H'. now rewrite (holds_db_dir _ _ _ _ H).
Qed.

(** X1: in an open store, a pair that Badger accepts is set and read
    back, and the other keys read as before; a stored key reads as its
    value and an absent key as not found, but for the empty key, which
    reads as Badger's empty-key error; a failed transaction changes
    nothing; and a pair that Badger refuses is not written, [Set]
    returning Badger's error: the empty key, a key that starts with
    Badger's prefix, a key of more than 65000 bytes, a value of more
    than [1<<30 - 1] bytes. *)
Theorem store_set_then_get
    (disk : Disk) (s : Store) (salt : bytes) (entries : gmap bytes bytes) (k v : bytes) :
  store_holds disk s salt entries ->
  modify_error k v = None ->
  exists disk',
    Set_ disk s true k v = (disk', None)
    /\ Get badger_view disk' s k = inr v
    /\ (forall k', k' <> k -> Get badger_view disk' s k' = Get badger_view disk s k')
    /\ (forall k' v', k' <> [] -> entries !! k' = Some v' ->
          Get badger_view disk s k' = inr v')
    /\ (forall k', k' <> [] -> entries !! k' = None ->
          Get badger_view disk s k' = inl (ErrKeyNotFound k'))
    /\ Get badger_view disk s [] = inl (ErrBadger ErrEmptyKey)
    /\ Set_ disk s false k v = (disk, Some ErrTxn)
    /\ (forall k' v' e txn_ok, modify_error k' v' = Some e ->
          Set_ disk s txn_ok k' v' = (disk, Some (ErrBadger e)))
    /\ (forall k' v',
          modify_error k' v' = None
          <-> k' <> [] /\ HasPrefix k' (bs "!badger!") = false
              /\ (Z.of_nat (length k') <= 65000)%Z
              /\ (Z.of_nat (length v') <= 1073741823)%Z).
Proof.
  intros H Hok. destruct (holds_set disk s salt entries k v H Hok) as [disk' [HS H']].
  exists disk'. split; [exact HS|].
  split.
  { rewrite (holds_get _ _ _ _ k H'). apply get_result_stored.
    - exact (modify_error_key k v Hok).
    - apply lookup_insert_eq. }
  split.
  { intros k' Hne. rewrite (holds_get _ _ _ _ k' H'), (holds_get _ _ _ _ k' H).
    apply get_result_ext. now apply lookup_insert_ne. }
  split.
  { intros k' v' Hk' Hv'. rewrite (holds_get _ _ _ _ k' H).
    now apply get_result_stored. }
  split.
  { intros k' Hk' Hno. rewrite (holds_get _ _ _ _ k' H).
    now apply get_result_absent. }
  split; [reflexivity|].
  split; [unfold Set_; now rewrite Hok|].
  split; [intros k' v' e txn_ok He; unfold Set_; now rewrite He|].
  exact modify_error_accepts.
Qed.

Lemma holds_delete (disk : Disk) (s : Store) (salt : bytes) (entries : gmap bytes bytes) (k : bytes) :
  store_holds disk s salt entries -> k <> [] -> is_Some (entries !! k) ->
  exists disk', Delete badger_view disk s true k = (disk', None)
                /\ store_holds disk' s salt (delete k entries).
Proof.
  intros H Hk [v Hv]. rewrite (Delete_named _ _ _ _ Hk), (holds_view _ _ _ _ H), Hv.
  eexists. split; [reflexivity|].
  rewrite (holds_db_dir _ _ _ _ H). cbn [db_delete db_key db_entries].
  now apply (holds_with_db disk s salt entries).
Qed.

(** X2: deleting the empty key fails with Badger's empty-key error;
    deleting another key that is absent fails with key-not-found; both
    leave the files as they are; deleting a stored key makes it read as
    not found and leaves the other keys as they were. *)
Theorem store_delete
    (disk : Disk) (s : Store) (salt : bytes) (entries : gmap bytes bytes) (k : bytes) :
  store_holds disk s salt entries ->
  k <> [] ->
  (forall txn_ok, Delete badger_view disk s txn_ok [] = (disk, Some (ErrBadger ErrEmptyKey)))
  /\ (entries !! k = None ->
      forall txn_ok, Delete badger_view disk s txn_ok k = (disk, Some (ErrKeyNotFound k)))
  /\ (is_Some (entries !! k) ->
      exists disk',
        Delete badger_view disk s true k = (disk', None)
        /\ Get badger_view disk' s k = inl (ErrKeyNotFound k)
        /\ (forall k', k' <> k ->
              Get badger_view disk' s k' = Get badger_view disk s k')
        /\ Delete badger_view disk s false k = (disk, Some ErrTxn)).
Proof.
  intros H Hne. split; [reflexivity|]. split.
  - intros Hk txn_ok. now rewrite (Delete_named _ _ _ _ Hne), (holds_view _ _ _ _ H), Hk.
  - intros Hk. destruct (holds_delete disk s salt entries k H Hne Hk) as [disk' [HD H']].
    exists disk'. split; [exact HD|].
    split.
    { rewrite (holds_get _ _ _ _ k H'). apply get_result_absent; [exact Hne|].
      apply lookup_delete_eq. }
    split.
    + intros k' Hne'. rewrite (holds_get _ _ _ _ k' H'), (holds_get _ _ _ _ k' H).
      apply get_result_ext. now apply lookup_delete_ne.
    + destruct Hk as [v Hv].
      now rewrite (Delete_named _ _ _ _ Hne), (holds_view _ _ _ _ H), Hv.
Qed.

Lemma keys_of_map (m : gmap bytes bytes) (k : bytes) :
  In k ((map_to_list m).*1) <-> is_Some (m !! k).
Proof.
  rewrite <- list_elem_of_In, list_elem_of_fmap. split.
  - intros [[k' v] [-> Hin]]. apply elem_of_map_to_list in Hin. now exists v.
  - intros [v Hv]. exists (k, v). split; [reflexivity|].
    now apply elem_of_map_to_list.
Qed.

Lemma user_keys_In (entries : gmap bytes bytes) (k : bytes) :
  In k (sort_Strings (List.filter (fun k => negb (internal_key k))
                        ((map_to_list entries).*1)))
  <-> is_Some (entries !! k) /\ internal_key k = false.
Proof.
  unfold sort_Strings. rewrite <- list_elem_of_In.
  rewrite merge_sort_Permutation, list_elem_of_In, filter_In, keys_of_map.
  rewrite negb_true_iff. reflexivity.
Qed.

(** X3: [List] gives the stored keys that are not internal, each once, in
    ascending order; the verification key is never among them. *)
Theorem store_list_sorted_user_keys
    (disk : Disk) (s : Store) (salt : bytes) (entries : gmap bytes bytes) :
  store_holds disk s salt entries ->
  exists keys,
    List_ badger_view disk s = inr keys
    /\ StronglySorted bytes_le keys
    /\ List.NoDup keys
    /\ (forall k, In k keys <-> is_Some (entries !! k) /\ internal_key k = false)
    /\ ~ In verifyKey keys.
Proof.
  intros H. unfold List_. rewrite (holds_view _ _ _ _ H). cbv zeta.
  eexists. split; [reflexivity|].
  split; [apply StronglySorted_merge_sort; apply _|].
  split.
  - apply NoDup_ListNoDup. unfold sort_Strings. rewrite merge_sort_Permutation.
    apply NoDup_ListNoDup, List.NoDup_filter, NoDup_ListNoDup, NoDup_fst_map_to_list.
  - split; [exact (user_keys_In entries)|]. intros Hin. apply user_keys_In in Hin.
    destruct Hin as [_ Hin]. discriminate Hin.
Qed.

Lemma lookup_user_part (entries : gmap bytes bytes) (k : bytes) :
  filter (fun kv : bytes * bytes => internal_key kv.1 = false) entries !! k
  = if internal_key k then None else entries !! k.
Proof.
  rewrite map_lookup_filter. destruct (entries !! k) as [v|]; cbn.
  - destruct (internal_key k) eqn:E.
    + rewrite option_guard_False by (cbn; congruence). reflexivity.
    + rewrite option_guard_True by (cbn; congruence). reflexivity.
  - now destruct (internal_key k).
Qed.

(** X4: [All] gives the stored pairs whose key is not internal, and [List]
    gives the keys of [All]. *)
Theorem store_all_user_pairs
    (disk : Disk) (s : Store) (salt : bytes) (entries : gmap bytes bytes) :
  store_holds disk s salt entries ->
  exists m keys,
    All badger_view disk s = inr m
    /\ List_ badger_view disk s = inr keys
    /\ (forall k, m !! k = if internal_key k then None else entries !! k)
    /\ (forall k, In k keys <-> is_Some (m !! k)).
Proof.
  intros H. unfold All, List_. rewrite (holds_view _ _ _ _ H). cbv zeta.
  eexists. eexists. split; [reflexivity|]. split; [reflexivity|].
  split; [exact (lookup_user_part entries)|].
  intros k. rewrite user_keys_In, lookup_user_part. destruct (internal_key k).
  - split; [intros [_ E]; discriminate | intros [x Hx]; discriminate].
  - split; [intros [Hs _]; exact Hs | intros Hs; split; [exact Hs | reflexivity]].
Qed.

Lemma holds_import (disk : Disk) (s : Store) (salt : bytes) (entries new : gmap bytes bytes) :
  store_holds disk s salt entries ->
  exists disk', ImportEnvEntries disk s true new = (disk', None)
                /\ store_holds disk' s salt (new ∪ entries).
Proof.
  intros H. unfold ImportEnvEntries. eexists. split; [reflexivity|].
  rewrite (holds_db_dir _ _ _ _ H). cbn [db_import db_key db_entries].
  now apply (holds_with_db disk s salt entries).
Qed.

Lemma holds_all (disk : Disk) (s : Store) (salt : bytes) (entries : gmap bytes bytes) :
  store_holds disk s salt entries ->
  All badger_view disk s
  = inr (filter (fun kv : bytes * bytes => internal_key kv.1 = false) entries).
Proof. intros H. unfold All. now rewrite (holds_view _ _ _ _ H). Qed.

Lemma Open_holds (disk : Disk) (c : CreateOutcome) (ws pw salt : bytes)
    (entries : gmap bytes bytes) :
  disk !! ws = Some (vault_files salt (deriveKey pw salt) entries) ->
  length salt = saltLen ->
  entries !! verifyKey = Some verifyValue ->
  Open deriveKey badger_view disk c ws pw
  = (disk, inr {| st_workspace := ws; st_key := deriveKey pw salt |})
  /\ store_holds disk {| st_workspace := ws; st_key := deriveKey pw salt |} salt entries.
Proof.
  intros Hd Hlen Hv. split.
  - now apply (Open_same_key deriveKey badger_view view_same disk c ws pw salt entries).
  - exact Hd.
Qed.

Lemma Open_locked (disk : Disk) (c : CreateOutcome) (ws pw salt : bytes)
    (entries : gmap bytes bytes) :
  disk !! ws = Some (vault_files salt (deriveKey pw salt) entries) ->
  length salt = saltLen ->
  entries !! verifyKey <> Some verifyValue ->
  Open deriveKey badger_view disk c ws pw = (disk, inl ErrWrongPasswordOrCorrupt).
Proof.
  intros Hd Hlen Hv. unfold Open, vault_of, saltLen, vault_files in *. rewrite Hd.
  cbn -[verifyKey verifyValue]. rewrite Hlen. cbn -[verifyKey verifyValue].
  pose proof (view_same {| db_key := deriveKey pw salt; db_entries := entries |}) as Hs.
  cbn [db_key db_entries] in Hs. rewrite Hs, (bool_decide_eq_false_2 _ Hv).
  now rewrite (insert_id disk ws _ Hd).
Qed.

(** X5: a file whose parsed pairs are merged into the vault: every parsed
    pair is read back, the keys the file does not name keep their values,
    and a failed transaction changes nothing. *)
Theorem import_env_file_merges
    (disk : Disk) (c : CreateOutcome) (ws pw salt data : bytes)
    (entries : gmap bytes bytes) :
  disk !! ws = Some (vault_files salt (deriveKey pw salt) entries) ->
  length salt = saltLen ->
  entries !! verifyKey = Some verifyValue ->
  ParseEnvFile data <> ∅ ->
  let s := {| st_workspace := ws; st_key := deriveKey pw salt |} in
  exists disk',
    ImportEnvFile deriveKey badger_view disk c true ws pw (Some data) = (disk', None)
    /\ (forall k v, ParseEnvFile data !! k = Some v -> Get badger_view disk' s k = inr v)
    /\ (forall k, ParseEnvFile data !! k = None ->
          Get badger_view disk' s k = Get badger_view disk s k)
    /\ ImportEnvFile deriveKey badger_view disk c false ws pw (Some data)
       = (disk, Some (ErrVault ErrTxn)).
Proof.
  intros Hd Hlen Hv Hne s.
  destruct (Open_holds disk c ws pw salt entries Hd Hlen Hv) as [HO H].
  fold s in HO, H.
  destruct (holds_import disk s salt entries (ParseEnvFile data) H) as [disk' [HI H']].
  assert (Hsz : (size (ParseEnvFile data) =? 0)%nat = false).
  { apply Nat.eqb_neq. intros Hz. apply Hne. now apply map_size_empty_iff. }
  exists disk'. unfold ImportEnvFile. cbv zeta. rewrite Hsz, HO. fold s. rewrite HI.
  split; [reflexivity|]. split; [|split].
  - intros k v Hk. rewrite (holds_get _ _ _ _ k H'). apply get_result_stored.
    + intros ->. rewrite ParseEnvFile_names_keys in Hk. discriminate Hk.
    + exact (lookup_union_Some_l _ _ _ _ Hk).
  - intros k Hk. rewrite (holds_get _ _ _ _ k H'), (holds_get _ _ _ _ k H).
    apply get_result_ext. exact (lookup_union_r _ _ _ Hk).
  - reflexivity.
Qed.

(** X6: the order of the checks of [ImportEnvFile]: a file that cannot be
    read is reported first; then a file without any pair, whatever the
    password and the state of the vault; only then the vault is opened,
    so a file with pairs for a workspace without a vault fails at the
    salt.  In all three cases the files are not touched. *)
Theorem import_env_file_checks
    (disk : Disk) (c : CreateOutcome) (txn_ok : bool) (ws pw data : bytes) :
  ImportEnvFile deriveKey badger_view disk c txn_ok ws pw None
    = (disk, Some ErrReadSource)
  /\ (ParseEnvFile data = ∅ ->
      ImportEnvFile deriveKey badger_view disk c txn_ok ws pw (Some data)
      = (disk, Some ErrNoPairs))
  /\ (ParseEnvFile data <> ∅ -> IsInitialized disk ws = false ->
      ImportEnvFile deriveKey badger_view disk c txn_ok ws pw (Some data)
      = (disk, Some (ErrVault ErrReadSalt))).
Proof.
  unfold ImportEnvFile. cbv zeta. split; [reflexivity|]. split.
  - intros He. now rewrite He.
  - intros Hne Hinit.
    destruct (size (ParseEnvFile data) =? 0)%nat eqn:Hsz.
    { apply Nat.eqb_eq, map_size_empty_iff in Hsz. contradiction. }
    unfold Open. unfold IsInitialized, vault_of in Hinit.
    apply bool_decide_eq_false in Hinit.
    destruct (disk !! ws) as [dir|]; cbn in Hinit |- *; [|reflexivity].
    destruct (salt_file dir) as [salt|]; [|reflexivity].
    destruct Hinit. now eexists.
Qed.

(** X7: the import writes the verification key like any other key: a
    file that gives it another value is imported without error, and from
    then on the vault refuses the right password. *)
Theorem import_env_file_can_lock_vault
    (disk : Disk) (c : CreateOutcome) (ws pw salt data v : bytes)
    (entries : gmap bytes bytes) :
  disk !! ws = Some (vault_files salt (deriveKey pw salt) entries) ->
  length salt = saltLen ->
  entries !! verifyKey = Some verifyValue ->
  ParseEnvFile data !! verifyKey = Some v ->
  v <> verifyValue ->
  exists disk',
    ImportEnvFile deriveKey badger_view disk c true ws pw (Some data) = (disk', None)
    /\ forall c', Open deriveKey badger_view disk' c' ws pw
                  = (disk', inl ErrWrongPasswordOrCorrupt).
Proof.
  intros Hd Hlen Hv Hk Hne.
  set (s := {| st_workspace := ws; st_key := deriveKey pw salt |}).
  destruct (Open_holds disk c ws pw salt entries Hd Hlen Hv) as [HO H].
  fold s in HO, H.
  destruct (holds_import disk s salt entries (ParseEnvFile data) H) as [disk' [HI H']].
  assert (Hsz : (size (ParseEnvFile data) =? 0)%nat = false).
  { apply Nat.eqb_neq. intros Hz. apply map_size_empty_iff in Hz.
    rewrite Hz, lookup_empty in Hk. discriminate. }
  exists disk'. unfold ImportEnvFile. cbv zeta. rewrite Hsz, HO, HI.
  split; [reflexivity|]. intros c'.
  apply (Open_locked disk' c' ws pw salt _ H' Hlen).
  rewrite (lookup_union_Some_l _ _ _ _ Hk). congruence.
Qed.

Lemma delete_each_holds (s : Store) (salt : bytes) (keys : list bytes) :
  forall (disk : Disk) (entries : gmap bytes bytes),
    store_holds disk s salt entries ->
    List.NoDup keys ->
    (forall k, In k keys -> k <> [] /\ is_Some (entries !! k)) ->
    exists disk' entries',
      delete_each badger_view disk s (fun _ => true) keys = (disk', None)
      /\ store_holds disk' s salt entries'
      /\ (forall k, In k keys -> entries' !! k = None)
      /\ (forall k, ~ In k keys -> entries' !! k = entries !! k).
Proof.
  induction keys as [|k keys IH]; intros disk entries H Hnd Hin.
  - exists disk, entries. cbn. split; [reflexivity|]. split; [exact H|].
    split; [intros k []| reflexivity].
  - apply List.NoDup_cons_iff in Hnd as [Hk Hnd].
    destruct (Hin k (or_introl eq_refl)) as [Hne Hsome].
    destruct (holds_delete disk s salt entries k H Hne Hsome) as [disk1 [HD H1]].
    destruct (IH disk1 (delete k entries) H1 Hnd) as [disk' [entries' [HE [H' [Hgone Hkept]]]]].
    { intros k' Hk'. rewrite lookup_delete_ne by (intros ->; contradiction).
      apply Hin. now right. }
    exists disk', entries'. cbn [delete_each]. rewrite HD.
    split; [exact HE|]. split; [exact H'|]. split.
    + intros k' [<-|Hk']; [|now apply Hgone].
      rewrite (Hkept k Hk). apply lookup_delete_eq.
    + intros k' Hk'. rewrite Hkept by (intros Hx; apply Hk'; now right).
      apply lookup_delete_ne. intros ->. apply Hk'. now left.
Qed.

Lemma range_user_keys (range : gmap bytes bytes -> list bytes)
    (entries : gmap bytes bytes) :
  (forall m, range m ≡ₚ (map_to_list m).*1) ->
  let keys := range (filter (fun kv : bytes * bytes => internal_key kv.1 = false) entries) in
  List.NoDup keys
  /\ (forall k, In k keys <-> is_Some (entries !! k) /\ internal_key k = false).
Proof.
  intros Hr keys. split.
  - apply NoDup_ListNoDup. unfold keys. rewrite Hr. apply NoDup_fst_map_to_list.
  - intros k. unfold keys. rewrite <- list_elem_of_In, Hr, list_elem_of_In, keys_of_map.
    rewrite lookup_user_part. destruct (internal_key k).
    + split; [intros [x Hx]; discriminate | intros [_ Hx]; discriminate].
    + split; [intros Hs; split; [exact Hs | reflexivity] | intros [Hs _]; exact Hs].
Qed.

Lemma replace_all_holds
    (range : gmap bytes bytes -> list bytes)
    (disk : Disk) (c : CreateOutcome) (ws pw salt : bytes)
    (entries store : gmap bytes bytes) :
  disk !! ws = Some (vault_files salt (deriveKey pw salt) entries) ->
  length salt = saltLen ->
  entries !! verifyKey = Some verifyValue ->
  (forall m, range m ≡ₚ (map_to_list m).*1) ->
  entries !! [] = None ->
  exists disk' entries',
    ReplaceAll deriveKey badger_view range disk c (fun _ => true) true ws pw store
      = (disk', None)
    /\ store_holds disk' {| st_workspace := ws; st_key := deriveKey pw salt |} salt entries'
    /\ (forall k, entries' !! k
                  = match store !! k with
                    | Some v => Some v
                    | None => if internal_key k then entries !! k else None
                    end).
Proof.
  intros Hd Hlen Hv Hr Hnamed.
  set (s := {| st_workspace := ws; st_key := deriveKey pw salt |}).
  destruct (Open_holds disk c ws pw salt entries Hd Hlen Hv) as [HO H].
  fold s in HO, H.
  destruct (range_user_keys range entries Hr) as [Hnd Hkeys].
  destruct (delete_each_holds s salt _ disk entries H Hnd) as [disk1 [e1 [HE [H1 [Hgone Hkept]]]]].
  { intros k Hk. apply Hkeys in Hk. destruct Hk as [[x Hx] _].
    split; [intros ->; congruence | now exists x]. }
  destruct (holds_import disk1 s salt e1 store H1) as [disk' [HI H']].
  exists disk', (store ∪ e1). unfold ReplaceAll. rewrite HO.
  rewrite (holds_all _ _ _ _ H), HE, HI.
  split; [reflexivity|]. split; [exact H'|].
  intros k. destruct (store !! k) as [v|] eqn:Hk.
  - now apply lookup_union_Some_l.
  - rewrite (lookup_union_r _ _ _ Hk).
    destruct (internal_key k) eqn:Hi.
    + apply Hkept. intros Hin. apply Hkeys in Hin. destruct Hin as [_ Hx]. congruence.
    + destruct (entries !! k) as [x|] eqn:E.
      * apply Hgone, Hkeys. split; [now exists x | exact Hi].
      * rewrite Hkept, E; [reflexivity|]. intros Hin. apply Hkeys in Hin.
        destruct Hin as [[x Hx] _]. congruence.
Qed.

(** X8: [ReplaceAll] with the right password, in whatever order the
    existing keys are ranged over, with a new store whose pairs Badger
    accepts: afterwards every pair of the new store is read back, a user
    key outside the new store is gone, the empty key reads as Badger's
    empty-key error, an internal key outside the new store keeps its
    value, and [All] shows the new store without its internal keys. *)
Theorem replace_all_result
    (range : gmap bytes bytes -> list bytes)
    (disk : Disk) (c : CreateOutcome) (ws pw salt : bytes)
    (entries store : gmap bytes bytes) :
  disk !! ws = Some (vault_files salt (deriveKey pw salt) entries) ->
  length salt = saltLen ->
  entries !! verifyKey = Some verifyValue ->
  (forall m, range m ≡ₚ (map_to_list m).*1) ->
  entries !! [] = None ->
  (forall k v, store !! k = Some v -> modify_error k v = None) ->
  let s := {| st_workspace := ws; st_key := deriveKey pw salt |} in
  exists disk',
    ReplaceAll deriveKey badger_view range disk c (fun _ => true) true ws pw store
      = (disk', None)
    /\ (forall k v, store !! k = Some v -> Get badger_view disk' s k = inr v)
    /\ (forall k, k <> [] -> store !! k = None -> internal_key k = false ->
          Get badger_view disk' s k = inl (ErrKeyNotFound k))
    /\ Get badger_view disk' s [] = inl (ErrBadger ErrEmptyKey)
    /\ (forall k, store !! k = None -> internal_key k = true ->
          Get badger_view disk' s k = Get badger_view disk s k)
    /\ All badger_view disk' s
       = inr (filter (fun kv : bytes * bytes => internal_key kv.1 = false) store).
Proof.
  intros Hd Hlen Hv Hr Hnamed Hstore s.
  destruct (Open_holds disk c ws pw salt entries Hd Hlen Hv) as [_ H].
  destruct (replace_all_holds range disk c ws pw salt entries store Hd Hlen Hv Hr Hnamed)
    as [disk' [e' [HR [H' He']]]].
  fold s in H, H'.
  exists disk'. split; [exact HR|]. split; [|split; [|split; [|split]]].
  - intros k v Hk. rewrite (holds_get _ _ _ _ k H'). apply get_result_stored.
    + exact (modify_error_key k v (Hstore k v Hk)).
    + now rewrite He', Hk.
  - intros k Hne Hk Hi. rewrite (holds_get _ _ _ _ k H').
    apply get_result_absent; [exact Hne|]. now rewrite He', Hk, Hi.
  - reflexivity.
  - intros k Hk Hi. rewrite (holds_get _ _ _ _ k H'), (holds_get _ _ _ _ k H).
    apply get_result_ext. now rewrite He', Hk, Hi.
  - rewrite (holds_all _ _ _ _ H'). f_equal. apply map_eq. intros k.
    rewrite !lookup_user_part, He'. destruct (internal_key k); [reflexivity|].
    now destruct (store !! k).
Qed.

(** X9: [ReplaceAll] is not one transaction: when the deletions go
    through and the final import fails, the call returns the error and
    the vault has lost its user pairs, while the internal keys stay.
    The database is one that Badger can have written: it holds nothing
    under the empty key. *)
Theorem replace_all_failed_import_loses_pairs
    (range : gmap bytes bytes -> list bytes)
    (disk : Disk) (c : CreateOutcome) (ws pw salt : bytes)
    (entries store : gmap bytes bytes) :
  disk !! ws = Some (vault_files salt (deriveKey pw salt) entries) ->
  length salt = saltLen ->
  entries !! verifyKey = Some verifyValue ->
  (forall m, range m ≡ₚ (map_to_list m).*1) ->
  entries !! [] = None ->
  let s := {| st_workspace := ws; st_key := deriveKey pw salt |} in
  exists disk',
    ReplaceAll deriveKey badger_view range disk c (fun _ => true) false ws pw store
      = (disk', Some ErrTxn)
    /\ All badger_view disk' s = inr ∅
    /\ (forall k, internal_key k = true ->
          Get badger_view disk' s k = Get badger_view disk s k)
    /\ forall c', Open deriveKey badger_view disk' c' ws pw = (disk', inr s).
Proof.
  intros Hd Hlen Hv Hr Hnamed s.
  destruct (Open_holds disk c ws pw salt entries Hd Hlen Hv) as [HO H].
  fold s in HO, H.
  destruct (range_user_keys range entries Hr) as [Hnd Hkeys].
  destruct (delete_each_holds s salt _ disk entries H Hnd) as [disk1 [e1 [HE [H1 [Hgone Hkept]]]]].
  { intros k Hk. apply Hkeys in Hk. destruct Hk as [[x Hx] _].
    split; [intros ->; congruence | now exists x]. }
  exists disk1. unfold ReplaceAll. rewrite HO. fold s.
  rewrite (holds_all _ _ _ _ H), HE. unfold ImportEnvEntries.
  split; [reflexivity|]. split; [|split].
  - rewrite (holds_all _ _ _ _ H1). f_equal. apply map_eq. intros k.
    rewrite lookup_user_part, lookup_empty. destruct (internal_key k) eqn:Hi; [reflexivity|].
    destruct (entries !! k) as [x|] eqn:E.
    + apply Hgone, Hkeys. split; [now exists x | exact Hi].
    + rewrite Hkept, E; [reflexivity|]. intros Hin. apply Hkeys in Hin.
      destruct Hin as [[x Hx] _]. congruence.
  - intros k Hi. rewrite (holds_get _ _ _ _ k H1), (holds_get _ _ _ _ k H).
    apply get_result_ext. apply Hkept.
    intros Hin. apply Hkeys in Hin. destruct Hin as [_ Hx]. congruence.
  - intros c'.
    assert (Hv1 : e1 !! verifyKey = Some verifyValue).
    { rewrite Hkept; [exact Hv|]. intros Hin. apply Hkeys in Hin.
      destruct Hin as [_ Hx]. vm_compute in Hx. discriminate. }
    exact (proj1 (Open_holds disk1 c' ws pw salt e1 H1 Hlen Hv1)).
Qed.

(** X10: with a password whose derived key is not the one of the vault,
    no operation reads or changes anything: the one-shot functions,
    [ReplaceAll] and [ImportEnvFile] all return the error of [Open] and
    leave the files as they are. *)
Theorem wrong_password_changes_nothing
    (range : gmap bytes bytes -> list bytes)
    (disk : Disk) (c : CreateOutcome) (ws pw pw' salt : bytes)
    (entries : gmap bytes bytes) :
  disk !! ws = Some (vault_files salt (deriveKey pw salt) entries) ->
  length salt = saltLen ->
  deriveKey pw' salt <> deriveKey pw salt ->
  exists e,
    (e = ErrOpenDB \/ e = ErrWrongPasswordOrCorrupt)
    /\ (forall k, QuickGet deriveKey badger_view disk c ws pw' k = (disk, inl e))
    /\ (forall ok k v,
          QuickSet deriveKey badger_view disk c ok ws pw' k v = (disk, Some e))
    /\ (forall ok k,
          QuickDelete deriveKey badger_view disk c ok ws pw' k = (disk, Some e))
    /\ QuickList deriveKey badger_view disk c ws pw' = (disk, inl e)
    /\ (forall del_ok ok store,
          ReplaceAll deriveKey badger_view range disk c del_ok ok ws pw' store
          = (disk, Some e))
    /\ (forall ok data, ParseEnvFile data <> ∅ ->
          ImportEnvFile deriveKey badger_view disk c ok ws pw' (Some data)
          = (disk, Some (ErrVault e))).
Proof.
  intros Hd Hlen Hne.
  destruct (Open_other_key deriveKey badger_view view_auth disk c ws pw pw' salt
              entries Hd Hlen Hne) as [e [HO He]].
  exists e. split; [exact He|].
  unfold QuickGet, QuickSet, QuickDelete, QuickList, ReplaceAll, ImportEnvFile.
  rewrite HO. repeat (split; [reflexivity|]).
  intros ok data Hdata. cbv zeta.
  destruct (size (ParseEnvFile data) =? 0)%nat eqn:Hsz; [|reflexivity].
  apply Nat.eqb_eq, map_size_empty_iff in Hsz. contradiction.
Qed.



Lemma header_lines :
  edit_header
  = flat_map (fun l => l ++ [LF])
      [bs "# Edit secrets below (KEY=VALUE format)";
       bs "# Lines starting with # are ignored"].
Proof. reflexivity. Qed.

(** The file that [vault edit] writes parses back to the pairs it was
    written from. *)
Lemma parse_edit_content (m : gmap bytes bytes) :
  roundtrip_map m -> lines_fit m ->
  ParseEnvFile (edit_header ++ ExportEnvFormat m) = m.
Proof.
  intros Hrt Hfit.
  set (ks := sort_Strings ((map_to_list m).*1)).
  set (hs := [bs "# Edit secrets below (KEY=VALUE format)";
              bs "# Lines starting with # are ignored"]).
  assert (Hks : forall k, In k ks ->
            exists v, m !! k = Some v /\ map_index m k = v).
  { intros k Hin. apply sorted_keys in Hin. destruct Hin as [v Hv].
    exists v. split; [exact Hv|]. unfold map_index. now rewrite Hv. }
  assert (Hgood : forall k, In k ks ->
            roundtrip_key k /\ roundtrip_value (map_index m k)).
  { intros k Hin. destruct (Hks k Hin) as [v [Hv ->]]. now apply Hrt. }
  assert (Hraw : raw_lines (edit_header ++ ExportEnvFormat m)
                 = hs ++ map (env_line_text m) ks).
  { unfold ExportEnvFormat, ExportEnvFormat_in. cbv zeta. fold ks.
    rewrite export_unlines, header_lines. fold hs. rewrite <- flat_map_app.
    apply raw_lines_unlines. apply Forall_app. split.
    - constructor; [|constructor; [|constructor]]; vm_compute; intuition discriminate.
    - rewrite List.Forall_forall. intros l Hl. apply in_map_iff in Hl.
      destruct Hl as [k [<- Hin]]. destruct (Hgood k Hin) as [Hk Hv].
      unfold env_line_text. intros Hlf. apply in_app_or in Hlf.
      destruct Hk as (_ & _ & _ & Hklf & _). destruct Hv as (Hvlf & _).
      destruct Hlf as [Hlf|[Hlf|Hlf]]; [contradiction | discriminate | contradiction]. }
  rewrite parse_env_file_short.
  2:{ unfold short_lines. rewrite Hraw. apply Forall_app. split.
      - constructor; [|constructor; [|constructor]]; vm_compute; reflexivity.
      - rewrite List.Forall_forall.
        intros l Hl. apply in_map_iff in Hl. destruct Hl as [k [<- Hin]].
        destruct (Hks k Hin) as [v [Hv Hidx]]. specialize (Hfit k v Hv).
        unfold env_line_text. rewrite Hidx, length_app. cbn [length]. lia. }
  unfold spec_parse_env, text_lines. rewrite Hraw, !map_app, fold_left_app.
  replace (fold_left spec_env_add (map dropCR hs) ∅) with (∅ : gmap bytes bytes)
    by (vm_compute; reflexivity).
  rewrite (fold_env_lines m ks ∅ Hgood).
  apply map_eq. intros i. rewrite fold_insert_lookup.
  destruct (bool_decide (i ∈ ks)) eqn:E.
  - apply bool_decide_eq_true in E. apply list_elem_of_In in E.
    destruct (Hks i E) as [v [Hv ->]]. now rewrite Hv.
  - apply bool_decide_eq_false in E. rewrite lookup_empty.
    destruct (m !! i) as [v|] eqn:Ei; [|reflexivity].
    destruct E. apply list_elem_of_In, sorted_keys. now exists v.
Qed.

(** X12: [vault edit] with an editor that leaves the file as written:
    when the pairs that the vault shows have keys and values that survive
    the text format and lines that fit the scanner, the command succeeds
    and every key, internal ones included, reads as before; and with the
    editor or its file failing, nothing is written. *)
Theorem vault_edit_unchanged
    (range : gmap bytes bytes -> list bytes)
    (disk : Disk) (c : CreateOutcome) (ws pw salt : bytes)
    (entries : gmap bytes bytes) :
  disk !! ws = Some (vault_files salt (deriveKey pw salt) entries) ->
  length salt = saltLen ->
  entries !! verifyKey = Some verifyValue ->
  (forall m, range m ≡ₚ (map_to_list m).*1) ->
  roundtrip_map (user_pairs entries) ->
  lines_fit (user_pairs entries) ->
  let s := {| st_workspace := ws; st_key := deriveKey pw salt |} in
  (exists disk',
      vault_edit deriveKey badger_view range disk c (fun _ => true) true ws pw
        (fun content => Some content) = (disk', None)
      /\ (forall k, Get badger_view disk' s k = Get badger_view disk s k)
      /\ All badger_view disk' s = All badger_view disk s)
  /\ vault_edit deriveKey badger_view range disk c (fun _ => true) true ws pw
       (fun _ => None) = (disk, Some ErrEdited).
Proof.
  intros Hd Hlen Hv Hr Hrt Hfit s.
  destruct (Open_holds disk c ws pw salt entries Hd Hlen Hv) as [HO H].
  fold s in HO, H.
  assert (Hnamed : entries !! [] = None).
  { destruct (entries !! []) as [x|] eqn:E; [|reflexivity].
    destruct (Hrt [] x) as [[Hne _] _]; [|now contradiction Hne].
    unfold user_pairs. rewrite lookup_user_part. exact E. }
  destruct (replace_all_holds range disk c ws pw salt entries (user_pairs entries)
              Hd Hlen Hv Hr Hnamed) as [disk' [e' [HR [H' He']]]].
  fold s in H'.
  assert (Hsame : forall k, e' !! k = entries !! k).
  { intros k. rewrite He'. unfold user_pairs. rewrite lookup_user_part.
    destruct (internal_key k); [reflexivity|]. now destruct (entries !! k). }
  unfold vault_edit. rewrite HO. cbv beta iota zeta. unfold Close.
  rewrite (holds_all _ _ _ _ H). fold (user_pairs entries).
  split; [|reflexivity].
  rewrite (parse_edit_content _ Hrt Hfit), HR.
  exists disk'. split; [reflexivity|]. split.
  - intros k. rewrite (holds_get _ _ _ _ k H'), (holds_get _ _ _ _ k H).
    apply get_result_ext, Hsame.
  - rewrite (holds_all _ _ _ _ H'). unfold user_pairs. f_equal.
    apply map_eq. intros k. now rewrite !lookup_user_part, Hsame.
Qed.
End VaultStoreProperties.

(** *** The path that [Destroy] removes *)

Lemma path_elements_one (cur name : bytes) :
  forallb (fun c => negb (Ascii.eqb c "/") && negb (Ascii.eqb c "000"%char)) name = true ->
  path_elements_from cur name = [reverse cur ++ name].
Proof.
  revert cur. induction name as [|c name IH]; intros cur H.
  - cbn. now rewrite app_nil_r.
  - cbn [forallb] in H. apply andb_true_iff in H as [Hc H].
    apply andb_true_iff in Hc as [Hc _]. apply negb_true_iff in Hc.
    cbn [path_elements_from]. rewrite Hc, (IH _ H), reverse_cons, <- app_assoc.
    reflexivity.
Qed.

Lemma entry_name_parts (name : bytes) :
  entry_name name = true ->
  name <> [] /\ name <> bs "." /\ name <> bs ".."
  /\ forallb (fun c => negb (Ascii.eqb c "/") && negb (Ascii.eqb c "000"%char)) name = true.
Proof.
  unfold entry_name. rewrite !andb_true_iff, !negb_true_iff, !bytes_eqb_false.
  intros [[[H1 H2] H3] H4]. repeat split; assumption.
Qed.

Lemma vaultDir_entry (vaults : list bytes) (name : bytes) :
  entry_name name = true -> vaultDir vaults name = vaults ++ [name].
Proof.
  intros H. destruct (entry_name_parts name H) as [H1 [H2 [H3 H4]]].
  unfold vaultDir, path_elements. rewrite (path_elements_one [] name H4).
  change (reverse [] ++ name) with name. cbn [foldl]. unfold clean_step.
  rewrite (proj2 (bytes_eqb_false _ _) H1), (proj2 (bytes_eqb_false _ _) H2),
    (proj2 (bytes_eqb_false _ _) H3).
  cbn [orb]. now rewrite reverse_cons, reverse_involutive.
Qed.

Lemma vaultDir_dot (vaults : list bytes) : vaultDir vaults (bs ".") = vaults.
Proof. unfold vaultDir. cbn. apply reverse_involutive. Qed.

Lemma vaultDir_unnamed (vaults : list bytes) : vaultDir vaults [] = vaults.
Proof. unfold vaultDir. cbn. apply reverse_involutive. Qed.

Lemma path_below_app (p q r : list bytes) :
  path_below (p ++ q) (p ++ r) = path_below q r.
Proof.
  induction p as [|a p IH]; [reflexivity|].
  cbn [app path_below]. now rewrite (proj2 (bytes_eqb_true a a) eq_refl), IH.
Qed.

Lemma path_below_entry (vaults : list bytes) (a b : bytes) :
  path_below (vaults ++ [a]) (vaults ++ [b]) = bytes_eqb a b.
Proof. rewrite path_below_app. cbn. apply andb_true_r. Qed.

Lemma path_below_parent (vaults : list bytes) (a : bytes) :
  path_below vaults (vaults ++ [a]) = true
  /\ path_below (vaults ++ [a]) vaults = false.
Proof.
  split.
  - rewrite <- (app_nil_r vaults) at 1. now rewrite path_below_app.
  - rewrite <- (app_nil_r vaults) at 2. now rewrite path_below_app.
Qed.

Lemma entry_names_files (path : list bytes) :
  Forall (fun e => entry_name e = true) path -> names_no_file path = false.
Proof.
  unfold names_no_file. induction 1 as [|e path He _ IH]; [reflexivity|].
  cbn [existsb]. rewrite IH, orb_false_r.
  destruct (entry_name_parts e He) as [_ [_ [_ Hc]]].
  clear He. induction e as [|c e IHe]; [reflexivity|].
  cbn [forallb] in Hc. apply andb_true_iff in Hc as [Hc Hrest].
  apply andb_true_iff in Hc as [_ Hc]. apply negb_true_iff in Hc.
  cbn [existsb]. rewrite Ascii.eqb_sym, Hc. now apply IHe.
Qed.

Lemma existsb_none {A : Type} (f : A -> bool) (l : list A) :
  (forall x, In x l -> f x = false) -> existsb f l = false.
Proof.
  induction l as [|x l IH]; intros H; [reflexivity|].
  cbn [existsb]. rewrite (H x (or_introl eq_refl)). apply IH.
  intros y Hy. apply H. now right.
Qed.

Lemma disk_names (disk : Disk) (w : bytes) :
  In w ((map_to_list disk).*1) -> is_Some (disk !! w).
Proof.
  rewrite <- list_elem_of_In, list_elem_of_fmap.
  intros [[w' d] [-> Hin]]. apply elem_of_map_to_list in Hin. now exists d.
Qed.

(** X13: [Destroy] removes the tree at [vaultDir(workspace)].  For a
    workspace whose name is the name of one directory entry, where the
    vaults that exist are so named too, [Destroy] brings the workspace
    back to the state before [Init]: no vault is reported, [Open] fails
    at the salt with every password, the other workspaces keep their
    files, and a later [Init] creates a vault that holds none of the old
    pairs.  [Destroy] of the workspace [.] and of the workspace with the
    empty name remove the directory of all vaults: no vault is left. *)
Theorem destroy_then_init_is_fresh
    (deriveKey : bytes -> bytes -> bytes)
    (badger_view : bytes -> BadgerDB -> option (gmap bytes bytes))
    (view_same : forall d, badger_view (db_key d) d = Some (db_entries d))
    (vaults : list bytes) (disk : Disk) (env : InitEnv) (ws pw salt : bytes) :
  Forall (fun e => entry_name e = true) vaults ->
  entry_name ws = true ->
  (forall w, is_Some (disk !! w) -> entry_name w = true) ->
  mkdir_ok env = true -> random_salt env = Some salt ->
  write_salt_ok env = true -> create_db env = CreateOk ->
  verify_write_ok env = true -> close_ok env = true ->
  exists disk1 disk2,
    Destroy vaults disk Removed ws = Some (disk1, true)
    /\ IsInitialized disk1 ws = false
    /\ (forall c pw', Open deriveKey badger_view disk1 c ws pw' = (disk1, inl ErrReadSalt))
    /\ (forall ws', ws' <> ws -> disk1 !! ws' = disk !! ws')
    /\ Init deriveKey badger_view disk1 env ws pw = (disk2, None)
    /\ IsInitialized disk2 ws = true
    /\ (forall k, k <> [] -> k <> verifyKey ->
          Get badger_view disk2 {| st_workspace := ws; st_key := deriveKey pw salt |} k
          = inl (ErrKeyNotFound k))
    /\ Destroy vaults disk Removed (bs ".") = Some (∅, true)
    /\ Destroy vaults disk Removed [] = Some (∅, true).
Proof.
  intros Hvaults Hws Hdisk H1 H2 H3 H4 H5 H6.
  assert (Hdir : vault_of (delete ws disk) ws = empty_dir).
  { unfold vault_of. now rewrite lookup_delete_eq. }
  assert (Hall : forall target,
            target = vaults ->
            names_no_file target = false
            /\ existsb (fun w => path_below (vaultDir vaults w) target
                                 && negb (path_below target (vaultDir vaults w)))
                 ((map_to_list disk).*1) = false
            /\ filter (fun wd : bytes * VaultDir =>
                         path_below target (vaultDir vaults wd.1) = false) disk = ∅).
  { intros target ->. split; [now apply entry_names_files|]. split.
    - apply existsb_none. intros w Hw.
      rewrite (vaultDir_entry vaults w (Hdisk w (disk_names disk w Hw))).
      now rewrite (proj2 (path_below_parent vaults w)).
    - apply map_eq. intros w. rewrite lookup_empty, map_lookup_filter.
      destruct (disk !! w) as [d|] eqn:E; [|reflexivity].
      cbn [mbind option_bind]. rewrite option_guard_False; [reflexivity|].
      cbn [fst]. rewrite (vaultDir_entry vaults w (Hdisk w (ex_intro _ d E))).
      rewrite (proj1 (path_below_parent vaults w)). discriminate. }
  exists (delete ws disk). eexists.
  split.
  { unfold Destroy. cbv zeta. rewrite (vaultDir_entry vaults ws Hws).
    rewrite entry_names_files
      by (apply Forall_app; split; [exact Hvaults | now constructor]).
    rewrite existsb_none.
    - f_equal. f_equal. apply map_eq. intros w. rewrite map_lookup_filter.
      destruct (bytes_eq_dec w ws) as [->|Hne].
      + rewrite lookup_delete_eq. destruct (disk !! ws) as [d|]; [|reflexivity].
        cbn [mbind option_bind]. rewrite option_guard_False; [reflexivity|].
        cbn [fst]. rewrite (vaultDir_entry vaults ws Hws), path_below_entry.
        now rewrite (proj2 (bytes_eqb_true ws ws) eq_refl).
      + rewrite lookup_delete_ne by congruence.
        destruct (disk !! w) as [d|] eqn:E; [|reflexivity].
        cbn [mbind option_bind]. rewrite option_guard_True; [reflexivity|].
        cbn [fst]. rewrite (vaultDir_entry vaults w (Hdisk w (ex_intro _ d E))).
        rewrite path_below_entry. apply bytes_eqb_false. congruence.
    - intros w Hw.
      rewrite (vaultDir_entry vaults w (Hdisk w (disk_names disk w Hw))).
      rewrite !path_below_entry.
      destruct (bytes_eq_dec w ws) as [->|Hne].
      + now rewrite (proj2 (bytes_eqb_true ws ws) eq_refl).
      + now rewrite (proj2 (bytes_eqb_false w ws) Hne). }
  split; [unfold IsInitialized; rewrite Hdir; reflexivity|].
  split; [intros c pw'; unfold Open; rewrite lookup_delete_eq; reflexivity|].
  split; [intros ws' Hne; now apply lookup_delete_ne|].
  split; [now apply (Init_fresh deriveKey badger_view (delete ws disk) env ws pw salt)|].
  split; [unfold IsInitialized, vault_of; rewrite lookup_insert_eq; reflexivity|].
  split.
  { intros k Hne Hk.
    rewrite (Get_same_key badger_view view_same _ ws salt _ k _ (lookup_insert_eq _ _ _)).
    apply get_result_absent; [exact Hne|].
    rewrite lookup_insert_ne by congruence. apply lookup_empty. }
  split.
  - unfold Destroy. cbv zeta. rewrite vaultDir_dot.
    destruct (Hall vaults eq_refl) as [Hn [Hi Hf]]. now rewrite Hn, Hi, Hf.
  - unfold Destroy. cbv zeta. rewrite vaultDir_unnamed.
    destruct (Hall vaults eq_refl) as [Hn [Hi Hf]]. now rewrite Hn, Hi, Hf.
Qed.

(** *** The operations on a vault that holds one secret *)

Lemma toy_disk_files :
  toy_disk !! bs "ws" = Some (vault_files salt0 (toy_deriveKey (bs "pw") salt0) toy_entries).
Proof. apply lookup_insert_eq. Qed.

Lemma toy_verified : toy_entries !! verifyKey = Some verifyValue.
Proof. vm_compute. reflexivity. Qed.

Lemma range_keys_perm (m : gmap bytes bytes) : range_keys m ≡ₚ (map_to_list m).*1.
Proof. reflexivity. Qed.

Lemma toy_named : toy_entries !! [] = None.
Proof. vm_compute. reflexivity. Qed.

Lemma store_set_then_get_witness :
  exists disk',
    Set_ toy_disk toy_store true (bs "TOKEN") (bs "t") = (disk', None)
    /\ Get toy_view disk' toy_store (bs "TOKEN") = inr (bs "t")
    /\ Get toy_view disk' toy_store (bs "API_KEY") = inr (bs "s")
    /\ Get toy_view toy_disk toy_store [] = inl (ErrBadger ErrEmptyKey)
    /\ Set_ toy_disk toy_store true [] (bs "t") = (toy_disk, Some (ErrBadger ErrEmptyKey))
    /\ Set_ toy_disk toy_store true (bs "!badger!x") (bs "t")
       = (toy_disk, Some (ErrBadger ErrInvalidKey)).
Proof.
  destruct (store_set_then_get toy_view toy_view_same toy_disk toy_store salt0
              toy_entries (bs "TOKEN") (bs "t") toy_disk_files eq_refl)
    as [disk' [H1 [H2 [H3 [_ [_ [H6 [_ [H8 _]]]]]]]]].
  exists disk'. split; [exact H1|]. split; [exact H2|].
  split; [rewrite H3 by discriminate; vm_compute; reflexivity|].
  split; [exact H6|].
  split; apply H8; reflexivity.
Defined.

Lemma store_delete_witness :
  Delete toy_view toy_disk toy_store true (bs "TOKEN")
    = (toy_disk, Some (ErrKeyNotFound (bs "TOKEN")))
  /\ Delete toy_view toy_disk toy_store true []
     = (toy_disk, Some (ErrBadger ErrEmptyKey))
  /\ exists disk',
       Delete toy_view toy_disk toy_store true (bs "API_KEY") = (disk', None)
       /\ Get toy_view disk' toy_store (bs "API_KEY")
          = inl (ErrKeyNotFound (bs "API_KEY")).
Proof.
  destruct (store_delete toy_view toy_view_same toy_disk toy_store salt0
              toy_entries (bs "TOKEN") toy_disk_files) as [Hempty [Habsent _]];
    [discriminate|].
  destruct (store_delete toy_view toy_view_same toy_disk toy_store salt0
              toy_entries (bs "API_KEY") toy_disk_files) as [_ [_ Hpresent]];
    [discriminate|].
  split; [apply Habsent; vm_compute; reflexivity|].
  split; [apply Hempty|].
  destruct Hpresent as [disk' [H1 [H2 _]]]; [vm_compute; eauto|].
  exists disk'. split; assumption.
Defined.

Lemma store_list_witness :
  exists keys,
    List_ toy_view toy_disk toy_store = inr keys
    /\ StronglySorted bytes_le keys
    /\ In (bs "API_KEY") keys
    /\ ~ In verifyKey keys.
Proof.
  destruct (store_list_sorted_user_keys toy_view toy_view_same toy_disk toy_store
              salt0 toy_entries toy_disk_files) as [keys [H1 [H2 [_ [H4 H5]]]]].
  exists keys. split; [exact H1|]. split; [exact H2|]. split; [|exact H5].
  apply H4. vm_compute. eauto.
Defined.

Lemma store_all_witness :
  exists m, All toy_view toy_disk toy_store = inr m
            /\ m !! bs "API_KEY" = Some (bs "s") /\ m !! verifyKey = None.
Proof.
  destruct (store_all_user_pairs toy_view toy_view_same toy_disk toy_store salt0
              toy_entries toy_disk_files) as [m [keys [H1 [_ [H2 _]]]]].
  exists m. split; [exact H1|]. rewrite !H2. vm_compute. split; reflexivity.
Defined.

Lemma import_env_file_merges_witness :
  exists disk',
    ImportEnvFile toy_deriveKey toy_view toy_disk CreateOk true (bs "ws") (bs "pw")
      (Some env_import) = (disk', None)
    /\ Get toy_view disk' toy_store (bs "TOKEN") = inr (bs "t")
    /\ Get toy_view disk' toy_store (bs "API_KEY") = inr (bs "new")
    /\ Get toy_view disk' toy_store verifyKey = inr verifyValue.
Proof.
  destruct (import_env_file_merges toy_deriveKey toy_view toy_view_same toy_disk
              CreateOk (bs "ws") (bs "pw") salt0 env_import toy_entries
              toy_disk_files eq_refl toy_verified)
    as [disk' [H1 [H2 [H3 _]]]].
  - intros H. apply (f_equal (fun m => m !! bs "TOKEN")) in H. vm_compute in H.
    discriminate.
  - exists disk'. split; [exact H1|].
    split; [apply H2; vm_compute; reflexivity|].
    split; [apply H2; vm_compute; reflexivity|].
    fold toy_key in H3. fold toy_store in H3.
    rewrite H3 by (vm_compute; reflexivity). vm_compute. reflexivity.
Defined.

Lemma import_env_file_checks_witness :
  ImportEnvFile toy_deriveKey toy_view toy_disk CreateOk true (bs "ws") (bs "wrong")
    (Some env_no_pairs) = (toy_disk, Some ErrNoPairs)
  /\ ImportEnvFile toy_deriveKey toy_view toy_disk CreateOk true (bs "other") (bs "pw")
       (Some env_import) = (toy_disk, Some (ErrVault ErrReadSalt)).
Proof.
  destruct (import_env_file_checks toy_deriveKey toy_view toy_disk CreateOk true
              (bs "ws") (bs "wrong") env_no_pairs) as [_ [H1 _]].
  destruct (import_env_file_checks toy_deriveKey toy_view toy_disk CreateOk true
              (bs "other") (bs "pw") env_import) as [_ [_ H2]].
  split.
  - apply H1. vm_compute. reflexivity.
  - apply H2; [|vm_compute; reflexivity].
    intros H. apply (f_equal (fun m => m !! bs "TOKEN")) in H. vm_compute in H.
    discriminate.
Defined.

Lemma import_env_file_can_lock_vault_witness :
  exists disk',
    ImportEnvFile toy_deriveKey toy_view toy_disk CreateOk true (bs "ws") (bs "pw")
      (Some env_verify) = (disk', None)
    /\ Open toy_deriveKey toy_view disk' CreateOk (bs "ws") (bs "pw")
       = (disk', inl ErrWrongPasswordOrCorrupt).
Proof.
  destruct (import_env_file_can_lock_vault toy_deriveKey toy_view toy_view_same
              toy_disk CreateOk (bs "ws") (bs "pw") salt0 env_verify (bs "oops")
              toy_entries toy_disk_files eq_refl toy_verified)
    as [disk' [H1 H2]].
  - vm_compute. reflexivity.
  - discriminate.
  - exists disk'. split; [exact H1 | exact (H2 CreateOk)].
Defined.

Lemma token_accepted (k v : bytes) :
  (<[bs "TOKEN" := bs "t"]> ∅ : gmap bytes bytes) !! k = Some v ->
  modify_error k v = None.
Proof.
  intros H. apply lookup_insert_Some in H as [[<- <-]|[_ H]]; [reflexivity|].
  rewrite lookup_empty in H. discriminate H.
Qed.

Lemma replace_all_result_witness :
  exists disk',
    ReplaceAll toy_deriveKey toy_view range_keys toy_disk CreateOk (fun _ => true) true
      (bs "ws") (bs "pw") (<[bs "TOKEN" := bs "t"]> ∅) = (disk', None)
    /\ Get toy_view disk' toy_store (bs "TOKEN") = inr (bs "t")
    /\ Get toy_view disk' toy_store (bs "API_KEY") = inl (ErrKeyNotFound (bs "API_KEY"))
    /\ Get toy_view disk' toy_store [] = inl (ErrBadger ErrEmptyKey)
    /\ Get toy_view disk' toy_store verifyKey = inr verifyValue.
Proof.
  destruct (replace_all_result toy_deriveKey toy_view toy_view_same range_keys
              toy_disk CreateOk (bs "ws") (bs "pw") salt0 toy_entries
              (<[bs "TOKEN" := bs "t"]> ∅)
              toy_disk_files eq_refl toy_verified range_keys_perm toy_named
              token_accepted)
    as [disk' [H1 [H2 [H3 [H4 [H5 _]]]]]].
  exists disk'. split; [exact H1|].
  split; [apply H2; vm_compute; reflexivity|].
  split; [apply H3; [discriminate | vm_compute; reflexivity | vm_compute; reflexivity]|].
  split; [exact H4|].
  fold toy_key in H5. fold toy_store in H5.
  rewrite H5 by (vm_compute; reflexivity). vm_compute. reflexivity.
Defined.

Lemma replace_all_failed_import_witness :
  exists disk',
    ReplaceAll toy_deriveKey toy_view range_keys toy_disk CreateOk (fun _ => true) false
      (bs "ws") (bs "pw") (<[bs "TOKEN" := bs "t"]> ∅) = (disk', Some ErrTxn)
    /\ All toy_view disk' toy_store = inr ∅.
Proof.
  destruct (replace_all_failed_import_loses_pairs toy_deriveKey toy_view toy_view_same
              range_keys toy_disk CreateOk (bs "ws") (bs "pw") salt0 toy_entries
              (<[bs "TOKEN" := bs "t"]> ∅)
              toy_disk_files eq_refl toy_verified range_keys_perm toy_named)
    as [disk' [H1 [H2 _]]].
  exists disk'. split; assumption.
Defined.

Lemma wrong_password_changes_nothing_witness :
  exists e,
    QuickSet toy_deriveKey toy_view toy_disk CreateOk true (bs "ws") (bs "wrong")
      (bs "API_KEY") (bs "x") = (toy_disk, Some e)
    /\ QuickList toy_deriveKey toy_view toy_disk CreateOk (bs "ws") (bs "wrong")
       = (toy_disk, inl e).
Proof.
  destruct (wrong_password_changes_nothing toy_deriveKey toy_view toy_view_auth
              range_keys toy_disk CreateOk (bs "ws") (bs "pw") (bs "wrong") salt0
              toy_entries toy_disk_files eq_refl)
    as [e [_ [_ [H2 [_ [H4 _]]]]]].
  - discriminate.
  - exists e. split; [apply H2 | exact H4].
Defined.


Lemma toy_disk_names (w : bytes) : is_Some (toy_disk !! w) -> entry_name w = true.
Proof.
  unfold toy_disk. intros [d Hd]. apply lookup_insert_Some in Hd as [[<- _]|[_ Hd]].
  - reflexivity.
  - rewrite lookup_empty in Hd. discriminate Hd.
Qed.

Lemma toy_vaults_names : Forall (fun e => entry_name e = true) toy_vaults.
Proof. repeat constructor. Qed.

(** Other names of the same directory, a path outside the directory of
    the vaults, and a path inside a vault. *)
Example destroy_paths :
  Destroy toy_vaults toy_disk Removed (bs "x/../ws") = Some (∅, true)
  /\ Destroy toy_vaults toy_disk Removed (bs "./ws/") = Some (∅, true)
  /\ Destroy toy_vaults toy_disk Removed (bs "../../..") = Some (∅, true)
  /\ Destroy toy_vaults toy_disk Removed (bs "../x") = Some (toy_disk, true)
  /\ Destroy toy_vaults toy_disk Removed (bs "other") = Some (toy_disk, true)
  /\ Destroy toy_vaults toy_disk Removed (bs "ws/salt") = None.
Proof. repeat split; vm_compute; reflexivity. Qed.

Lemma destroy_then_init_witness :
  exists disk1 disk2,
    Destroy toy_vaults toy_disk Removed (bs "ws") = Some (disk1, true)
    /\ IsInitialized disk1 (bs "ws") = false
    /\ Init toy_deriveKey toy_view disk1 env_ok (bs "ws") (bs "other") = (disk2, None)
    /\ Get toy_view disk2
         {| st_workspace := bs "ws"; st_key := toy_deriveKey (bs "other") salt0 |}
         (bs "API_KEY")
       = inl (ErrKeyNotFound (bs "API_KEY"))
    /\ Destroy toy_vaults toy_disk Removed (bs ".") = Some (∅, true)
    /\ Destroy toy_vaults toy_disk Removed [] = Some (∅, true).
Proof.
  destruct (destroy_then_init_is_fresh toy_deriveKey toy_view toy_view_same
              toy_vaults toy_disk env_ok (bs "ws") (bs "other") salt0
              toy_vaults_names eq_refl toy_disk_names
              eq_refl eq_refl eq_refl eq_refl eq_refl eq_refl)
    as [disk1 [disk2 [H1 [H2 [_ [_ [H5 [_ [H7 [H8 H9]]]]]]]]]].
  exists disk1, disk2. split; [exact H1|]. split; [exact H2|]. split; [exact H5|].
  split; [apply H7; discriminate|]. split; [exact H8 | exact H9].
Defined.

(** ** White space: what [strings.TrimSpace] leaves *)

Lemma TrimLeftSpace_eq (s : bytes) :
  TrimLeftSpace s =
  match s with
  | [] => []
  | c1 :: r1 =>
      if is_space1 c1 then TrimLeftSpace r1
      else match r1 with
           | [] => s
           | c2 :: r2 =>
               if is_space2 c1 c2 then TrimLeftSpace r2
               else match r2 with
                    | [] => s
                    | c3 :: r3 =>
                        if is_space3 c1 c2 c3 then TrimLeftSpace r3 else s
                    end
           end
  end.
Proof. destruct s; reflexivity. Qed.

Lemma trim_rev_space_eq (r : bytes) :
  trim_rev_space r =
  match r with
  | [] => []
  | c1 :: r1 =>
      if is_space1 c1 then trim_rev_space r1
      else match r1 with
           | [] => r
           | c2 :: r2 =>
               if is_space2 c2 c1 then trim_rev_space r2
               else match r2 with
                    | [] => r
                    | c3 :: r3 =>
                        if is_space3 c3 c2 c1 then trim_rev_space r3 else r
                    end
           end
  end.
Proof. destruct r; reflexivity. Qed.

Lemma TrimLeftSpace_leading (s : bytes) : leading_space (TrimLeftSpace s) = false.
Proof.
  remember (length s) as n eqn:Hn. revert s Hn.
  induction n as [n IH] using lt_wf_ind. intros s Hn.
  destruct s as [|c1 [|c2 [|c3 r]]]; rewrite TrimLeftSpace_eq; cbv beta match.
  - reflexivity.
  - destruct (is_space1 c1) eqn:E1; [reflexivity|]. cbn. now rewrite E1.
  - destruct (is_space1 c1) eqn:E1.
    { apply (IH (length [c2])); cbn in *; [lia | reflexivity]. }
    destruct (is_space2 c1 c2) eqn:E2; [reflexivity|]. cbn. now rewrite E1, E2.
  - destruct (is_space1 c1) eqn:E1.
    { apply (IH (length (c2 :: c3 :: r))); cbn in *; [lia | reflexivity]. }
    destruct (is_space2 c1 c2) eqn:E2.
    { apply (IH (length (c3 :: r))); cbn in *; [lia | reflexivity]. }
    destruct (is_space3 c1 c2 c3) eqn:E3.
    { apply (IH (length r)); cbn in *; [lia | reflexivity]. }
    cbn. now rewrite E1, E2, E3.
Qed.

Lemma trim_rev_space_trailing (r : bytes) : rev_trailing_space (trim_rev_space r) = false.
Proof.
  remember (length r) as n eqn:Hn. revert r Hn.
  induction n as [n IH] using lt_wf_ind. intros s Hn.
  destruct s as [|c1 [|c2 [|c3 r]]]; rewrite trim_rev_space_eq; cbv beta match.
  - reflexivity.
  - destruct (is_space1 c1) eqn:E1; [reflexivity|]. cbn. now rewrite E1.
  - destruct (is_space1 c1) eqn:E1.
    { apply (IH (length [c2])); cbn in *; [lia | reflexivity]. }
    destruct (is_space2 c2 c1) eqn:E2; [reflexivity|]. cbn. now rewrite E1, E2.
  - destruct (is_space1 c1) eqn:E1.
    { apply (IH (length (c2 :: c3 :: r))); cbn in *; [lia | reflexivity]. }
    destruct (is_space2 c2 c1) eqn:E2.
    { apply (IH (length (c3 :: r))); cbn in *; [lia | reflexivity]. }
    destruct (is_space3 c3 c2 c1) eqn:E3.
    { apply (IH (length r)); cbn in *; [lia | reflexivity]. }
    cbn. now rewrite E1, E2, E3.
Qed.

Lemma trim_rev_space_suffix (r : bytes) : exists p, r = p ++ trim_rev_space r.
Proof.
  remember (length r) as n eqn:Hn. revert r Hn.
  induction n as [n IH] using lt_wf_ind. intros s Hn.
  destruct s as [|c1 [|c2 [|c3 r]]]; rewrite trim_rev_space_eq; cbv beta match.
  - now exists [].
  - destruct (is_space1 c1); [now exists [c1] | now exists []].
  - destruct (is_space1 c1).
    { destruct (IH (length [c2]) ltac:(cbn in *; lia) [c2] eq_refl) as [p Hp].
      exists (c1 :: p). cbn [app]. now rewrite <- Hp. }
    destruct (is_space2 c2 c1); [now exists [c1; c2] | now exists []].
  - destruct (is_space1 c1).
    { destruct (IH (length (c2 :: c3 :: r)) ltac:(cbn in *; lia) _ eq_refl) as [p Hp].
      exists (c1 :: p). cbn [app]. now rewrite <- Hp. }
    destruct (is_space2 c2 c1).
    { destruct (IH (length (c3 :: r)) ltac:(cbn in *; lia) _ eq_refl) as [p Hp].
      exists (c1 :: c2 :: p). cbn [app]. now rewrite <- Hp. }
    destruct (is_space3 c3 c2 c1).
    { destruct (IH (length r) ltac:(cbn in *; lia) _ eq_refl) as [p Hp].
      exists (c1 :: c2 :: c3 :: p). cbn [app]. now rewrite <- Hp. }
    now exists [].
Qed.

Lemma TrimRightSpace_prefix (s : bytes) : exists q, s = TrimRightSpace s ++ q.
Proof.
  unfold TrimRightSpace. destruct (trim_rev_space_suffix (reverse s)) as [p Hp].
  exists (reverse p). rewrite <- reverse_app, <- Hp. now rewrite reverse_involutive.
Qed.

Lemma TrimLeftSpace_suffix (s : bytes) : exists p, s = p ++ TrimLeftSpace s.
Proof.
  remember (length s) as n eqn:Hn. revert s Hn.
  induction n as [n IH] using lt_wf_ind. intros s Hn.
  destruct s as [|c1 [|c2 [|c3 r]]]; rewrite TrimLeftSpace_eq; cbv beta match.
  - now exists [].
  - destruct (is_space1 c1); [now exists [c1] | now exists []].
  - destruct (is_space1 c1).
    { destruct (IH (length [c2]) ltac:(cbn in *; lia) [c2] eq_refl) as [p Hp].
      exists (c1 :: p). cbn [app]. now rewrite <- Hp. }
    destruct (is_space2 c1 c2); [now exists [c1; c2] | now exists []].
  - destruct (is_space1 c1).
    { destruct (IH (length (c2 :: c3 :: r)) ltac:(cbn in *; lia) _ eq_refl) as [p Hp].
      exists (c1 :: p). cbn [app]. now rewrite <- Hp. }
    destruct (is_space2 c1 c2).
    { destruct (IH (length (c3 :: r)) ltac:(cbn in *; lia) _ eq_refl) as [p Hp].
      exists (c1 :: c2 :: p). cbn [app]. now rewrite <- Hp. }
    destruct (is_space3 c1 c2 c3).
    { destruct (IH (length r) ltac:(cbn in *; lia) _ eq_refl) as [p Hp].
      exists (c1 :: c2 :: c3 :: p). cbn [app]. now rewrite <- Hp. }
    now exists [].
Qed.

Lemma leading_space_prefix (t q : bytes) :
  leading_space (t ++ q) = false -> leading_space t = false.
Proof.
  destruct t as [|c1 [|c2 [|c3 r]]]; cbn [leading_space app]; try reflexivity.
  - destruct q as [|d1 [|d2 q]]; cbn [app]; intros H;
      apply orb_false_iff in H as [-> _]; reflexivity.
  - destruct q as [|d1 q]; cbn [app]; intros H;
      apply orb_false_iff in H as [-> H]; apply orb_false_iff in H as [-> _]; reflexivity.
  - auto.
Qed.

Lemma TrimSpace_trimmed (s : bytes) :
  leading_space (TrimSpace s) = false /\ trailing_space (TrimSpace s) = false.
Proof.
  unfold TrimSpace. split.
  - destruct (TrimRightSpace_prefix (TrimLeftSpace s)) as [q Hq].
    apply (leading_space_prefix _ q). rewrite <- Hq. apply TrimLeftSpace_leading.
  - unfold trailing_space, TrimRightSpace. rewrite reverse_involutive.
    apply trim_rev_space_trailing.
Qed.

Lemma TrimSpace_idem (s : bytes) : TrimSpace (TrimSpace s) = TrimSpace s.
Proof. destruct (TrimSpace_trimmed s). now apply TrimSpace_id. Qed.

Lemma TrimSpace_In (s : bytes) (c : ascii) : In c (TrimSpace s) -> In c s.
Proof.
  unfold TrimSpace. intros H.
  destruct (TrimLeftSpace_suffix s) as [p Hp].
  destruct (TrimRightSpace_prefix (TrimLeftSpace s)) as [q Hq].
  rewrite Hp, Hq, !in_app_iff. tauto.
Qed.

(** ** Sessions: listing and removal *)

Lemma sessions_of_In (entries : list DirEntry) (s : Session) :
  In s (sessions_of entries) <-> exists e, In e entries /\ session_of e = Some s.
Proof.
  unfold sessions_of. rewrite <- list_elem_of_In, list_elem_of_omap.
  split; intros [e [H1 H2]]; exists e; (split; [|exact H2]);
    now apply list_elem_of_In.
Qed.

Lemma session_name_trimmed (entries : list DirEntry) (s : Session) :
  In s (sessions_of entries) -> SessionName s <> [] /\ TrimSpace (SessionName s) = SessionName s.
Proof.
  rewrite sessions_of_In. intros [e [_ He]]. unfold session_of in He.
  destruct (IsDir e); [|discriminate]. destruct (NameFile e) as [raw|]; [|discriminate].
  destruct (bytes_eqb (TrimSpace raw) []) eqn:E; [discriminate|].
  inversion He; subst; cbn [SessionName]. split.
  - now apply bytes_eqb_false.
  - apply TrimSpace_idem.
Qed.

Lemma list_names_loop_spec (entries : list DirEntry) (seen : gset bytes) (out : list bytes) :
  list_names_loop entries seen out
  = out ++ dedup_from seen (map SessionName (sessions_of entries)).
Proof.
  revert seen out. induction entries as [|e entries IH]; intros seen out.
  - cbn. now rewrite app_nil_r.
  - cbn [list_names_loop]. unfold sessions_of. cbn [omap list_omap].
    fold (sessions_of entries). unfold session_of.
    destruct (IsDir e); cbn [negb]; [|apply IH].
    destruct (NameFile e) as [raw|]; [|apply IH].
    destruct (bytes_eqb (TrimSpace raw) []); [apply IH|].
    cbn [map SessionName dedup_from].
    destruct (bool_decide (TrimSpace raw ∈ seen)); [apply IH|].
    rewrite IH. now rewrite <- app_assoc.
Qed.

Lemma listed_names_In (entries : list DirEntry) (n : bytes) :
  In n (listed_names (DirEntries entries))
  <-> exists s, In s (sessions_of entries) /\ SessionName s = n.
Proof.
  unfold listed_names, ListNames, sort_Strings. cbn [fst].
  rewrite <- list_elem_of_In, merge_sort_Permutation, list_elem_of_In.
  rewrite list_names_loop_spec. cbn [app]. fold (dedup (map SessionName (sessions_of entries))).
  rewrite dedup_In, in_map_iff. split; intros [s [H1 H2]]; exists s; tauto.
Qed.

(** X14: [ListNames] gives the names of the session directories whose
    [.name] file is readable and not blank: each name once, in ascending
    order, trimmed, never the empty name; a missing sessions directory
    gives no name and no error. *)
Theorem list_names_sorted_unique (entries : list DirEntry) :
  exists names,
    ListNames (DirEntries entries) = (names, None)
    /\ StronglySorted bytes_le names
    /\ List.NoDup names
    /\ (forall n, In n names <-> exists s, In s (sessions_of entries) /\ SessionName s = n)
    /\ (forall n, In n names -> n <> [] /\ TrimSpace n = n)
    /\ ListNames DirNotExist = ([], None).
Proof.
  eexists. split; [reflexivity|].
  split; [apply StronglySorted_merge_sort; apply _|].
  split.
  - apply NoDup_ListNoDup. unfold sort_Strings. rewrite merge_sort_Permutation.
    apply NoDup_ListNoDup. rewrite list_names_loop_spec. apply dedup_from_NoDup.
  - split; [exact (listed_names_In entries)|]. split; [|reflexivity].
    intros n Hn. apply (listed_names_In entries) in Hn. destruct Hn as [s [Hs <-]].
    now apply (session_name_trimmed entries).
Qed.

Lemma resolved_is_session (entries : list DirEntry) (selector name : bytes) :
  ResolveSelector (DirEntries entries) selector = (name, true, None) ->
  exists s, In s (sessions_of entries) /\ SessionName s = name.
Proof.
  unfold ResolveSelector.
  destruct (bytes_eqb (TrimSpace selector) []); [discriminate|].
  rewrite resolve_loop_spec. cbn [app].
  destruct (find _ _) as [s|] eqn:E.
  - intros H. inversion H; subst. apply find_some in E. exists s. tauto.
  - destruct (List.filter _ _) as [|s [|s' l]] eqn:F; cbn [map]; try discriminate.
    intros H. inversion H; subst. exists s. split; [|reflexivity].
    assert (Hin : In s (List.filter (prefix_match (TrimSpace selector)) (sessions_of entries)))
      by (rewrite F; now left).
    apply filter_In in Hin. tauto.
Qed.

(** X15: [ResolveSelector] and [ListNames] agree on what a session is: a
    selector only ever resolves to a listed name, and every listed name,
    given as the selector, resolves to a listed name, which is that name itself
    unless some session directory is called like it. *)
Theorem resolved_names_are_listed (entries : list DirEntry) :
  let names := listed_names (DirEntries entries) in
  (forall selector name,
      ResolveSelector (DirEntries entries) selector = (name, true, None) ->
      In name names)
  /\ (forall n, In n names ->
        exists n',
          ResolveSelector (DirEntries entries) n = (n', true, None)
          /\ In n' names
          /\ ((forall s, In s (sessions_of entries) -> SessionId s <> n) -> n' = n)).
Proof.
  cbv zeta. split.
  - intros selector name H. apply listed_names_In.
    now apply (resolved_is_session entries selector).
  - intros n Hn. apply listed_names_In in Hn. destruct Hn as [s [Hs Hname]].
    destruct (session_name_trimmed entries s Hs) as [Hne Htrim].
    rewrite Hname in Hne, Htrim.
    unfold ResolveSelector. rewrite Htrim.
    apply bytes_eqb_false in Hne. rewrite Hne.
    rewrite resolve_loop_spec.
    destruct (find (exact_match n) (sessions_of entries)) as [x|] eqn:E.
    + apply find_some in E. destruct E as [Hx Hex].
      exists (SessionName x). split; [reflexivity|].
      split; [apply listed_names_In; now exists x|].
      intros Hid. unfold exact_match in Hex. apply orb_true_iff in Hex.
      destruct Hex as [H|H]; apply bytes_eqb_true in H; [exact H|].
      now destruct (Hid x Hx).
    + exfalso. apply (find_none _ _ E) in Hs. unfold exact_match in Hs.
      rewrite Hname in Hs.
      now rewrite (proj2 (bytes_eqb_true n n) eq_refl) in Hs.
Qed.

Lemma session_of_named (n : bytes) (e : DirEntry) (s : Session) :
  session_of e = Some s -> entry_named n e = bytes_eqb (SessionName s) n.
Proof.
  unfold session_of, entry_named.
  destruct (IsDir e); [|discriminate]. destruct (NameFile e) as [raw|]; [|discriminate].
  destruct (bytes_eqb (TrimSpace raw) []); [discriminate|].
  intros H. inversion H; subst. reflexivity.
Qed.

Lemma named_session_of (n : bytes) (e : DirEntry) :
  n <> [] -> entry_named n e = true ->
  session_of e = Some {| SessionId := EntryName e; SessionName := n |}.
Proof.
  unfold session_of, entry_named. intros Hne.
  destruct (IsDir e); [|discriminate]. destruct (NameFile e) as [raw|]; [|discriminate].
  cbn [andb]. intros H. apply bytes_eqb_true in H. rewrite H.
  apply bytes_eqb_false in Hne. now rewrite Hne.
Qed.

Lemma remove_loop_cons (n : bytes) (rm_ok : bytes -> bool) (e : DirEntry)
    (rest : list DirEntry) (removed : bool) :
  remove_loop n rm_ok (e :: rest) removed
  = if entry_named n e
    then if rm_ok (EntryName e) then remove_loop n rm_ok rest true
         else (e :: rest, (false, Some (ErrRemoveSession n)))
    else let '(kept, r) := remove_loop n rm_ok rest removed in (e :: kept, r).
Proof.
  cbn [remove_loop]. unfold entry_named.
  destruct (IsDir e); cbn [negb andb]; [|reflexivity].
  destruct (NameFile e) as [raw|]; [|reflexivity].
  now destruct (bytes_eqb (TrimSpace raw) n).
Qed.

Lemma remove_loop_all (n : bytes) (entries : list DirEntry) (removed : bool) :
  remove_loop n (fun _ => true) entries removed
  = (List.filter (fun e => negb (entry_named n e)) entries,
     (removed || existsb (entry_named n) entries, None)).
Proof.
  revert removed. induction entries as [|e entries IH]; intros removed.
  - cbn. now rewrite orb_false_r.
  - rewrite remove_loop_cons. cbn [List.filter existsb].
    destruct (entry_named n e); cbn [negb orb]; rewrite IH.
    + cbn [orb]. now rewrite orb_true_r.
    + reflexivity.
Qed.

Lemma kept_sessions (n : bytes) (entries : list DirEntry) (s : Session) :
  In s (sessions_of (List.filter (fun e => negb (entry_named n e)) entries))
  <-> In s (sessions_of entries) /\ SessionName s <> n.
Proof.
  rewrite !sessions_of_In. split.
  - intros [e [He Hs]]. apply filter_In in He as [He Hn].
    rewrite (session_of_named n e s Hs) in Hn. apply negb_true_iff in Hn.
    split; [now exists e | now apply bytes_eqb_false].
  - intros [[e [He Hs]] Hn]. exists e. split; [|exact Hs].
    apply filter_In. split; [exact He|].
    rewrite (session_of_named n e s Hs). apply negb_true_iff.
    now apply bytes_eqb_false.
Qed.

Lemma named_listed (n : bytes) (entries : list DirEntry) :
  n <> [] ->
  existsb (entry_named n) entries = true <-> In n (listed_names (DirEntries entries)).
Proof.
  intros Hne. rewrite listed_names_In, existsb_exists. split.
  - intros [e [He Hn]]. exists {| SessionId := EntryName e; SessionName := n |}.
    split; [|reflexivity]. apply sessions_of_In. exists e. split; [exact He|].
    now apply named_session_of.
  - intros [s [Hs Hn]]. apply sessions_of_In in Hs. destruct Hs as [e [He Hs]].
    exists e. split; [exact He|]. rewrite (session_of_named n e s Hs), Hn.
    now apply bytes_eqb_true.
Qed.

(** X16: [RemoveByName] with every removal succeeding: the result tells
    whether the name was listed; afterwards the name is no longer listed
    and no selector resolves to it, every other name is listed as before,
    and [.active-session] is removed when it held the name and kept when
    it held another. *)
Theorem remove_by_name_removes
    (files : SessionFiles) (entries : list DirEntry) (rm_active_ok : bool)
    (name : bytes) :
  sessions_dir files = DirEntries entries ->
  TrimSpace name <> [] ->
  let n := TrimSpace name in
  exists files' removed,
    RemoveByName files (fun _ => true) rm_active_ok name = (files', (removed, None))
    /\ (removed = true <-> In n (listed_names (sessions_dir files)))
    /\ (forall m, In m (listed_names (sessions_dir files'))
                  <-> In m (listed_names (sessions_dir files)) /\ m <> n)
    /\ (forall selector m,
          ResolveSelector (sessions_dir files') selector = (m, true, None) -> m <> n)
    /\ (forall raw, active_session files = Some raw ->
          (TrimSpace raw <> n -> active_session files' = Some raw)
          /\ (TrimSpace raw = n -> removed = true -> rm_active_ok = true ->
              active_session files' = None)).
Proof.
  intros Hdir Hne n. unfold RemoveByName. fold n.
  rewrite (proj2 (bytes_eqb_false n []) Hne), Hdir, remove_loop_all. cbn [orb].
  eexists. eexists. split; [reflexivity|]. cbn [sessions_dir active_session].
  split; [exact (named_listed n entries Hne)|].
  split; [|split].
  - intros m. rewrite !listed_names_In. split.
    + intros [s [Hs Hm]]. apply kept_sessions in Hs as [Hs Hn].
      split; [now exists s | congruence].
    + intros [[s [Hs Hm]] Hn]. exists s. split; [|exact Hm].
      apply kept_sessions. split; [exact Hs | congruence].
  - intros selector m Hres. apply resolved_is_session in Hres.
    destruct Hres as [s [Hs Hm]]. apply kept_sessions in Hs as [_ Hn]. congruence.
  - intros raw Hraw. rewrite Hraw. split.
    + intros Hother. apply bytes_eqb_false in Hother. rewrite Hother.
      cbn [andb]. now destruct (existsb _ _).
    + intros Hsame -> ->. apply bytes_eqb_true in Hsame. now rewrite Hsame.
Qed.

Lemma remove_loop_stops (n : bytes) (rm_ok : bytes -> bool)
    (before after : list DirEntry) (e : DirEntry) (removed : bool) :
  entry_named n e = true -> rm_ok (EntryName e) = false ->
  (forall x, In x before -> entry_named n x = true -> rm_ok (EntryName x) = true) ->
  remove_loop n rm_ok (before ++ e :: after) removed
  = (List.filter (fun x => negb (entry_named n x)) before ++ e :: after,
     (false, Some (ErrRemoveSession n))).
Proof.
  intros He Hfail. revert removed.
  induction before as [|x before IH]; intros removed Hok.
  - cbn [app List.filter]. now rewrite remove_loop_cons, He, Hfail.
  - cbn [app List.filter]. rewrite remove_loop_cons.
    assert (Hrest : forall y, In y before -> entry_named n y = true ->
                              rm_ok (EntryName y) = true)
      by (intros y Hy; apply Hok; now right).
    pose proof (Hok x (or_introl eq_refl)) as Hx.
    destruct (entry_named n x); cbn [negb].
    + rewrite (Hx eq_refl). apply IH, Hrest.
    + now rewrite (IH removed Hrest).
Qed.

(** X17: where [RemoveByName] refuses or stops.  A blank name is refused
    and nothing is touched.  When the removal of a session directory of
    that name fails, the call reports not-removed with the error although
    the directories of that name before it are gone; the failing one and
    everything after it stay, and [.active-session] is not touched. *)
Theorem remove_by_name_failure
    (files : SessionFiles) (rm_ok : bytes -> bool) (rm_active_ok : bool)
    (name : bytes) :
  (TrimSpace name = [] ->
   RemoveByName files rm_ok rm_active_ok name = (files, (false, Some ErrEmptySessionName)))
  /\ (forall before e after,
        TrimSpace name <> [] ->
        sessions_dir files = DirEntries (before ++ e :: after) ->
        entry_named (TrimSpace name) e = true ->
        rm_ok (EntryName e) = false ->
        (forall x, In x before -> entry_named (TrimSpace name) x = true ->
                   rm_ok (EntryName x) = true) ->
        RemoveByName files rm_ok rm_active_ok name
        = ({| sessions_dir :=
                DirEntries
                  (List.filter (fun x => negb (entry_named (TrimSpace name) x)) before
                   ++ e :: after);
              active_session := active_session files |},
           (false, Some (ErrRemoveSession (TrimSpace name))))).
Proof.
  split.
  - intros Hblank. unfold RemoveByName. now rewrite Hblank.
  - intros before e after Hne Hdir He Hfail Hok. unfold RemoveByName.
    rewrite (proj2 (bytes_eqb_false _ []) Hne), Hdir.
    now rewrite (remove_loop_stops _ rm_ok before after e false He Hfail Hok).
Qed.

Lemma resolved_names_are_listed_witness :
  In (bs "session-a") (listed_names (DirEntries store_unique))
  /\ exists n', ResolveSelector (DirEntries store_unique) (bs "session-b") = (n', true, None)
                /\ n' = bs "session-b".
Proof.
  destruct (resolved_names_are_listed store_unique) as [H1 H2]. split.
  - apply (H1 (bs "id_abc")). vm_compute. reflexivity.
  - destruct (H2 (bs "session-b")) as [n' [Hr [_ Hn]]].
    + vm_compute. auto.
    + exists n'. split; [exact Hr|]. apply Hn. intros s Hs.
      vm_compute in Hs. destruct Hs as [<-|[<-|[]]]; discriminate.
Defined.

Lemma remove_by_name_removes_witness :
  exists files',
    RemoveByName files_twice (fun _ => true) true (bs " alpha ") = (files', (true, None))
    /\ ~ In (bs "alpha") (listed_names (sessions_dir files'))
    /\ In (bs "beta") (listed_names (sessions_dir files'))
    /\ active_session files' = None.
Proof.
  destruct (remove_by_name_removes files_twice store_twice true (bs " alpha ") eq_refl)
    as [files' [removed [H1 [H2 [H3 [_ H5]]]]]].
  - vm_compute. discriminate.
  - assert (Hr : removed = true) by (apply H2; vm_compute; auto).
    exists files'. rewrite Hr in H1. split; [exact H1|].
    split; [intros Hin; apply H3 in Hin; destruct Hin as [_ Hne]; now apply Hne|].
    split; [apply H3; split; [vm_compute; auto | vm_compute; discriminate]|].
    destruct (H5 (bs "alpha" ++ [LF]) eq_refl) as [_ Hgone].
    apply Hgone; [vm_compute; reflexivity | exact Hr | reflexivity].
Defined.

Lemma remove_by_name_failure_witness :
  RemoveByName files_twice rm_fails_on_id_3 true (bs "alpha")
  = ({| sessions_dir := DirEntries [session_dir "id_2" "beta"; session_dir "id_3" "alpha"];
        active_session := Some (bs "alpha" ++ [LF]) |},
     (false, Some (ErrRemoveSession (bs "alpha")))).
Proof.
  destruct (remove_by_name_failure files_twice rm_fails_on_id_3 true (bs "alpha"))
    as [_ H].
  apply (H [session_dir "id_1" "alpha"; session_dir "id_2" "beta"]
           (session_dir "id_3" "alpha") []).
  - vm_compute. discriminate.
  - reflexivity.
  - vm_compute. reflexivity.
  - vm_compute. reflexivity.
  - intros x [<-|[<-|[]]] Hx; vm_compute in Hx |- *; [reflexivity | discriminate].
Defined.

(** ** Shell completion of session names *)

Lemma complete_names_loop_inv (t : bytes) (names : list bytes) :
  forall (seen : gset bytes) (out : list bytes),
    (forall x, x ∈ seen <-> In x out) ->
    List.NoDup out ->
    exists seen' out',
      complete_names_loop t names seen out = (seen', out')
      /\ (forall x, x ∈ seen' <-> In x out')
      /\ List.NoDup out'
      /\ (forall x, In x out' <-> In x out \/ (In x names /\ HasPrefix x t = true)).
Proof.
  induction names as [|n names IH]; intros seen out Hseen Hnd.
  - exists seen, out. cbn. split; [reflexivity|]. split; [exact Hseen|].
    split; [exact Hnd|]. intros x. tauto.
  - cbn [complete_names_loop].
    destruct (HasPrefix n t) eqn:Hp; cbn [negb].
    + destruct (bool_decide (n ∈ seen)) eqn:Hs.
      * apply bool_decide_eq_true in Hs.
        destruct (IH seen out Hseen Hnd) as [seen' [out' [HE [H1 [H2 H3]]]]].
        exists seen', out'. split; [exact HE|]. split; [exact H1|]. split; [exact H2|].
        intros x. rewrite H3. cbn [In]. split; [tauto|].
        intros [Hx|[[<-|Hx] Hpx]]; [tauto | left; now apply Hseen | tauto].
      * apply bool_decide_eq_false in Hs.
        destruct (IH ({[n]} ∪ seen) (out ++ [n])) as [seen' [out' [HE [H1 [H2 H3]]]]].
        { intros x. rewrite elem_of_union, elem_of_singleton, in_app_iff, Hseen.
          cbn [In]. split; [intros [->|H]; tauto | intros [H|[->|[]]]; tauto]. }
        { apply NoDup_ListNoDup, NoDup_app. split; [now apply NoDup_ListNoDup|].
          split; [|apply NoDup_singleton].
          intros x Hx Hxn. apply list_elem_of_singleton in Hxn. subst x.
          apply Hs, Hseen. now apply list_elem_of_In. }
        exists seen', out'. split; [exact HE|]. split; [exact H1|]. split; [exact H2|].
        intros x. rewrite H3, in_app_iff. cbn [In]. split.
        -- intros [[Hx|[<-|[]]]|Hx]; tauto.
        -- intros [Hx|[[<-|Hx] Hpx]]; tauto.
    + destruct (IH seen out Hseen Hnd) as [seen' [out' [HE [H1 [H2 H3]]]]].
      exists seen', out'. split; [exact HE|]. split; [exact H1|]. split; [exact H2|].
      intros x. rewrite H3. cbn [In]. split; [tauto|].
      intros [Hx|[[<-|Hx] Hpx]]; [tauto | congruence | tauto].
Qed.

Lemma complete_agents_loop_inv (t : bytes) (dirs : list ReadDirResult) :
  forall (seen : gset bytes) (out : list bytes),
    (forall x, x ∈ seen <-> In x out) ->
    List.NoDup out ->
    let out' := complete_agents_loop t dirs seen out in
    List.NoDup out'
    /\ (forall x, In x out'
                  <-> In x out
                      \/ (HasPrefix x t = true
                          /\ exists dir, In dir dirs /\ In x (listed_names dir))).
Proof.
  induction dirs as [|dir dirs IH]; intros seen out Hseen Hnd; cbv zeta.
  - cbn. split; [exact Hnd|]. intros x. split; [tauto|].
    intros [H|[_ [dir [[] _]]]]. exact H.
  - cbn [complete_agents_loop].
    assert (Hnames : listed_names dir = (ListNames dir).1) by reflexivity.
    destruct (ListNames dir) as [names [err|]] eqn:HL; cbn [fst] in Hnames.
    + assert (Hnil : names = []) by (destruct dir; cbn in HL; inversion HL; reflexivity).
      rewrite Hnil in Hnames.
      destruct (IH seen out Hseen Hnd) as [H1 H2]. split; [exact H1|].
      intros x. rewrite H2. split.
      * intros [H|[Hp [d [Hd Hx]]]]; [tauto|]. right. split; [exact Hp|].
        exists d. split; [now right | exact Hx].
      * intros [H|[Hp [d [[<-|Hd] Hx]]]]; [tauto | rewrite Hnames in Hx; destruct Hx |].
        right. split; [exact Hp|]. now exists d.
    + destruct (complete_names_loop_inv t names seen out Hseen Hnd)
        as [seen' [out' [HE [H1 [H2 H3]]]]].
      rewrite HE. destruct (IH seen' out' H1 H2) as [H4 H5]. split; [exact H4|].
      intros x. rewrite H5, H3. split.
      * intros [[H|[Hx Hp]]|[Hp [d [Hd Hx]]]]; [tauto | |].
        -- right. split; [exact Hp|]. exists dir. split; [now left | now rewrite Hnames].
        -- right. split; [exact Hp|]. exists d. split; [now right | exact Hx].
      * intros [H|[Hp [d [[<-|Hd] Hx]]]]; [tauto | rewrite Hnames in Hx; tauto |].
        right. split; [exact Hp|]. now exists d.
Qed.

(** X18: the completion of session names offers, in ascending order and
    each once, the names that some agent's sessions directory lists and
    that start with the typed text; a directory that cannot be read adds
    nothing. *)
Theorem complete_session_names_listed (dirs : list ReadDirResult) (toComplete : bytes) :
  let out := completeSessionNames dirs toComplete in
  StronglySorted bytes_le out
  /\ List.NoDup out
  /\ (forall n, In n out
                <-> HasPrefix n toComplete = true
                    /\ exists dir, In dir dirs /\ In n (listed_names dir))
  /\ completeSessionNames (DirReadError :: dirs) toComplete = out.
Proof.
  cbv zeta. unfold completeSessionNames.
  destruct (complete_agents_loop_inv toComplete dirs ∅ []) as [H1 H2].
  { intros x. cbn. split; [intros H; now apply not_elem_of_empty in H | tauto]. }
  { constructor. }
  split; [apply StronglySorted_merge_sort; apply _|].
  split.
  - apply NoDup_ListNoDup. unfold sort_Strings. rewrite merge_sort_Permutation.
    now apply NoDup_ListNoDup.
  - split; [|reflexivity].
    intros n. unfold sort_Strings. rewrite <- list_elem_of_In, merge_sort_Permutation.
    rewrite list_elem_of_In, H2. cbn [In]. tauto.
Qed.

(** ** The workspace flag among the arguments of a run *)

Lemma parse_workspace_plain (args : list bytes) (w : bytes) :
  Forall (fun x => plain_arg x = true) args -> parse_workspace_loop args w = w.
Proof.
  induction 1 as [|x args Hx _ IH]; [reflexivity|].
  unfold plain_arg in Hx. apply andb_true_iff in Hx as [H1 H2].
  apply negb_true_iff in H1, H2. cbn [parse_workspace_loop]. now rewrite H1, H2.
Qed.

Lemma parse_workspace_cons (arg : bytes) (rest : list bytes) (w : bytes) :
  parse_workspace_loop (arg :: rest) w
  = if workspace_flag arg then
      match rest with
      | value :: rest' => parse_workspace_loop rest' value
      | [] => w
      end
    else if HasPrefix arg (bs "--workspace=")
    then parse_workspace_loop rest (skipn (length (bs "--workspace=")) arg)
    else parse_workspace_loop rest w.
Proof. reflexivity. Qed.

Lemma dangling_flag_cons (arg : bytes) (rest : list bytes) :
  dangling_flag (arg :: rest)
  = if workspace_flag arg then
      match rest with
      | _ :: rest' => dangling_flag rest'
      | [] => true
      end
    else dangling_flag rest.
Proof. reflexivity. Qed.

Lemma parse_workspace_app (a b : list bytes) :
  forall w,
    parse_workspace_loop (a ++ b) w
    = if dangling_flag a
      then match b with
           | v :: b' => parse_workspace_loop b' v
           | [] => parse_workspace_loop a w
           end
      else parse_workspace_loop b (parse_workspace_loop a w).
Proof.
  remember (length a) as n eqn:Hn. revert a Hn.
  induction n as [n IH] using lt_wf_ind. intros a Hn w.
  destruct a as [|x a1]; [reflexivity|].
  rewrite <- app_comm_cons, dangling_flag_cons, !parse_workspace_cons.
  destruct (workspace_flag x).
  - destruct a1 as [|y a']; cbn [app].
    + now destruct b.
    + apply (IH (length a')); [cbn in Hn; lia | reflexivity].
  - destruct (HasPrefix x (bs "--workspace="));
      apply (IH (length a1)); cbn in Hn |- *; lia || reflexivity.
Qed.

Lemma workspace_equals_arg (v : bytes) :
  workspace_flag (bs "--workspace=" ++ v) = false
  /\ HasPrefix (bs "--workspace=" ++ v) (bs "--workspace=") = true
  /\ skipn (length (bs "--workspace=")) (bs "--workspace=" ++ v) = v.
Proof.
  split; [|split].
  - unfold workspace_flag. apply orb_false_iff.
    split; apply bytes_eqb_false; cbn; [discriminate|].
    intros H. apply (f_equal (@length ascii)) in H. cbn in H. lia.
  - apply HasPrefix_app.
  - reflexivity.
Qed.

(** X19: the workspace override read from the arguments of a run.  After
    arguments that leave no flag waiting for its value, the last of
    [-w v], [--workspace v] and [--workspace=v] gives the override, a
    trailing flag without a value changes nothing, and arguments that are
    no workspace flag change nothing.  After a flag that waits for its
    value, the next argument is the value whatever it looks like. *)
Theorem workspace_override_last_wins (a rest : list bytes) :
  (dangling_flag a = false ->
   Forall (fun x => plain_arg x = true) rest ->
   (forall v,
       parseWorkspaceOverrideFromRunArgs (a ++ bs "-w" :: v :: rest) = v
       /\ parseWorkspaceOverrideFromRunArgs (a ++ bs "--workspace" :: v :: rest) = v
       /\ parseWorkspaceOverrideFromRunArgs (a ++ (bs "--workspace=" ++ v) :: rest) = v)
   /\ parseWorkspaceOverrideFromRunArgs (a ++ [bs "-w"])
      = parseWorkspaceOverrideFromRunArgs a
   /\ parseWorkspaceOverrideFromRunArgs (a ++ rest)
      = parseWorkspaceOverrideFromRunArgs a)
  /\ (dangling_flag a = true ->
      forall v, parseWorkspaceOverrideFromRunArgs (a ++ v :: rest)
                = parse_workspace_loop rest v).
Proof.
  unfold parseWorkspaceOverrideFromRunArgs. split.
  - intros Hd Hrest. split; [|split].
    + intros v. destruct (workspace_equals_arg v) as [H1 [H2 H3]].
      rewrite !parse_workspace_app, Hd, !parse_workspace_cons, H1, H2, H3.
      change (workspace_flag (bs "-w")) with true.
      change (workspace_flag (bs "--workspace")) with true.
      cbv beta match. rewrite !(parse_workspace_plain rest _ Hrest). auto.
    + rewrite parse_workspace_app, Hd. reflexivity.
    + rewrite parse_workspace_app, Hd. now apply parse_workspace_plain.
  - intros Hd v. now rewrite parse_workspace_app, Hd.
Qed.

Lemma workspace_override_witness :
  parseWorkspaceOverrideFromRunArgs
    [bs "-w"; bs "one"; bs "--resume"; bs "--workspace=two"; bs "-w"; bs "three"; bs "x"]
  = bs "three"
  /\ parseWorkspaceOverrideFromRunArgs [bs "--workspace"; bs "--workspace=two"; bs "x"]
     = bs "--workspace=two".
Proof.
  destruct (workspace_override_last_wins
              [bs "-w"; bs "one"; bs "--resume"; bs "--workspace=two"] [bs "x"])
    as [H1 _].
  destruct (workspace_override_last_wins [bs "--workspace"] [bs "x"]) as [_ H2].
  split.
  - destruct H1 as [H1 _]; [reflexivity | |].
    + constructor; [reflexivity | constructor].
    + exact (proj1 (H1 (bs "three"))).
  - exact (H2 eq_refl (bs "--workspace=two")).
Defined.

(** ** Deduplication and the migration of the user tools *)

Lemma dedup_from_id (seen : gset bytes) (l : list bytes) :
  List.NoDup l -> (forall x, In x l -> x ∉ seen) -> dedup_from seen l = l.
Proof.
  revert seen. induction l as [|s l IH]; intros seen Hnd Hseen; [reflexivity|].
  apply List.NoDup_cons_iff in Hnd as [Hs Hnd]. cbn [dedup_from].
  rewrite bool_decide_eq_false_2 by (apply Hseen; now left).
  f_equal. apply IH; [exact Hnd|].
  intros x Hx. rewrite not_elem_of_union, not_elem_of_singleton. split.
  - intros ->. contradiction.
  - apply Hseen. now right.
Qed.

Lemma dedup_from_sublist (seen : gset bytes) (l : list bytes) :
  sublist (dedup_from seen l) l.
Proof.
  revert seen. induction l as [|s l IH]; intros seen; cbn [dedup_from].
  - constructor.
  - destruct (bool_decide (s ∈ seen)).
    + apply sublist_cons, IH.
    + apply sublist_skip, IH.
Qed.

Lemma dedup_from_keeps_front (seen : gset bytes) (front rest : list bytes) :
  List.NoDup front -> (forall x, In x front -> x ∉ seen) ->
  exists tail, dedup_from seen (front ++ rest) = front ++ tail.
Proof.
  revert seen. induction front as [|s front IH]; intros seen Hnd Hseen.
  - eexists. reflexivity.
  - apply List.NoDup_cons_iff in Hnd as [Hs Hnd]. cbn [app dedup_from].
    rewrite bool_decide_eq_false_2 by (apply Hseen; now left).
    destruct (IH ({[s]} ∪ seen) Hnd) as [tail Htail].
    { intros x Hx. rewrite not_elem_of_union, not_elem_of_singleton. split.
      - intros ->. contradiction.
      - apply Hseen. now right. }
    exists tail. now rewrite Htail.
Qed.

(** X20: [dedup] keeps the first occurrence of every string and nothing
    else: the result has no duplicate, holds the same strings as the
    input, is a subsequence of it, begins with the input's first string,
    and is the input itself when that has no duplicate; so applying it
    twice changes nothing more. *)
Theorem dedup_first_occurrences (l : list bytes) :
  List.NoDup (dedup l)
  /\ (forall x, In x (dedup l) <-> In x l)
  /\ sublist (dedup l) l
  /\ head (dedup l) = head l
  /\ (List.NoDup l -> dedup l = l)
  /\ dedup (dedup l) = dedup l.
Proof.
  assert (Hid : forall m, List.NoDup m -> dedup m = m).
  { intros m Hm. apply dedup_from_id; [exact Hm|].
    intros x _. apply not_elem_of_empty. }
  split; [apply dedup_from_NoDup|].
  split; [exact (dedup_In l)|].
  split; [apply dedup_from_sublist|].
  split; [destruct l; reflexivity|].
  split; [exact (Hid l)|].
  apply Hid, dedup_from_NoDup.
Qed.

Lemma replacement_cases (p r : bytes) :
  packageReplacements !! p = Some r ->
  (p = bs "terraform" /\ r = bs "opentofu") \/ (p = bs "ansible" /\ r = [])
  \/ (p = bs "docker" /\ r = bs "docker-cli") \/ (p = bs "node" /\ r = bs "nodejs").
Proof.
  unfold packageReplacements. cbn [list_to_map foldr uncurry fst snd].
  rewrite !lookup_insert_Some, lookup_empty. intuition (subst; auto; discriminate).
Qed.

Lemma replacement_not_deprecated (p r : bytes) :
  packageReplacements !! p = Some r -> packageReplacements !! r = None.
Proof.
  intros H. apply replacement_cases in H.
  destruct H as [[_ ->]|[[_ ->]|[[_ ->]|[_ ->]]]]; vm_compute; reflexivity.
Qed.

Lemma migrate_loop_spec (pkgs : list bytes) (seen : gset bytes) (migrated : list bytes) :
  migrate_loop pkgs seen migrated
  = migrated ++ dedup_from seen (flat_map migrated_package pkgs).
Proof.
  revert seen migrated. induction pkgs as [|p pkgs IH]; intros seen migrated.
  - cbn. now rewrite app_nil_r.
  - cbn [migrate_loop flat_map]. unfold migrated_package at 1.
    destruct (packageReplacements !! p) as [r|].
    + destruct (bytes_eqb r []); cbn [negb andb app]; [apply IH|].
      cbn [dedup_from]. destruct (bool_decide (r ∈ seen)); cbn [negb]; [apply IH|].
      rewrite IH. now rewrite <- app_assoc.
    + cbn [app dedup_from]. destruct (bool_decide (p ∈ seen)); cbn [negb]; [apply IH|].
      rewrite IH. now rewrite <- app_assoc.
Qed.

Lemma migrated_package_In (p x : bytes) :
  In x (migrated_package p)
  <-> (x = p /\ packageReplacements !! p = None)
      \/ (packageReplacements !! p = Some x /\ x <> []).
Proof.
  unfold migrated_package. destruct (packageReplacements !! p) as [r|].
  - destruct (bytes_eqb r []) eqn:E.
    + apply bytes_eqb_true in E. subst r. cbn.
      split; [tauto|]. intros [[_ H]|[H Hx]]; [discriminate | congruence].
    + apply bytes_eqb_false in E. cbn. split.
      * intros [<-|[]]. right. auto.
      * intros [[_ H]|[H _]]; [discriminate | left; congruence].
  - cbn. split.
    + intros [<-|[]]. left. auto.
    + intros [[-> _]|[H _]]; [now left | discriminate].
Qed.

(** X21: [migrateTools] rewrites the user tools only: the new list has no
    duplicate and no deprecated package; it holds the tools that are not
    deprecated and the non-empty replacements of those that are, and
    nothing else; a list without duplicates and without deprecated
    packages is left as it is, so migrating twice is migrating once. *)
Theorem migrate_tools_result (cfg : Config) :
  let out := ToolsUser (migrateTools cfg) in
  List.NoDup out
  /\ (forall p, In p out -> packageReplacements !! p = None)
  /\ (forall p, In p out
                <-> (In p (ToolsUser cfg) /\ packageReplacements !! p = None)
                    \/ (exists q, In q (ToolsUser cfg)
                                  /\ packageReplacements !! q = Some p /\ p <> []))
  /\ (List.NoDup (ToolsUser cfg) ->
      (forall p, In p (ToolsUser cfg) -> packageReplacements !! p = None) ->
      migrateTools cfg = cfg)
  /\ migrateTools (migrateTools cfg) = migrateTools cfg
  /\ WorkspacesItems (migrateTools cfg) = WorkspacesItems cfg.
Proof.
  cbv zeta.
  assert (Hin : forall c p,
            In p (ToolsUser (migrateTools c))
            <-> (In p (ToolsUser c) /\ packageReplacements !! p = None)
                \/ (exists q, In q (ToolsUser c)
                              /\ packageReplacements !! q = Some p /\ p <> [])).
  { intros c p. unfold migrateTools, with_tools. cbn [ToolsUser].
    rewrite migrate_loop_spec. cbn [app].
    fold (dedup (flat_map migrated_package (ToolsUser c))).
    rewrite dedup_In, in_flat_map. split.
    - intros [q [Hq Hp]]. apply migrated_package_In in Hp.
      destruct Hp as [[-> Hn]|[Hs Hne]]; [left; auto | right; eauto].
    - intros [[Hp Hn]|[q [Hq [Hs Hne]]]].
      + exists p. split; [exact Hp|]. apply migrated_package_In. auto.
      + exists q. split; [exact Hq|]. apply migrated_package_In. auto. }
  assert (Hnd : forall c, List.NoDup (ToolsUser (migrateTools c))).
  { intros c. unfold migrateTools, with_tools. cbn [ToolsUser].
    rewrite migrate_loop_spec. apply dedup_from_NoDup. }
  assert (Hclean : forall c p, In p (ToolsUser (migrateTools c)) ->
                               packageReplacements !! p = None).
  { intros c p Hp. apply Hin in Hp. destruct Hp as [[_ H]|[q [_ [H _]]]]; [exact H|].
    now apply (replacement_not_deprecated q). }
  assert (Hfix : forall c, List.NoDup (ToolsUser c) ->
                   (forall p, In p (ToolsUser c) -> packageReplacements !! p = None) ->
                   migrateTools c = c).
  { intros c Hn Hc. unfold migrateTools, with_tools. rewrite migrate_loop_spec. cbn [app].
    assert (Hflat : flat_map migrated_package (ToolsUser c) = ToolsUser c).
    { clear Hn. induction (ToolsUser c) as [|p l IH]; [reflexivity|].
      cbn [flat_map]. unfold migrated_package at 1. rewrite (Hc p (or_introl eq_refl)).
      cbn [app]. f_equal. apply IH. intros q Hq. apply Hc. now right. }
    rewrite Hflat, dedup_from_id; [now destruct c | exact Hn |].
    intros x _. apply not_elem_of_empty. }
  split; [apply Hnd|]. split; [apply Hclean|]. split; [apply Hin|].
  split; [apply Hfix|]. split; [|reflexivity].
  apply Hfix; [apply Hnd | apply Hclean].
Qed.

(** ** The pairs that the [.env] parser can produce *)

Lemma dropCR_In (s : bytes) (c : ascii) : In c (dropCR s) -> In c s.
Proof.
  unfold dropCR. destruct (reverse s) as [|x r] eqn:E; [tauto|].
  destruct (Ascii.eqb x CR); [|tauto].
  apply (f_equal (@reverse ascii)) in E. rewrite reverse_involutive in E.
  rewrite E, reverse_cons, in_app_iff. tauto.
Qed.

Lemma scan_tokens_no_LF (fuel : nat) (data : bytes) :
  Forall (fun l => ~ In LF l) (scan_tokens fuel data).
Proof.
  revert data. induction fuel as [|fuel IH]; intros data; cbn [scan_tokens].
  - constructor.
  - destruct data as [|c data]; [constructor|].
    destruct (IndexByte (c :: data) LF) as [i|] eqn:E.
    + destruct (Z.of_nat i <? MaxScanTokenSize)%Z; [|constructor].
      constructor; [|apply IH].
      intros H. apply dropCR_In in H. now apply (IndexByte_Some _ _ _ E).
    + destruct (Z.of_nat (length (c :: data)) <? MaxScanTokenSize)%Z; [|constructor].
      constructor; [|constructor].
      intros H. apply dropCR_In in H. now apply (IndexByte_None _ _ E).
Qed.

Lemma strip_quotes_In (s : bytes) (c : ascii) : In c (strip_quotes s) -> In c s.
Proof.
  unfold strip_quotes. destruct s as [|q inner]; [tauto|].
  destruct (reverse inner) as [|q' middle] eqn:E; [tauto|].
  destruct (is_quote q && Ascii.eqb q q'); [|tauto].
  apply (f_equal (@reverse ascii)) in E. rewrite reverse_involutive in E.
  rewrite E, reverse_cons. cbn [In]. rewrite in_app_iff. tauto.
Qed.

Lemma spec_env_entry_pair (text k v : bytes) :
  ~ In LF text -> spec_env_entry text = Some (k, v) -> parsed_pair k v.
Proof.
  intros Hlf. unfold spec_env_entry. cbv zeta.
  destruct (TrimSpace_trimmed text) as [Hlead _].
  assert (Hsub : forall c, In c (TrimSpace text) -> In c text)
    by (intros c; apply TrimSpace_In).
  destruct (TrimSpace text) as [|c line] eqn:El; [discriminate|].
  destruct (Ascii.eqb_spec c "#"%char) as [->|Hc]; [discriminate|].
  rewrite split_first_eq_IndexByte.
  destruct (IndexByte (c :: line) "=") as [i|] eqn:Ei; [|discriminate].
  destruct (IndexByte_Some _ _ _ Ei) as [Hsplit [Hnoeq _]].
  set (k0 := firstn i (c :: line)) in *. set (v0 := skipn (S i) (c :: line)) in *.
  destruct (TrimSpace k0) as [|k1 key] eqn:Ek; [discriminate|].
  intros H. inversion H; subst k v. clear H.
  assert (Hk0 : forall x, In x (k1 :: key) -> In x k0)
    by (intros x; rewrite <- Ek; apply TrimSpace_In).
  assert (Hline : forall x, In x k0 \/ In x v0 -> In x text).
  { intros x Hx. apply Hsub. rewrite Hsplit, in_app_iff. cbn [In]. tauto. }
  split; [discriminate|].
  split; [rewrite <- Ek; apply TrimSpace_idem|].
  split; [intros Hx; apply Hnoeq, Hk0, Hx|].
  split; [intros Hx; apply Hlf, Hline; left; apply Hk0, Hx|].
  split.
  - assert (Hlk0 : leading_space k0 = false).
    { apply (leading_space_prefix k0 ("="%char :: v0)). now rewrite <- Hsplit. }
    unfold TrimSpace in Ek. rewrite (TrimLeftSpace_id k0 Hlk0) in Ek.
    destruct (TrimRightSpace_prefix k0) as [q Hq]. rewrite Ek in Hq.
    assert (Hhead : head (c :: line) = Some k1).
    { rewrite Hsplit, Hq. reflexivity. }
    cbn [head] in Hhead |- *. congruence.
  - intros Hx. apply strip_quotes_In, TrimSpace_In in Hx.
    apply Hlf, Hline. now right.
Qed.

(** X22: every pair that [ParseEnvFile] returns has a key that is not
    empty, carries no surrounding white space, holds no ['='] and no
    newline and does not start with ['#'], and a value without a
    newline. *)
Theorem parse_env_file_pairs (data k v : bytes) :
  ParseEnvFile data !! k = Some v -> parsed_pair k v.
Proof.
  unfold ParseEnvFile, scanner_lines.
  pose proof (scan_tokens_no_LF (S (length data)) data) as Hlines.
  revert Hlines. generalize (scan_tokens (S (length data)) data). intros lines Hlines.
  assert (Hinv : forall env,
            (forall k v, env !! k = Some v -> parsed_pair k v) ->
            forall k v, fold_left parse_env_line lines env !! k = Some v -> parsed_pair k v).
  { induction Hlines as [|text lines Htext _ IH]; intros env Henv; [exact Henv|].
    cbn [fold_left]. apply IH. intros k' v'. rewrite parse_env_line_spec.
    unfold spec_env_add. destruct (spec_env_entry text) as [[k1 v1]|] eqn:E; [|apply Henv].
    destruct (bytes_eq_dec k' k1) as [->|Hne].
    - rewrite lookup_insert_eq. intros [= <-]. now apply (spec_env_entry_pair text).
    - rewrite lookup_insert_ne by congruence. apply Henv. }
  apply Hinv. intros k' v'. now rewrite lookup_empty.
Qed.

Lemma parse_env_file_pairs_witness :
  parsed_pair (bs "KEY") (bs "value").
Proof.
  apply (parse_env_file_pairs env_sample). vm_compute. reflexivity.
Defined.

Lemma toy_user_pairs : user_pairs toy_entries = <[bs "API_KEY" := bs "s"]> ∅.
Proof. vm_compute. reflexivity. Qed.

Lemma toy_user_pairs_ok :
  roundtrip_map (user_pairs toy_entries) /\ lines_fit (user_pairs toy_entries).
Proof.
  rewrite toy_user_pairs. unfold roundtrip_map, lines_fit. split; intros k v H;
    apply lookup_insert_Some in H as [[<- <-]|[_ H]];
    try (rewrite lookup_empty in H; discriminate H);
    try (vm_compute; reflexivity);
    (split; [|split]); repeat split; try reflexivity; try discriminate;
    cbn; intuition discriminate.
Qed.

Lemma vault_edit_unchanged_witness :
  exists disk',
    vault_edit toy_deriveKey toy_view range_keys toy_disk CreateOk (fun _ => true) true
      (bs "ws") (bs "pw") (fun content => Some content) = (disk', None)
    /\ Get toy_view disk' toy_store (bs "API_KEY") = inr (bs "s").
Proof.
  destruct (vault_edit_unchanged toy_deriveKey toy_view toy_view_same range_keys
              toy_disk CreateOk (bs "ws") (bs "pw") salt0 toy_entries
              toy_disk_files eq_refl toy_verified range_keys_perm
              (proj1 toy_user_pairs_ok) (proj2 toy_user_pairs_ok))
    as [[disk' [H1 [H2 _]]] _].
  exists disk'. split; [exact H1|].
  fold toy_key in H2. fold toy_store in H2. rewrite H2. vm_compute. reflexivity.
Defined.

(** ** Development profiles and the packages of the project image *)

Lemma Fields_from_eq (cur s : bytes) :
  Fields_from cur s =
  match s with
  | [] => flush_field cur []
  | c1 :: r1 =>
      if is_space1 c1 then flush_field cur (Fields_from [] r1)
      else
        match r1 with
        | [] => Fields_from (c1 :: cur) r1
        | c2 :: r2 =>
            if is_space2 c1 c2 then flush_field cur (Fields_from [] r2)
            else
              match r2 with
              | [] => Fields_from (c1 :: cur) r1
              | c3 :: r3 =>
                  if is_space3 c1 c2 c3 then flush_field cur (Fields_from [] r3)
                  else Fields_from (c1 :: cur) r1
              end
        end
  end.
Proof. destruct s; reflexivity. Qed.

Lemma has_space_ends (f : bytes) :
  (forall u v, f = u ++ v -> v <> [] -> leading_space v = false) -> has_space f = false.
Proof.
  induction f as [|c f IH]; intros H; [reflexivity|].
  cbn [has_space]. apply orb_false_iff. split.
  - apply (H [] (c :: f)); [reflexivity | discriminate].
  - apply IH. intros u v -> Hv. apply (H (c :: u) v); [reflexivity | exact Hv].
Qed.

Lemma flush_field_ok (cur s : bytes) (fields : list bytes) :
  field_under_way cur s -> Forall field_ok fields ->
  Forall field_ok (flush_field cur fields).
Proof.
  intros Hcur Hfields. destruct cur as [|c cur]; [exact Hfields|].
  cbn [flush_field]. constructor; [|exact Hfields]. split.
  - rewrite reverse_cons. now destruct (reverse cur).
  - apply has_space_ends. intros u v Huv Hv.
    apply (leading_space_prefix v s). now apply (Hcur u v).
Qed.

Lemma field_under_way_nil (s : bytes) : field_under_way [] s.
Proof.
  intros u v H Hv. destruct u, v; try discriminate. congruence.
Qed.

Lemma field_under_way_push (cur : bytes) (c : ascii) (s : bytes) :
  field_under_way cur (c :: s) -> leading_space (c :: s) = false ->
  field_under_way (c :: cur) s.
Proof.
  intros Hcur Hc u v Huv Hv. rewrite reverse_cons in Huv.
  destruct (decide (v = [])) as [->|_]; [congruence|].
  assert (Hlast : exists v', v = v' ++ [c] /\ reverse cur = u ++ v').
  { destruct (reverse v) as [|x rv] eqn:Erv.
    - apply (f_equal (@reverse ascii)) in Erv. rewrite reverse_involutive in Erv.
      rewrite reverse_nil in Erv. congruence.
    - apply (f_equal (@reverse ascii)) in Erv.
      rewrite reverse_involutive, reverse_cons in Erv. subst v.
      rewrite app_assoc in Huv. apply app_inj_tail in Huv as [Hu ->].
      now exists (reverse rv). }
  destruct Hlast as [v' [-> Hu]]. rewrite <- app_assoc. cbn [app].
  destruct v' as [|x v']; [exact Hc|].
  apply (Hcur u (x :: v') Hu). discriminate.
Qed.

Lemma Fields_from_ok (s : bytes) :
  forall cur, field_under_way cur s -> Forall field_ok (Fields_from cur s).
Proof.
  remember (length s) as n eqn:Hn. revert s Hn.
  induction n as [n IH] using lt_wf_ind. intros s Hn cur Hcur.
  rewrite Fields_from_eq.
  destruct s as [|c1 r1].
  { apply (flush_field_ok cur []); [exact Hcur | constructor]. }
  assert (Hsub : forall r, (length r < n)%nat ->
                           Forall field_ok (Fields_from [] r)).
  { intros r Hr. apply (IH (length r) Hr r eq_refl). apply field_under_way_nil. }
  assert (Hflush : forall r, (length r < n)%nat ->
            Forall field_ok (flush_field cur (Fields_from [] r))).
  { intros r Hr. apply (flush_field_ok cur (c1 :: r1)); [exact Hcur | now apply Hsub]. }
  assert (Hpush : leading_space (c1 :: r1) = false ->
                  Forall field_ok (Fields_from (c1 :: cur) r1)).
  { intros Hc. apply (IH (length r1)); [cbn in Hn; lia | reflexivity |].
    now apply field_under_way_push. }
  cbn [length] in Hn.
  destruct (is_space1 c1) eqn:E1; [apply Hflush; lia|].
  destruct r1 as [|c2 r2].
  { apply Hpush. cbn. now rewrite E1. }
  destruct (is_space2 c1 c2) eqn:E2; [apply Hflush; cbn [length] in *; lia|].
  destruct r2 as [|c3 r3].
  { apply Hpush. cbn. now rewrite E1, E2. }
  destruct (is_space3 c1 c2 c3) eqn:E3; [apply Hflush; cbn [length] in *; lia|].
  apply Hpush. cbn. now rewrite E1, E2, E3.
Qed.

Lemma Fields_ok (s : bytes) : Forall field_ok (Fields s).
Proof. apply Fields_from_ok, field_under_way_nil. Qed.

Lemma Fields_from_plain (s : bytes) :
  forall cur, has_space s = false -> Fields_from cur s = flush_field (reverse s ++ cur) [].
Proof.
  induction s as [|c1 r1 IH]; intros cur Hs; [reflexivity|].
  cbn [has_space] in Hs. apply orb_false_iff in Hs as [Hlead Hrest].
  rewrite Fields_from_eq, reverse_cons, <- app_assoc. cbn [app].
  assert (Hpush : Fields_from (c1 :: cur) r1 = flush_field (reverse r1 ++ c1 :: cur) [])
    by now apply IH.
  cbn [leading_space] in Hlead. apply orb_false_iff in Hlead as [E1 Hlead].
  rewrite E1. destruct r1 as [|c2 r2]; [exact Hpush|].
  apply orb_false_iff in Hlead as [E2 Hlead]. rewrite E2.
  destruct r2 as [|c3 r3]; [exact Hpush|].
  rewrite Hlead. exact Hpush.
Qed.

Section ProfileProperties.
Variable catalogue : bytes -> option bytes.

Lemma collect_fields_inv (fields : list bytes) :
  forall (seen : gset bytes) (pkgs : list bytes),
    (forall x, x ∈ seen <-> In x pkgs) ->
    List.NoDup pkgs ->
    exists seen' pkgs',
      collect_fields fields seen pkgs = (seen', pkgs')
      /\ (forall x, x ∈ seen' <-> In x pkgs')
      /\ List.NoDup pkgs'
      /\ (forall x, In x pkgs' <-> In x pkgs \/ In x fields).
Proof.
  induction fields as [|n fields IH]; intros seen pkgs Hseen Hnd.
  - exists seen, pkgs. cbn. split; [reflexivity|]. split; [exact Hseen|].
    split; [exact Hnd|]. intros x. tauto.
  - cbn [collect_fields]. destruct (bool_decide (n ∈ seen)) eqn:Hs.
    + apply bool_decide_eq_true in Hs.
      destruct (IH seen pkgs Hseen Hnd) as [seen' [pkgs' [HE [H1 [H2 H3]]]]].
      exists seen', pkgs'. split; [exact HE|]. split; [exact H1|]. split; [exact H2|].
      intros x. rewrite H3. cbn [In]. split; [tauto|].
      intros [Hx|[<-|Hx]]; [tauto | left; now apply Hseen | tauto].
    + apply bool_decide_eq_false in Hs.
      destruct (IH ({[n]} ∪ seen) (pkgs ++ [n])) as [seen' [pkgs' [HE [H1 [H2 H3]]]]].
      { intros x. rewrite elem_of_union, elem_of_singleton, in_app_iff, Hseen.
        cbn [In]. split; [intros [->|H]; tauto | intros [H|[->|[]]]; tauto]. }
      { apply NoDup_ListNoDup, NoDup_app. split; [now apply NoDup_ListNoDup|].
        split; [|apply NoDup_singleton].
        intros x Hx Hxn. apply list_elem_of_singleton in Hxn. subst x.
        apply Hs, Hseen. now apply list_elem_of_In. }
      exists seen', pkgs'. split; [exact HE|]. split; [exact H1|]. split; [exact H2|].
      intros x. rewrite H3, in_app_iff. cbn [In]. split.
      * intros [[Hx|[<-|[]]]|Hx]; tauto.
      * intros [Hx|[<-|Hx]]; tauto.
Qed.

Lemma collect_profiles_inv (profiles : list bytes) :
  forall (seen : gset bytes) (pkgs : list bytes),
    (forall x, x ∈ seen <-> In x pkgs) ->
    List.NoDup pkgs ->
    let pkgs' := collect_profiles catalogue profiles seen pkgs in
    List.NoDup pkgs'
    /\ (forall x, In x pkgs'
                  <-> In x pkgs
                      \/ exists name, In name profiles
                                      /\ In x (Fields (ProfilePackages catalogue name))).
Proof.
  induction profiles as [|name profiles IH]; intros seen pkgs Hseen Hnd; cbv zeta.
  - cbn. split; [exact Hnd|]. intros x. split; [tauto|].
    intros [H|[name [[] _]]]. exact H.
  - cbn [collect_profiles].
    destruct (bytes_eqb (ProfilePackages catalogue name) []) eqn:Eraw.
    + apply bytes_eqb_true in Eraw.
      destruct (IH seen pkgs Hseen Hnd) as [H1 H2]. split; [exact H1|].
      intros x. rewrite H2. split.
      * intros [H|[n [Hn Hx]]]; [tauto|]. right. exists n. split; [now right | exact Hx].
      * intros [H|[n [[<-|Hn] Hx]]]; [tauto | rewrite Eraw in Hx; destruct Hx |].
        right. now exists n.
    + destruct (collect_fields_inv (Fields (ProfilePackages catalogue name)) seen pkgs
                  Hseen Hnd) as [seen' [pkgs' [HE [H1 [H2 H3]]]]].
      rewrite HE. destruct (IH seen' pkgs' H1 H2) as [H4 H5]. split; [exact H4|].
      intros x. rewrite H5, H3. split.
      * intros [[H|Hx]|[n [Hn Hx]]]; [tauto | |].
        -- right. exists name. split; [now left | exact Hx].
        -- right. exists n. split; [now right | exact Hx].
      * intros [H|[n [[<-|Hn] Hx]]]; [tauto | tauto |].
        right. now exists n.
Qed.

(** X23: [CollectPackages] gives the packages of the given profiles, each
    once: a package is in the result exactly when it is a field of the
    package string of one of the profiles; no package is empty or holds
    white space; the profiles [node] and [javascript] bring [nodejs] and
    [npm] whatever the catalogue says; and another profile whose package
    string is one word brings that word. *)
Theorem collect_packages_result (profiles : list bytes) :
  let pkgs := CollectPackages catalogue profiles in
  List.NoDup pkgs
  /\ (forall p, In p pkgs
                <-> exists name, In name profiles
                                 /\ In p (Fields (ProfilePackages catalogue name)))
  /\ (forall p, In p pkgs -> p <> [] /\ has_space p = false)
  /\ (In (bs "node") profiles \/ In (bs "javascript") profiles ->
      In (bs "nodejs") pkgs /\ In (bs "npm") pkgs)
  /\ (forall name raw,
        In name profiles -> name <> bs "node" -> name <> bs "javascript" ->
        catalogue name = Some raw -> raw <> [] -> has_space raw = false ->
        In raw pkgs).
Proof.
  cbv zeta. unfold CollectPackages.
  destruct (collect_profiles_inv profiles ∅ []) as [H1 H2].
  { intros x. cbn. split; [intros H; now apply not_elem_of_empty in H | tauto]. }
  { constructor. }
  assert (Hin : forall p, In p (collect_profiles catalogue profiles ∅ [])
                          <-> exists name, In name profiles
                                /\ In p (Fields (ProfilePackages catalogue name))).
  { intros p. rewrite H2. cbn [In]. tauto. }
  split; [exact H1|]. split; [exact Hin|]. split.
  - intros p Hp. apply Hin in Hp. destruct Hp as [name [_ Hp]].
    pose proof (Fields_ok (ProfilePackages catalogue name)) as Hok.
    rewrite List.Forall_forall in Hok. exact (Hok p Hp).
  - split.
    + intros [Hn|Hn]; split; apply Hin; eexists; (split; [exact Hn|]);
        vm_compute; auto.
    + intros name raw Hn Hnode Hjs Hraw Hne Hsp. apply Hin. exists name.
      split; [exact Hn|]. unfold ProfilePackages.
      apply bytes_eqb_false in Hnode, Hjs. rewrite Hnode, Hjs, Hraw.
      cbn [orb default from_option id]. unfold Fields.
      rewrite (Fields_from_plain raw [] Hsp), app_nil_r.
      destruct (reverse raw) as [|c r] eqn:E.
      * apply (f_equal (@reverse ascii)) in E. rewrite reverse_involutive in E.
        rewrite reverse_nil in E. contradiction.
      * cbn [flush_field]. rewrite <- E, reverse_involutive. now left.
Qed.

(** X24: the packages of the [apk add] instruction of the project image:
    each package of the workspace, of its development profiles and of the
    session tools, once; the workspace's own packages first, in their
    order when they have no duplicate; and the instruction is left out
    exactly when there is no package at all. *)
Theorem project_packages_result (SessionTools : list bytes) (a : ActiveWorkspace) :
  let w := AWorkspace a in
  let pkgs := project_packages catalogue SessionTools (Some a) in
  List.NoDup pkgs
  /\ (forall p, In p pkgs
                <-> In p (Packages w)
                    \/ In p (CollectPackages catalogue (Development w))
                    \/ In p SessionTools)
  /\ (List.NoDup (Packages w) -> firstn (length (Packages w)) pkgs = Packages w)
  /\ (apk_add_line catalogue SessionTools (Some a) = []
      <-> Packages w = [] /\ CollectPackages catalogue (Development w) = []
          /\ SessionTools = [])
  /\ project_packages catalogue SessionTools None = dedup SessionTools.
Proof.
  cbv zeta. unfold project_packages. cbv zeta.
  split; [apply dedup_from_NoDup|].
  split; [intros p; rewrite dedup_In, !in_app_iff; tauto|].
  split.
  - intros Hnd. unfold dedup. rewrite <- app_assoc.
    destruct (dedup_from_keeps_front ∅ (Packages (AWorkspace a))
                (CollectPackages catalogue (Development (AWorkspace a)) ++ SessionTools)
                Hnd) as [tail Htail].
    { intros x _. apply not_elem_of_empty. }
    rewrite Htail. apply take_app_length.
  - split; [|reflexivity]. unfold apk_add_line, project_packages. cbv zeta.
    set (l := (Packages (AWorkspace a)
               ++ CollectPackages catalogue (Development (AWorkspace a)))
              ++ SessionTools).
    assert (Hl : dedup l = [] <-> l = []).
    { split; [|intros ->; reflexivity].
      destruct l as [|x l]; [reflexivity|]. intros H.
      assert (Hx : In x (dedup (x :: l))) by (apply dedup_In; now left).
      rewrite H in Hx. destruct Hx. }
    assert (Hempty : l = [] <-> Packages (AWorkspace a) = []
                                /\ CollectPackages catalogue (Development (AWorkspace a)) = []
                                /\ SessionTools = []).
    { unfold l. split.
      - intros H. apply app_eq_nil in H as [H ->]. apply app_eq_nil in H as [-> ->]. auto.
      - intros (-> & -> & ->). reflexivity. }
    rewrite <- Hempty, <- Hl. destruct (dedup l) as [|x d]; [tauto|].
    split; [|discriminate]. intros H. apply (f_equal (@length ascii)) in H.
    rewrite length_app in H. cbn in H. lia.
Qed.
End ProfileProperties.

(** ** The setup wizard: wrapping a list of words *)

Lemma Join_snoc (l : list bytes) (x sep : bytes) :
  l <> [] -> Join (l ++ [x]) sep = Join l sep ++ sep ++ x.
Proof.
  induction l as [|a l IH]; intros Hne; [congruence|].
  destruct l as [|b l]; [reflexivity|].
  change ((a :: b :: l) ++ [x]) with (a :: (b :: l) ++ [x]).
  change (Join (a :: (b :: l) ++ [x]) sep) with (a ++ sep ++ Join ((b :: l) ++ [x]) sep).
  rewrite IH by discriminate.
  change (Join (a :: b :: l) sep) with (a ++ sep ++ Join (b :: l) sep).
  now rewrite <- !app_assoc.
Qed.

Lemma wrapped_text_snoc (indent : bytes) (done : list (list bytes)) (g : list bytes) :
  done <> [] ->
  wrapped_text indent (done ++ [g])
  = wrapped_text indent done ++ [LF] ++ wrapped_line indent g.
Proof.
  intros Hne. unfold wrapped_text. rewrite map_app. cbn [map].
  apply Join_snoc. now destruct done.
Qed.

Lemma wrapped_text_last (indent : bytes) (done : list (list bytes)) (g : list bytes) :
  exists pre, forall g', wrapped_text indent (done ++ [g']) = pre ++ wrapped_line indent g'.
Proof.
  destruct done as [|d done].
  - exists []. reflexivity.
  - exists (wrapped_text indent (d :: done) ++ [LF]). intros g'.
    rewrite wrapped_text_snoc by discriminate. now rewrite <- app_assoc.
Qed.

Lemma segments_cons (w : bytes) (rest : list bytes) :
  segments (w :: rest)
  = (match rest with [] => w | _ :: _ => w ++ bs "," end) :: segments rest.
Proof. destruct rest; reflexivity. Qed.

Section Wrap.
Variable indent : bytes.
Variable maxWidth : Z.

Local Abbreviation fits := (line_fits indent maxWidth).
Local Abbreviation greedy := (greedy_breaks indent maxWidth).

Lemma greedy_snoc (ls : list (list bytes)) (g g' : list bytes) :
  greedy (ls ++ [g]) -> break_needed indent maxWidth g g' ->
  greedy ((ls ++ [g]) ++ [g']).
Proof.
  intros Hold Hnew i x y Hx Hy.
  destruct (decide (S i < length (ls ++ [g]))%nat) as [Hlt|Hge].
  - rewrite lookup_app_l in Hx by lia. rewrite lookup_app_l in Hy by lia.
    now apply (Hold i).
  - assert (Hi : S i = length (ls ++ [g])).
    { apply lookup_lt_Some in Hy. rewrite length_app in Hy. cbn in Hy. lia. }
    rewrite lookup_app_r in Hy by lia. rewrite Hi, Nat.sub_diag in Hy.
    cbn in Hy. inversion Hy; subst y.
    rewrite lookup_app_l in Hx by lia.
    rewrite length_app in Hi. cbn in Hi.
    rewrite lookup_app_r in Hx by lia.
    replace (i - length ls)%nat with 0%nat in Hx by lia. cbn in Hx.
    inversion Hx; subst x. exact Hnew.
Qed.

Lemma greedy_grow (ls : list (list bytes)) (g : list bytes) (x : bytes) :
  greedy (ls ++ [g]) -> g <> [] -> greedy (ls ++ [g ++ [x]]).
Proof.
  intros Hold Hne i a b Ha Hb.
  assert (Hlen : (S i < length ls + 1)%nat).
  { apply lookup_lt_Some in Hb. rewrite length_app in Hb. cbn in Hb. lia. }
  rewrite lookup_app_l in Ha by lia.
  destruct (decide (S i < length ls)%nat) as [Hlt|Hge].
  - rewrite lookup_app_l in Hb by lia.
    apply (Hold i); rewrite lookup_app_l by lia; assumption.
  - rewrite lookup_app_r in Hb by lia.
    replace (S i - length ls)%nat with 0%nat in Hb by lia. cbn in Hb.
    inversion Hb; subst b.
    destruct (Hold i a g) as [seg [Hseg Hw]].
    + rewrite lookup_app_l by lia. exact Ha.
    + rewrite lookup_app_r by lia. now replace (S i - length ls)%nat with 0%nat by lia.
    + exists seg. split; [|exact Hw]. destruct g; [congruence | exact Hseg].
Qed.

Lemma greedy_one (g : list bytes) : greedy [g].
Proof. intros i a b _ Hb. destruct i; discriminate. Qed.

Lemma wrap_loop_cons (w : bytes) (rest : list bytes) (lineLen : Z) (b : bytes) :
  wrap_loop indent maxWidth (w :: rest) lineLen b
  = let seg := match rest with [] => w | _ :: _ => w ++ bs "," end in
    let indentLen := Z.of_nat (length indent) in
    if (lineLen >? indentLen)%Z then
      if (lineLen + (Z.of_nat (length seg) + 1) >? maxWidth)%Z
      then wrap_loop indent maxWidth rest (indentLen + Z.of_nat (length seg))%Z
             ((b ++ [LF] ++ indent) ++ seg)
      else wrap_loop indent maxWidth rest (lineLen + 1 + Z.of_nat (length seg))%Z
             ((b ++ bs " ") ++ seg)
    else wrap_loop indent maxWidth rest (lineLen + Z.of_nat (length seg))%Z (b ++ seg).
Proof.
  cbn [wrap_loop]. cbv zeta.
  destruct (lineLen >? Z.of_nat (length indent))%Z eqn:E.
  - destruct (lineLen + (Z.of_nat (length _) + 1) >? maxWidth)%Z; cbn [andb].
    + now rewrite Z.gtb_ltb, Z.ltb_irrefl.
    + now rewrite E.
  - now rewrite andb_false_r, E.
Qed.

Lemma wrap_loop_lines (words : list bytes) :
  forall (done : list (list bytes)) (cur : list bytes),
    (cur <> [] \/ words <> []) ->
    (words <> [] -> cur <> [] -> (0 < length (Join cur (bs " ")))%nat) ->
    Forall (fun g => g <> []) done -> Forall fits done -> fits cur ->
    (cur = [] -> done = []) -> greedy (done ++ [cur]) ->
    exists lines,
      wrap_loop indent maxWidth words
        (Z.of_nat (length (wrapped_line indent cur)))
        (wrapped_text indent (done ++ [cur]))
      = wrapped_text indent lines
      /\ concat lines = concat done ++ cur ++ segments words
      /\ Forall (fun g => g <> []) lines
      /\ Forall fits lines
      /\ greedy lines.
Proof.
  induction words as [|w rest IH];
    intros done cur Hsome Hpos Hdone Hfits Hcur Hfirst Hgreedy.
  - exists (done ++ [cur]). cbn [wrap_loop segments]. split; [reflexivity|].
    split; [now rewrite concat_app; cbn; rewrite !app_nil_r|].
    split; [|split; [|exact Hgreedy]]; apply Forall_app; split; auto; constructor; auto.
    destruct Hsome; congruence.
  - rewrite segments_cons, wrap_loop_cons. cbv zeta.
    set (seg := match rest with [] => w | _ :: _ => w ++ bs "," end).
    assert (Hseg : rest <> [] -> (0 < length seg)%nat).
    { unfold seg. destruct rest; [congruence|]. intros _. rewrite length_app. cbn. lia. }
    assert (Hlen : forall g, Z.of_nat (length (wrapped_line indent g))
                   = (Z.of_nat (length indent) + Z.of_nat (length (Join g (bs " "))))%Z).
    { intros g. unfold wrapped_line. rewrite length_app. lia. }
    destruct (wrapped_text_last indent done cur) as [pre Hpre].
    destruct cur as [|c cur].
    + (* the first segment of the text *)
      replace (Z.of_nat (length (wrapped_line indent [])) >? Z.of_nat (length indent))%Z
        with false by (symmetry; rewrite Z.gtb_ltb; apply Z.ltb_ge; rewrite Hlen; cbn; lia).
      destruct (IH done [seg]) as [lines [H1 [H2 [H3 H4]]]].
      * left. discriminate.
      * intros Hr _. cbn [Join]. now apply Hseg.
      * exact Hdone.
      * exact Hfits.
      * intros Hl. cbn in Hl. lia.
      * discriminate.
      * rewrite (Hfirst eq_refl). apply greedy_one.
      * exists lines. split; [|split; [exact H2 | split; [exact H3 | exact H4]]].
        rewrite <- H1. f_equal.
        -- rewrite !Hlen. cbn [Join length]. lia.
        -- rewrite !Hpre. unfold wrapped_line. cbn [Join]. now rewrite <- !app_assoc.
    + assert (Hpos' : (0 < length (Join (c :: cur) (bs " ")))%nat)
        by (apply Hpos; discriminate).
      replace (Z.of_nat (length (wrapped_line indent (c :: cur))) >? Z.of_nat (length indent))%Z
        with true by (symmetry; rewrite Z.gtb_ltb; apply Z.ltb_lt; rewrite Hlen; lia).
      assert (Hjoin : Join ((c :: cur) ++ [seg]) (bs " ")
                      = Join (c :: cur) (bs " ") ++ bs " " ++ seg)
        by (apply Join_snoc; discriminate).
      destruct (_ >? maxWidth)%Z eqn:Ewrap.
      * (* the segment opens a new line *)
        destruct (IH (done ++ [c :: cur]) [seg]) as [lines [H1 [H2 [H3 H4]]]].
        -- left. discriminate.
        -- intros Hr _. cbn [Join]. now apply Hseg.
        -- apply Forall_app. split; [exact Hdone|]. constructor; [discriminate|constructor].
        -- apply Forall_app. split; [exact Hfits|]. constructor; [exact Hcur|constructor].
        -- intros Hl. cbn in Hl. lia.
        -- discriminate.
        -- apply greedy_snoc; [exact Hgreedy|]. exists seg. split; [reflexivity|].
           rewrite Z.gtb_ltb in Ewrap. apply Z.ltb_lt in Ewrap. lia.
        -- exists lines. split; [|split; [|split; [exact H3 | exact H4]]].
           ++ rewrite <- H1. f_equal.
              ** rewrite !Hlen. cbn [Join length]. lia.
              ** rewrite (wrapped_text_snoc indent (done ++ [c :: cur]) [seg])
                   by (now destruct done).
                 unfold wrapped_line. cbn [Join]. now rewrite <- !app_assoc.
           ++ rewrite H2, concat_app. cbn [concat]. rewrite app_nil_r, <- !app_assoc.
              reflexivity.
      * (* the segment goes on the current line *)
        destruct (IH done ((c :: cur) ++ [seg])) as [lines [H1 [H2 [H3 H4]]]].
        -- left. now destruct cur.
        -- intros _ _. rewrite Hjoin, !length_app. change (length (bs " ")) with 1%nat. lia.
        -- exact Hdone.
        -- exact Hfits.
        -- intros _. rewrite Hlen, Hjoin, !length_app.
           rewrite Z.gtb_ltb in Ewrap. apply Z.ltb_ge in Ewrap. rewrite Hlen in Ewrap.
           change (length (bs " ")) with 1%nat. lia.
        -- intros H. now destruct cur.
        -- apply greedy_grow; [exact Hgreedy | discriminate].
        -- exists lines. split; [|split; [|split; [exact H3 | exact H4]]].
           ++ rewrite <- H1. f_equal.
              ** rewrite !Hlen, Hjoin, !length_app. change (length (bs " ")) with 1%nat. lia.
              ** rewrite !Hpre. unfold wrapped_line. rewrite Hjoin.
                 now rewrite <- !app_assoc.
           ++ rewrite H2, <- !app_assoc. reflexivity.
Qed.
End Wrap.

Lemma Join_segments (words : list bytes) :
  Join (segments words) (bs " ") = Join words (bs ", ").
Proof.
  induction words as [|w [|w' rest] IH]; [reflexivity | reflexivity |].
  rewrite segments_cons.
  change (Join (w :: w' :: rest) (bs ", ")) with (w ++ bs ", " ++ Join (w' :: rest) (bs ", ")).
  rewrite <- IH. rewrite (segments_cons w' rest).
  cbn [Join]. rewrite <- !app_assoc. reflexivity.
Qed.

(** X25: [wrapWords] writes the words, each but the last followed by a
    comma, on lines that start with the indent, the segments of a line
    separated by one space: taken together the lines hold the words
    joined by comma and space; a line of two or more segments is no wider
    than the width; and a new line is begun only when the next segment no
    longer fits on the current one.  A width of zero or less stands for
    80, and no words give the empty string. *)
Theorem wrap_words_lines (words : list bytes) (indent : bytes) (maxWidth : Z) :
  let width := if (maxWidth <=? 0)%Z then 80%Z else maxWidth in
  wrapWords [] indent maxWidth = []
  /\ (words <> [] ->
      exists lines,
        wrapWords words indent maxWidth = wrapped_text indent lines
        /\ concat lines = segments words
        /\ Join (concat lines) (bs " ") = Join words (bs ", ")
        /\ Forall (fun g => g <> []) lines
        /\ Forall (line_fits indent width) lines
        /\ greedy_breaks indent width lines).
Proof.
  cbv zeta. split; [reflexivity|]. intros Hne.
  destruct (wrap_loop_lines indent (if (maxWidth <=? 0)%Z then 80%Z else maxWidth)
              words [] []) as [lines [H1 [H2 [H3 [H4 H5]]]]].
  - now right.
  - intros _ H. congruence.
  - constructor.
  - constructor.
  - intros H. cbn in H. lia.
  - reflexivity.
  - apply greedy_one.
  - exists lines. cbn [concat app] in H2.
    split; [|split; [exact H2 | split; [|split; [exact H3 | split; [exact H4 | exact H5]]]]].
    + unfold wrapWords. cbv zeta. destruct words as [|w words]; [congruence|].
      rewrite <- H1. unfold wrapped_text, wrapped_line. cbn [app map Join].
      now rewrite app_nil_r.
    + rewrite H2. apply Join_segments.
Qed.

Example wrap_words_sample :
  wrapWords [bs "git"; bs "curl"; bs "jq"] (bs "  ") 12
  = bs "  git, curl," ++ [LF] ++ bs "  jq".
Proof. vm_compute. reflexivity. Qed.

(** ** What the hashed text of a workspace tells apart *)

Lemma split_at_separator (c : ascii) (p q x y : bytes) :
  ~ In c p -> ~ In c q -> p ++ c :: x = q ++ c :: y -> p = q /\ x = y.
Proof.
  revert q. induction p as [|a p IH]; intros [|b q] Hp Hq H; cbn [app] in H.
  - inversion H. auto.
  - inversion H; subst. destruct Hq. now left.
  - inversion H; subst. destruct Hp. now left.
  - inversion H; subst. destruct (IH q) as [-> ->]; auto.
    + intros Hin. apply Hp. now right.
    + intros Hin. apply Hq. now right.
Qed.

Lemma Join_cons_cons (p q : bytes) (l : list bytes) (sep : bytes) :
  Join (p :: q :: l) sep = p ++ sep ++ Join (q :: l) sep.
Proof. reflexivity. Qed.

Lemma Join_comma_inj (l1 l2 : list bytes) :
  Forall comma_free l1 -> Forall comma_free l2 -> l1 <> [] -> l2 <> [] ->
  Join l1 (bs ",") = Join l2 (bs ",") -> l1 = l2.
Proof.
  intros H1. revert l2. induction H1 as [|p l1 Hp H1 IH]; intros l2 H2 Hn1 Hn2 H;
    [congruence|].
  destruct H2 as [|q l2 Hq H2]; [congruence|].
  destruct l1 as [|p' l1], l2 as [|q' l2].
  - cbn in H. now subst.
  - rewrite Join_cons_cons in H. cbn [Join] in H. subst p.
    destruct Hp. rewrite in_app_iff. right. now left.
  - rewrite Join_cons_cons in H. cbn [Join] in H. subst q.
    destruct Hq. rewrite in_app_iff. right. now left.
  - rewrite !Join_cons_cons in H.
    apply (split_at_separator ","%char) in H as [-> H]; [|exact Hp | exact Hq].
    f_equal. apply IH; [exact H2 | discriminate | discriminate | exact H].
Qed.

(** X26: what the hashed text of the project image tells apart.  For
    resolved workspaces whose fields hold no comma, two hashed texts are
    equal exactly when the scopes agree, the names agree and the lists
    development profiles, packages, session tools agree once they are
    put one after the other; and equal hashed texts give the same
    [WorkspaceHash]. *)
Theorem hashed_text_tells_apart
    (st1 st2 : list bytes) (cfg1 cfg2 : Config) (a1 a2 : ActiveWorkspace) :
  comma_free_fields st1 a1 -> comma_free_fields st2 a2 ->
  (Join (ToolsLayer.hash_parts st1 cfg1 (Some a1)) (bs ",")
   = Join (ToolsLayer.hash_parts st2 cfg2 (Some a2)) (bs ",")
   <-> Scope a1 = Scope a2 /\ Name (AWorkspace a1) = Name (AWorkspace a2)
       /\ Development (AWorkspace a1) ++ Packages (AWorkspace a1) ++ st1
          = Development (AWorkspace a2) ++ Packages (AWorkspace a2) ++ st2)
  /\ (forall dir1 dir2 ov1 ov2,
        resolved_or_nil (ResolveActiveWorkspace cfg1 dir1 ov1) = Some a1 ->
        resolved_or_nil (ResolveActiveWorkspace cfg2 dir2 ov2) = Some a2 ->
        Join (ToolsLayer.hash_parts st1 cfg1 (Some a1)) (bs ",")
        = Join (ToolsLayer.hash_parts st2 cfg2 (Some a2)) (bs ",") ->
        ToolsLayer.WorkspaceHash st1 cfg1 dir1 ov1
        = ToolsLayer.WorkspaceHash st2 cfg2 dir2 ov2).
Proof.
  intros (Hs1 & Hn1 & Hd1 & Hp1 & Ht1) (Hs2 & Hn2 & Hd2 & Hp2 & Ht2).
  assert (Hparts : forall st cfg a,
            ToolsLayer.hash_parts st cfg (Some a)
            = Scope a :: Name (AWorkspace a)
              :: Development (AWorkspace a) ++ Packages (AWorkspace a) ++ st).
  { intros st cfg a. unfold ToolsLayer.hash_parts. cbn [app]. now rewrite <- app_assoc. }
  split.
  - rewrite !Hparts. split.
    + intros H. apply Join_comma_inj in H; try discriminate.
      * inversion H. auto.
      * constructor; [exact Hs1|]. constructor; [exact Hn1|].
        apply Forall_app. split; [exact Hd1|]. apply Forall_app. now split.
      * constructor; [exact Hs2|]. constructor; [exact Hn2|].
        apply Forall_app. split; [exact Hd2|]. apply Forall_app. now split.
    + intros (-> & -> & ->). reflexivity.
  - intros dir1 dir2 ov1 ov2 Hr1 Hr2 H. unfold ToolsLayer.WorkspaceHash.
    cbv zeta. now rewrite Hr1, Hr2, H.
Qed.

Lemma hashed_text_tells_apart_witness :
  Join (ToolsLayer.hash_parts [] cfg_override_test (Some ws_go_profile)) (bs ",")
  = Join (ToolsLayer.hash_parts [] cfg_override_test (Some ws_go_package)) (bs ",").
Proof.
  apply (hashed_text_tells_apart [] [] cfg_override_test cfg_override_test
           ws_go_profile ws_go_package).
  - unfold comma_free_fields, comma_free.
    split; [|split; [|split; [|split]]]; repeat constructor; cbn; intuition discriminate.
  - unfold comma_free_fields, comma_free.
    split; [|split; [|split; [|split]]]; repeat constructor; cbn; intuition discriminate.
  - split; [|split]; reflexivity.
Defined.

(** ** Opening a vault whose database is missing *)

Section VaultOpenProperties.
Variable deriveKey : bytes -> bytes -> bytes.
Variable badger_view : bytes -> BadgerDB -> option (gmap bytes bytes).
Hypothesis view_same :
  forall d, badger_view (db_key d) d = Some (db_entries d).
Hypothesis view_auth :
  forall key d view, key <> db_key d -> badger_view key d = Some view ->
    view !! verifyKey <> Some verifyValue.

(** X27: [Open] is not read-only.  On a workspace that holds a salt file
    of the right length and no database, [badger.Open] creating one,
    [Open] fails with wrong-password-or-corrupted and leaves behind an
    empty database under the key of the password given; from then on
    [Open] fails for every password and [Init] refuses the workspace as
    already existing.  When [badger.Open] cannot create the database,
    [Open] fails at opening it. *)
Theorem open_without_database
    (disk : Disk) (ws pw salt : bytes) :
  disk !! ws = Some {| salt_file := Some salt; db_dir := None |} ->
  length salt = saltLen ->
  (exists disk',
      Open deriveKey badger_view disk CreateOk ws pw
        = (disk', inl ErrWrongPasswordOrCorrupt)
      /\ disk' !! ws
         = Some (vault_files salt (deriveKey pw salt) ∅)
      /\ (forall c pw', exists e,
            Open deriveKey badger_view disk' c ws pw' = (disk', inl e)
            /\ (e = ErrOpenDB \/ e = ErrWrongPasswordOrCorrupt))
      /\ (forall env pw', mkdir_ok env = true ->
            Init deriveKey badger_view disk' env ws pw' = (disk', Some ErrVaultExists)))
  /\ (forall leaves, exists disk',
        Open deriveKey badger_view disk (CreateFail leaves) ws pw = (disk', inl ErrOpenDB)
        /\ IsInitialized disk' ws = true).
Proof.
  intros Hd Hlen. split.
  - eexists. split; [|split; [|split]].
    + unfold Open, vault_of, saltLen in *. rewrite Hd. cbn -[verifyKey verifyValue].
      rewrite Hlen. cbn -[verifyKey verifyValue].
      rewrite bool_decide_eq_false_2 by (rewrite lookup_empty; discriminate).
      reflexivity.
    + apply lookup_insert_eq.
    + intros c pw'.
      assert (Hd' : <[ws := vault_files salt (deriveKey pw salt) ∅]> disk !! ws
                    = Some (vault_files salt (deriveKey pw salt) ∅))
        by apply lookup_insert_eq.
      destruct (decide (deriveKey pw' salt = deriveKey pw salt)) as [Heq|Hne].
      * exists ErrWrongPasswordOrCorrupt. split; [|now right].
        rewrite <- Heq in Hd' |- *.
        apply (Open_locked deriveKey badger_view view_same _ c ws pw' salt ∅ Hd' Hlen).
        rewrite lookup_empty. discriminate.
      * exact (Open_other_key deriveKey badger_view view_auth _ c ws pw pw' salt ∅
                 Hd' Hlen Hne).
    + intros env pw' Hmk. unfold Init, vault_of. rewrite Hmk, lookup_insert_eq.
      cbn [negb default from_option id vault_files salt_file].
      now rewrite insert_insert_eq.
  - intros leaves. eexists. split.
    + unfold Open, vault_of, saltLen in *. rewrite Hd. cbn -[verifyKey verifyValue].
      rewrite Hlen. reflexivity.
    + unfold IsInitialized, vault_of. rewrite lookup_insert_eq. reflexivity.
Qed.
End VaultOpenProperties.

Lemma open_without_database_witness :
  exists disk',
    Open toy_deriveKey toy_view disk_without_db CreateOk (bs "ws") (bs "pw")
      = (disk', inl ErrWrongPasswordOrCorrupt)
    /\ Init toy_deriveKey toy_view disk' env_ok (bs "ws") (bs "pw")
       = (disk', Some ErrVaultExists).
Proof.
  destruct (open_without_database toy_deriveKey toy_view toy_view_same toy_view_auth
              disk_without_db (bs "ws") (bs "pw") salt0 eq_refl eq_refl)
    as [[disk' [H1 [_ [_ H4]]]] _].
  exists disk'. split; [exact H1|]. now apply H4.
Defined.
